(** * Buffered I/O over extent maps: a shallow embedding of fs/iomap/buffered-io.c

    The development embeds the page-state tracker, the read completion path,
    the write begin/end protocol, the zeroing actor, the writeback page mapper
    and the ioend merge test of [fs/iomap/buffered-io.c] as Rocq functions and
    states the properties of the design document about them.

    Conventions.
    - C integers are [Z]; the wrap-around of [unsigned] (32 bits), of
      [atomic_t] (32 bits, signed), of [size_t] (64 bits) and of [loff_t]
      (64 bits, signed) is written out with [u32], [s32], [u64] and [s64].
    - The per-page bitmap [iop->uptodate] is a [Z] read with [Z.testbit] and
      written with [Z.setbit].
    - A [for] loop with a known trip count is a structural recursion on that
      count; a loop whose trip count depends on callbacks carries fuel and
      returns [option].
    - Calls that leave this file (bio submission, page unlock, hooks of the
      filesystem) are recorded in an event log carried by the state. *)

From Stdlib Require Import ZArith List Bool Lia Permutation.
Import ListNotations.
Local Open Scope Z_scope.

(** ** Machine integers *)

Definition u32 (x : Z) : Z := x mod 2 ^ 32.
Definition u64 (x : Z) : Z := x mod 2 ^ 64.
Definition s32 (x : Z) : Z := (x + 2 ^ 31) mod 2 ^ 32 - 2 ^ 31.
Definition s64 (x : Z) : Z := (x + 2 ^ 63) mod 2 ^ 64 - 2 ^ 63.

(** ** Architecture and header constants *)

(** [PAGE_SHIFT] comes from the architecture headers, which are outside this
    file; it is a parameter of the whole development. *)
Class Arch : Type := { PAGE_SHIFT : Z }.

Section Model.
Context {arch : Arch}.

(** [#define PAGE_SIZE (1UL << PAGE_SHIFT)] *)
Definition PAGE_SIZE : Z := Z.shiftl 1 PAGE_SHIFT.

(** [offset_in_page(p)] is [p & ~PAGE_MASK], that is [p & (PAGE_SIZE - 1)]. *)
Definition offset_in_page (p : Z) : Z := Z.land p (PAGE_SIZE - 1).

(** Extent types of [struct iomap] ([IOMAP_HOLE] ... [IOMAP_INLINE]). *)
Inductive iomap_type : Type :=
| IOMAP_HOLE
| IOMAP_DELALLOC
| IOMAP_MAPPED
| IOMAP_UNWRITTEN
| IOMAP_INLINE.

Definition iomap_type_eqb (a b : iomap_type) : bool :=
  match a, b with
  | IOMAP_HOLE, IOMAP_HOLE
  | IOMAP_DELALLOC, IOMAP_DELALLOC
  | IOMAP_MAPPED, IOMAP_MAPPED
  | IOMAP_UNWRITTEN, IOMAP_UNWRITTEN
  | IOMAP_INLINE, IOMAP_INLINE => true
  | _, _ => false
  end.

(** Modelled from the spec: the flag bits of [include/linux/iomap.h], which is
    not among the sources.  The design document names the extent flags New,
    Shared and SizeChanged; each is one bit of the flag word, with the values
    of the kernel header. *)
Definition IOMAP_F_NEW : Z := 1.
Definition IOMAP_F_DIRTY : Z := 2.
Definition IOMAP_F_SHARED : Z := 4.
Definition IOMAP_F_SIZE_CHANGED : Z := 256.

(** [struct inode], reduced to the fields this file reads. *)
Record inode : Type := mkInode {
  i_size : Z;          (* i_size_read(inode) *)
  i_blkbits : Z;       (* log2 of the block size *)
  IS_DAX : bool
}.

(** [i_blocksize(inode)] is [1U << inode->i_blkbits]. *)
Definition i_blocksize (ino : inode) : Z := u32 (Z.shiftl 1 (i_blkbits ino)).

(** [struct iomap], reduced to the fields this file reads. *)
Record iomap : Type := mkIomap {
  iomap_addr : Z;
  iomap_offset : Z;
  iomap_length : Z;
  iomap_type_of : iomap_type;
  iomap_flags : Z
}.

(** [struct iomap_page]: the per-page state of a page whose blocks are
    smaller than the page. *)
Record iomap_page : Type := mkIop {
  read_count : Z;
  write_count : Z;
  uptodate : Z
}.

(** [struct page]: the page flags and the private pointer ([to_iomap_page]). *)
Record page : Type := mkPage {
  index : Z;
  PG_uptodate : bool;
  PG_dirty : bool;
  PG_writeback : bool;
  PG_locked : bool;
  PG_error : bool;
  to_iomap_page : option iomap_page;
  page_mapping : bool  (* page_mapping(page) != NULL *)
}.

Definition PageUptodate (p : page) : bool := PG_uptodate p.
Definition PageError (p : page) : bool := PG_error p.
Definition PageLocked (p : page) : bool := PG_locked p.
Definition PageWriteback (p : page) : bool := PG_writeback p.
Definition PageDirty (p : page) : bool := PG_dirty p.

Definition SetPageUptodate (p : page) : page :=
  mkPage (index p) true (PG_dirty p) (PG_writeback p) (PG_locked p)
         (PG_error p) (to_iomap_page p) (page_mapping p).
Definition ClearPageUptodate (p : page) : page :=
  mkPage (index p) false (PG_dirty p) (PG_writeback p) (PG_locked p)
         (PG_error p) (to_iomap_page p) (page_mapping p).
Definition SetPageError (p : page) : page :=
  mkPage (index p) (PG_uptodate p) (PG_dirty p) (PG_writeback p) (PG_locked p)
         true (to_iomap_page p) (page_mapping p).
Definition SetPageDirty (p : page) : page :=
  mkPage (index p) (PG_uptodate p) true (PG_writeback p) (PG_locked p)
         (PG_error p) (to_iomap_page p) (page_mapping p).
Definition ClearPageDirty (p : page) : page :=
  mkPage (index p) (PG_uptodate p) false (PG_writeback p) (PG_locked p)
         (PG_error p) (to_iomap_page p) (page_mapping p).
Definition SetPageWriteback (p : page) : page :=
  mkPage (index p) (PG_uptodate p) (PG_dirty p) true (PG_locked p)
         (PG_error p) (to_iomap_page p) (page_mapping p).
Definition ClearPageWriteback (p : page) : page :=
  mkPage (index p) (PG_uptodate p) (PG_dirty p) false (PG_locked p)
         (PG_error p) (to_iomap_page p) (page_mapping p).
Definition ClearPageLocked (p : page) : page :=
  mkPage (index p) (PG_uptodate p) (PG_dirty p) (PG_writeback p) false
         (PG_error p) (to_iomap_page p) (page_mapping p).
Definition set_iomap_page (p : page) (iop : option iomap_page) : page :=
  mkPage (index p) (PG_uptodate p) (PG_dirty p) (PG_writeback p) (PG_locked p)
         (PG_error p) iop (page_mapping p).

(** [test_bit] and [set_bit] on the bitmap. *)
Definition test_bit (i : Z) (bm : Z) : bool := Z.testbit bm i.
Definition set_bit (i : Z) (bm : Z) : Z := Z.setbit bm i.

Definition set_uptodate (iop : iomap_page) (bm : Z) : iomap_page :=
  mkIop (read_count iop) (write_count iop) bm.
Definition set_read_count (iop : iomap_page) (c : Z) : iomap_page :=
  mkIop c (write_count iop) (uptodate iop).
Definition set_write_count (iop : iomap_page) (c : Z) : iomap_page :=
  mkIop (read_count iop) c (uptodate iop).

(** ** Events that leave this file *)

(** [struct bio], reduced to its start sector, byte count, completion status,
    segment count and segments.  Of the segments the model keeps the page
    each one lies on (the index of [bv_page]), in the order in which
    [bio_for_each_segment_all] walks them. *)
Record bio : Type := mkBio {
  bi_sector : Z;
  bi_size : Z;
  bi_status : Z;
  bi_vcnt : Z;
  bi_io_vec : list Z
}.

Inductive event : Type :=
| EvUnlockPage                          (* unlock_page(page) *)
| EvEndPageWriteback                    (* end_page_writeback(page) *)
| EvMarkInodeDirty                      (* __mark_inode_dirty(host, I_DIRTY_PAGES) *)
| EvZeroUserSegments (s1 e1 s2 e2 : Z)  (* zero_user_segments(page, s1, e1, s2, e2) *)
| EvSubmitBioWait (sector poff plen : Z)(* submit_bio_wait of a one-segment read *)
| EvDiscardPage                         (* ops->discard_page(page) *)
| EvSubmitBio (b : bio)                 (* submit_bio(b) *)
| EvBioEndio (b : bio) (error : Z)      (* bi_status = errno_to_blk_status(error); bio_endio(b) *)
| EvMappingSetError (err : Z)           (* mapping_set_error(mapping, err) with err <> 0 *)
| EvFinishPageWriteback (index : Z) (failed : bool).
                                        (* iomap_finish_page_writeback on another page of the inode,
                                           with or without an error *)

(** A page together with the log of the calls made on its behalf. *)
Record pstate : Type := mkPstate {
  pg : page;
  trace : list event
}.

Definition emit (e : event) (s : pstate) : pstate :=
  mkPstate (pg s) (trace s ++ [e]).
Definition with_page (s : pstate) (p : page) : pstate :=
  mkPstate p (trace s).

(** [unlock_page]: clears the lock bit and wakes the waiters. *)
Definition unlock_page (s : pstate) : pstate :=
  emit EvUnlockPage (with_page s (ClearPageLocked (pg s))).

(** ** iomap_set_range_uptodate *)

(** The body of [for (i = 0; i < PAGE_SIZE / i_blocksize(inode); i++)], run
    for the [n] iterations that remain from index [i]. *)
Fixpoint set_range_loop (n : nat) (i first last : Z) (bm : Z) (upt : bool)
  : Z * bool :=
  match n with
  | O => (bm, upt)
  | S n' =>
      if (first <=? i) && (i <=? last)
      then set_range_loop n' (i + 1) first last (set_bit i bm) upt
      else if negb (test_bit i bm)
           then set_range_loop n' (i + 1) first last bm false
           else set_range_loop n' (i + 1) first last bm upt
  end.

Definition iomap_set_range_uptodate (ino : inode) (p : page) (off len : Z)
  : page :=
  let first := u32 (Z.shiftr off (i_blkbits ino)) in
  let last := u32 (Z.shiftr (u32 (off + len - 1)) (i_blkbits ino)) in
  let '(p1, upt) :=
    match to_iomap_page p with
    | Some iop =>
        let '(bm, upt) :=
          set_range_loop (Z.to_nat (PAGE_SIZE / i_blocksize ino)) 0 first last
                         (uptodate iop) true in
        (set_iomap_page p (Some (set_uptodate iop bm)), upt)
    | None => (p, true)
    end in
  if upt && negb (PageError p1) then SetPageUptodate p1 else p1.

(** ** iomap_page_create *)

Definition iomap_page_create (ino : inode) (p : page) : page :=
  match to_iomap_page p with
  | Some _ => p
  | None =>
      if i_blocksize ino =? PAGE_SIZE then p
      else set_iomap_page p (Some (mkIop 0 0 0))
  end.

(** ** iomap_adjust_read_range *)

(** "move forward for each leading block marked uptodate": the loop
    [for (i = first; i <= last; i++)], run for the [n] iterations that remain;
    the state is [(i, pos, poff, plen, first)]. *)
Fixpoint skip_leading (n : nat) (bm block_size : Z) (i pos poff plen first : Z)
  : Z * Z * Z * Z * Z :=
  match n with
  | O => (i, pos, poff, plen, first)
  | S n' =>
      if negb (test_bit i bm) then (i, pos, poff, plen, first)
      else skip_leading n' bm block_size (u32 (i + 1)) (s64 (pos + block_size))
                        (u32 (poff + block_size)) (u32 (plen - block_size))
                        (u32 (first + 1))
  end.

(** "truncate len if we find any trailing uptodate block(s)": the loop
    [for ( ; i <= last; i++)]; the state is [(plen, last)]. *)
Fixpoint trim_trailing (n : nat) (bm block_size : Z) (i plen last : Z)
  : Z * Z :=
  match n with
  | O => (plen, last)
  | S n' =>
      if test_bit i bm
      then (u32 (plen - u32 (u32 (last - i + 1) * block_size)), u32 (i - 1))
      else trim_trailing n' bm block_size (u32 (i + 1)) plen last
  end.

(** Returns [( *pos, *offp, *lenp )]. *)
Definition iomap_adjust_read_range (ino : inode) (iop : option iomap_page)
    (pos length : Z) : Z * Z * Z :=
  let orig_pos := pos in
  let isize := i_size ino in
  let block_bits := i_blkbits ino in
  let block_size := u32 (Z.shiftl 1 block_bits) in
  let poff := u32 (offset_in_page pos) in
  let plen := u32 (Z.min (PAGE_SIZE - poff) length) in
  let first := Z.shiftr poff block_bits in
  let last := Z.shiftr (u32 (poff + plen - 1)) block_bits in
  let '(pos, poff, plen, first, last) :=
    match iop with
    | Some iop =>
        let '(i, pos, poff, plen, first1) :=
          skip_leading (Z.to_nat (last + 1 - first)) (uptodate iop) block_size
                       first pos poff plen first in
        let '(plen, last) :=
          trim_trailing (Z.to_nat (last + 1 - i)) (uptodate iop) block_size
                        i plen last in
        (pos, poff, plen, first1, last)
    | None => (pos, poff, plen, first, last)
    end in
  let plen :=
    if (orig_pos <=? isize) && (isize <? s64 (orig_pos + length)) then
      let end_ := Z.shiftr (u32 (offset_in_page (isize - 1))) block_bits in
      if (first <=? end_) && (end_ <? last)
      then u32 (plen - u32 (u32 (last - end_) * block_size))
      else plen
    else plen in
  (pos, poff, plen).

(** ** Read completion *)

(** [atomic_dec_and_test]: the new counter and whether it is zero. *)
Definition atomic_dec_and_test (v : Z) : Z * bool :=
  let v' := s32 (v - 1) in (v', v' =? 0).
Definition atomic_inc (v : Z) : Z := s32 (v + 1).

Definition iomap_read_finish (s : pstate) : pstate :=
  match to_iomap_page (pg s) with
  | None => unlock_page s
  | Some iop =>
      let '(c, zero) := atomic_dec_and_test (read_count iop) in
      let s1 := with_page s (set_iomap_page (pg s) (Some (set_read_count iop c))) in
      if zero then unlock_page s1 else s1
  end.

(** One segment of a bio; [bv_page] is the page of the state. *)
Record bio_vec : Type := mkBvec {
  bv_offset : Z;
  bv_len : Z
}.

Definition iomap_read_page_end_io (ino : inode) (bvec : bio_vec) (error : Z)
    (s : pstate) : pstate :=
  let s1 :=
    if negb (error =? 0)
    then with_page s (SetPageError (ClearPageUptodate (pg s)))
    else with_page s (iomap_set_range_uptodate ino (pg s)
                                               (bv_offset bvec) (bv_len bvec)) in
  iomap_read_finish s1.

(** The completions of the read segments of one page, taken one after
    another, each as a whole.  This is how the segments of one bio complete
    ([iomap_read_end_io] below walks them in a loop).  For segments of
    different bios, whose completions can overlap in time, the list stands for
    the order in which their atomic decrements take effect: that settles
    what depends on [read_count] and on the error flag, which is set and never
    cleared; it does not settle what [iomap_set_range_uptodate] finds when
    two of its bitmap scans overlap, as the source takes no lock there. *)
Fixpoint read_completions (ino : inode) (l : list (bio_vec * Z)) (s : pstate)
  : pstate :=
  match l with
  | [] => s
  | (bvec, error) :: l' =>
      read_completions ino l' (iomap_read_page_end_io ino bvec error s)
  end.

(** [iomap_read_end_io]: the completion of a read bio, which walks the
    segments of the bio one after another, each with the error of the bio.
    [segments] are those segments of the bio that lie on the page of the
    state. *)
Definition iomap_read_end_io (ino : inode) (segments : list bio_vec)
    (error : Z) (s : pstate) : pstate :=
  read_completions ino (map (fun bvec => (bvec, error)) segments) s.

(** ** Write end *)

(** [iomap_set_page_dirty]: returns [newly_dirty]. *)
Definition iomap_set_page_dirty (s : pstate) : Z * pstate :=
  let newly_dirty := negb (PageDirty (pg s)) in
  let s1 := with_page s (SetPageDirty (pg s)) in
  if negb (page_mapping (pg s)) then (Z.b2z newly_dirty, s1)
  else if newly_dirty then (1, emit EvMarkInodeDirty s1) else (0, s1).

(** [flush_dcache_page] only maintains the data cache and is left out. *)
Definition __iomap_write_end (ino : inode) (pos len copied : Z) (s : pstate)
  : Z * pstate :=
  if (copied <? len) && negb (PageUptodate (pg s)) then (0, s)
  else
    let s1 := with_page s (iomap_set_range_uptodate ino (pg s)
                             (u32 (offset_in_page pos)) len) in
    let '(_, s2) := iomap_set_page_dirty s1 in
    (s32 copied, s2).


(** ** Write begin *)

Definition iomap_block_needs_zeroing (ino : inode) (im : iomap) (pos : Z)
  : bool :=
  negb (iomap_type_eqb (iomap_type_of im) IOMAP_MAPPED)
  || negb (Z.land (iomap_flags im) IOMAP_F_NEW =? 0)
  || (i_size ino <=? pos).

(** Modelled from the spec: [iomap_sector] of [include/linux/iomap.h], which
    is not among the sources: the device sector of file position [pos] in the
    extent, [(addr + pos - offset) >> SECTOR_SHIFT] with 512-byte sectors. *)
Definition iomap_sector (im : iomap) (pos : Z) : Z :=
  Z.shiftr (iomap_addr im + pos - iomap_offset im) 9.

(** [submit_bio_wait] belongs to the block layer: its status for a
    one-segment read at [sector] of [plen] bytes into the page at [poff] is a
    parameter.  A successful read fills the page and sets no uptodate bit. *)
Definition iomap_read_page_sync (submit_bio_wait : Z -> Z -> Z -> Z)
    (ino : inode) (block_start : Z) (poff plen from to : Z) (im : iomap)
    (s : pstate) : Z * pstate :=
  if iomap_block_needs_zeroing ino im block_start then
    let s1 := emit (EvZeroUserSegments poff from to (u32 (poff + plen))) s in
    (0, with_page s1 (iomap_set_range_uptodate ino (pg s1) poff plen))
  else
    let sector := iomap_sector im block_start in
    (submit_bio_wait sector poff plen, emit (EvSubmitBioWait sector poff plen) s).

(** The [do { ... } while ((block_start += plen) < block_end)] loop.  The
    page state is read again from the page in every iteration, as the bitmap
    behind [iop] is shared with [iomap_set_range_uptodate]. *)
Fixpoint write_begin_loop (fuel : nat) (submit_bio_wait : Z -> Z -> Z -> Z)
    (ino : inode) (im : iomap) (from to block_end block_start : Z)
    (s : pstate) : option (Z * pstate) :=
  match fuel with
  | O => None
  | S fuel' =>
      let '(block_start, poff, plen) :=
        iomap_adjust_read_range ino (to_iomap_page (pg s)) block_start
                                (s64 (block_end - block_start)) in
      if plen =? 0 then Some (0, s)
      else
        let '(status, s1) :=
          if ((poff <? from) && (from <? u32 (poff + plen)))
             || ((poff <? to) && (to <? u32 (poff + plen)))
          then iomap_read_page_sync submit_bio_wait ino block_start poff plen
                                    from to im s
          else (0, s) in
        if negb (status =? 0) then Some (status, s1)
        else
          let block_start := s64 (block_start + plen) in
          if block_start <? block_end
          then write_begin_loop fuel' submit_bio_wait ino im from to block_end
                                block_start s1
          else Some (0, s1)
  end.

Definition __iomap_write_begin (fuel : nat)
    (submit_bio_wait : Z -> Z -> Z -> Z) (ino : inode) (pos len : Z)
    (im : iomap) (s : pstate) : option (Z * pstate) :=
  let s := with_page s (iomap_page_create ino (pg s)) in
  let block_size := i_blocksize ino in
  let block_start := Z.land pos (Z.lnot (block_size - 1)) in
  let block_end :=
    Z.land (s64 (pos + len + block_size - 1)) (Z.lnot (block_size - 1)) in
  let from := u32 (offset_in_page pos) in
  let to := u32 (from + len) in
  if PageUptodate (pg s) then Some (0, s)
  else write_begin_loop fuel submit_bio_wait ino im from to block_end
                        block_start s.

(** ** The range applicator *)

(** Negative errno values used below. *)
Definition EIO : Z := 5.

(** Modelled from the spec: [iomap_apply] of [fs/iomap/apply.c], which is not
    among the sources.  Following section 4.1 of the design document:
    repeatedly ask the extent mapper for the extent covering [pos]; invoke the
    actor on [min(length, extentRemaining)] bytes of it; advance [pos] and
    [length] by the bytes the actor returns; stop when [length] reaches zero or
    the actor reports an error, and report the bytes already completed (the
    error when there are none).  An actor that returns zero is a fault and
    aborts the walk.  The mapper answers [inl error] or [inr extent]; [done]
    accumulates the bytes completed. *)
Fixpoint iomap_apply_from {St : Type} (fuel : nat)
    (mapBlocks : inode -> Z -> Z + iomap)
    (actor : inode -> Z -> Z -> iomap -> St -> option (Z * St))
    (ino : inode) (pos length done : Z) (st : St) : option (Z * St) :=
  match fuel with
  | O => None
  | S fuel' =>
      if length <=? 0 then Some (done, st)
      else
        match mapBlocks ino pos with
        | inl err => Some (if 0 <? done then done else err, st)
        | inr im =>
            let remaining := iomap_offset im + iomap_length im - pos in
            match actor ino pos (Z.min length remaining) im st with
            | None => None
            | Some (ret, st1) =>
                if ret <? 0 then Some (if 0 <? done then done else ret, st1)
                else if ret =? 0 then Some (if 0 <? done then done else - EIO, st1)
                else iomap_apply_from fuel' mapBlocks actor ino
                                      (pos + ret) (length - ret) (done + ret) st1
            end
        end
  end.

Definition iomap_apply {St : Type} (fuel : nat)
    (mapBlocks : inode -> Z -> Z + iomap)
    (actor : inode -> Z -> Z -> iomap -> St -> option (Z * St))
    (ino : inode) (pos length : Z) (st : St) : option (Z * St) :=
  iomap_apply_from fuel mapBlocks actor ino pos length 0 st.

(** ** Zeroing *)

Section Zeroing.
(** The page cache and the device behind the zeroing of a mapped extent. *)
Variable Store : Type.
(** [iomap_zero]: write_begin, zero the chunk in the page, write_end. *)
Variable iomap_zero : inode -> Z -> Z -> Z -> iomap -> Store -> Z * Store.
(** [iomap_dax_zero]: zeroing through [__dax_zero_page_range]. *)
Variable iomap_dax_zero : Z -> Z -> Z -> iomap -> Store -> Z * Store.

(** The store and the caller's [bool *did_zero] ([None] for a null pointer). *)
Record zstate : Type := mkZstate {
  store : Store;
  did_zero : option bool
}.

(** The [do { ... } while (count > 0)] loop of the actor. *)
Fixpoint zero_range_loop (fuel : nat) (ino : inode) (pos count written : Z)
    (im : iomap) (zs : zstate) : option (Z * zstate) :=
  match fuel with
  | O => None
  | S fuel' =>
      let offset := u32 (offset_in_page pos) in
      let bytes := u32 (Z.min (PAGE_SIZE - offset) count) in
      let '(status, st1) :=
        if IS_DAX ino then iomap_dax_zero pos offset bytes im (store zs)
        else iomap_zero ino pos offset bytes im (store zs) in
      if status <? 0 then Some (status, mkZstate st1 (did_zero zs))
      else
        let pos := s64 (pos + bytes) in
        let count := s64 (count - bytes) in
        let written := s64 (written + bytes) in
        let zs1 := mkZstate st1 (match did_zero zs with
                                 | Some _ => Some true
                                 | None => None
                                 end) in
        if 0 <? count then zero_range_loop fuel' ino pos count written im zs1
        else Some (written, zs1)
  end.

Definition iomap_zero_range_actor (fuel : nat) (ino : inode) (pos count : Z)
    (im : iomap) (zs : zstate) : option (Z * zstate) :=
  if iomap_type_eqb (iomap_type_of im) IOMAP_HOLE
     || iomap_type_eqb (iomap_type_of im) IOMAP_UNWRITTEN
  then Some (count, zs)
  else zero_range_loop fuel ino pos count 0 im zs.

(** The [while (len > 0)] loop of [iomap_zero_range]; [n] is the fuel handed
    to the applicator and to the actor. *)
Fixpoint zero_range_walk (n fuel : nat) (mapBlocks : inode -> Z -> Z + iomap)
    (ino : inode) (pos len : Z) (zs : zstate) : option (Z * zstate) :=
  match fuel with
  | O => None
  | S fuel' =>
      if 0 <? len then
        match iomap_apply n mapBlocks (iomap_zero_range_actor n) ino pos len zs with
        | None => None
        | Some (ret, zs1) =>
            if ret <=? 0 then Some (s32 ret, zs1)
            else zero_range_walk n fuel' mapBlocks ino (s64 (pos + ret))
                                 (s64 (len - ret)) zs1
        end
      else Some (0, zs)
  end.

Definition iomap_zero_range (fuel : nat) (mapBlocks : inode -> Z -> Z + iomap)
    (ino : inode) (pos len : Z) (zs : zstate) : option (Z * zstate) :=
  zero_range_walk fuel fuel mapBlocks ino pos len zs.

End Zeroing.

(** ** Reading one page *)

(** [struct iomap_readpage_ctx]; [cur_page] is the page of the state. *)
Record iomap_readpage_ctx : Type := mkRctx {
  cur_page_in_bio : bool;
  is_readahead : bool;
  ctx_bio : option bio
}.

Record rstate : Type := mkRstate {
  rctx : iomap_readpage_ctx;
  rps : pstate
}.

(** [page_offset(page)] is [(loff_t)page->index << PAGE_SHIFT]. *)
Definition page_offset (p : page) : Z := s64 (Z.shiftl (index p) PAGE_SHIFT).

Section Readpage.
(** The call [iomap_apply(inode, pos, length, 0, ops, &ctx,
    iomap_readpage_actor)], whose applicator and bio handling live outside
    this file: from position, length and state to the bytes processed (or a
    negative errno) and the new state. *)
Variable apply_readpage_actor : Z -> Z -> rstate -> Z * rstate.

(** [for (poff = 0; poff < PAGE_SIZE; poff += ret)] *)
Fixpoint readpage_loop (fuel : nat) (poff : Z) (st : rstate) : option rstate :=
  match fuel with
  | O => None
  | S fuel' =>
      if poff <? PAGE_SIZE then
        let '(ret, st1) :=
          apply_readpage_actor (s64 (page_offset (pg (rps st)) + poff))
                               (PAGE_SIZE - poff) st in
        if ret <=? 0
        then Some (mkRstate (rctx st1)
                            (with_page (rps st1) (SetPageError (pg (rps st1)))))
        else readpage_loop fuel' (u32 (poff + ret)) st1
      else Some st
  end.

(** Whether the loop above is left through its [break], that is whether some
    call of the applicator returned a value [<= 0]. *)
Fixpoint readpage_fails (fuel : nat) (poff : Z) (st : rstate) : bool :=
  match fuel with
  | O => false
  | S fuel' =>
      if poff <? PAGE_SIZE then
        let '(ret, st1) :=
          apply_readpage_actor (s64 (page_offset (pg (rps st)) + poff))
                               (PAGE_SIZE - poff) st in
        if ret <=? 0 then true
        else readpage_fails fuel' (u32 (poff + ret)) st1
      else false
  end.

Definition iomap_readpage (fuel : nat) (s : pstate) : option (Z * pstate) :=
  let ctx := mkRctx false false None in
  match readpage_loop fuel 0 (mkRstate ctx s) with
  | None => None
  | Some st =>
      match ctx_bio (rctx st) with
      | Some b => Some (0, emit (EvSubmitBio b) (rps st))
      | None => Some (0, unlock_page (rps st))
      end
  end.

End Readpage.

(** ** Ioends *)

(** [struct iomap_ioend]; [io_list] is kept by the lists that hold the ioend,
    [io_private] is [0] for a null pointer, [io_bio] is the bio being built.
    [io_chain] holds the bios that [iomap_chain_bio] has chained in front of
    [io_bio], from [io_inline_bio] on; in the kernel they are reached from
    [io_inline_bio] through their [bi_private] links. *)
Record iomap_ioend : Type := mkIoend {
  io_type : iomap_type;
  io_flags : Z;
  io_size : Z;
  io_offset : Z;
  io_private : Z;
  io_bio : bio;
  io_chain : list bio
}.

Definition iomap_ioend_can_merge (ioend next : iomap_ioend) : bool :=
  if negb (bi_status (io_bio ioend) =? bi_status (io_bio next)) then false
  else if negb (Z.lxor (Z.land (io_flags ioend) IOMAP_F_SHARED)
                       (Z.land (io_flags next) IOMAP_F_SHARED) =? 0) then false
  else if xorb (iomap_type_eqb (io_type ioend) IOMAP_UNWRITTEN)
               (iomap_type_eqb (io_type next) IOMAP_UNWRITTEN) then false
  else if negb (u64 (io_offset ioend + io_size ioend) =? u64 (io_offset next))
       then false
  else true.

Definition set_io_size (e : iomap_ioend) (sz : Z) : iomap_ioend :=
  mkIoend (io_type e) (io_flags e) sz (io_offset e) (io_private e) (io_bio e)
          (io_chain e).
Definition set_io_private (e : iomap_ioend) (pr : Z) : iomap_ioend :=
  mkIoend (io_type e) (io_flags e) (io_size e) (io_offset e) pr (io_bio e)
          (io_chain e).
Definition set_io_bio (e : iomap_ioend) (b : bio) : iomap_ioend :=
  mkIoend (io_type e) (io_flags e) (io_size e) (io_offset e) (io_private e) b
          (io_chain e).
Definition set_io_chain (e : iomap_ioend) (c : list bio) : iomap_ioend :=
  mkIoend (io_type e) (io_flags e) (io_size e) (io_offset e) (io_private e)
          (io_bio e) c.

(** [iomap_ioend_try_merge]: returns the grown ioend, the successors moved to
    its [io_list] and what is left of [more_ioends].  The hook
    [merge_private], when given, reconciles the [io_private] of the two
    ioends and returns the new pair. *)
Fixpoint iomap_ioend_try_merge (ioend : iomap_ioend)
    (more_ioends : list iomap_ioend)
    (merge_private : option (Z -> Z -> Z * Z))
  : iomap_ioend * list iomap_ioend * list iomap_ioend :=
  match more_ioends with
  | [] => (ioend, [], [])
  | next :: rest =>
      if negb (iomap_ioend_can_merge ioend next) then (ioend, [], more_ioends)
      else
        let ioend1 := set_io_size ioend (u64 (io_size ioend + io_size next)) in
        let '(ioend2, next1) :=
          match merge_private with
          | Some hook =>
              if negb (io_private next =? 0) then
                let '(a, b) := hook (io_private ioend1) (io_private next) in
                (set_io_private ioend1 a, set_io_private next b)
              else (ioend1, next)
          | None => (ioend1, next)
          end in
        let '(ioend3, merged, remaining) :=
          iomap_ioend_try_merge ioend2 rest merge_private in
        (ioend3, next1 :: merged, remaining)
  end.

(** ** Writeback of one page *)

(** The block layer, as far as [iomap_add_to_ioend] and [iomap_submit_ioend]
    use it. *)
Class BlockLayer : Type := {
  (* __bio_try_merge_page(bio, page, len, off, &same_page):
     [Some (bio', same_page)] when the segment was merged *)
  __bio_try_merge_page : bio -> Z -> Z -> Z -> option (bio * bool);
  (* bio_full(bio, len) *)
  bio_full : bio -> Z -> bool;
  (* bio_add_page(bio, page, len, off) *)
  bio_add_page : bio -> Z -> Z -> Z -> bio;
  (* bio_remaining_done(bio), as bio_endio asks it of a bio that other bios
     were chained to with bio_chain: whether all of them have ended *)
  bio_remaining_done : bio -> bool
}.

(** [bio_end_sector(bio)] *)
Definition bio_end_sector (b : bio) : Z := bi_sector b + Z.shiftr (bi_size b) 9.

(** [struct iomap_writeback_ops] *)
Record iomap_writeback_ops : Type := mkWbOps {
  (* map_blocks(wpc, inode, offset): the error and the new wpc->iomap *)
  map_blocks : iomap -> inode -> Z -> Z * iomap;
  (* submit_ioend(ioend, status), optional *)
  submit_ioend : option (iomap_ioend -> Z -> Z);
  (* discard_page(page), optional *)
  discard_page : bool
}.

(** [struct iomap_writepage_ctx] *)
Record iomap_writepage_ctx : Type := mkWpc {
  wpc_iomap : iomap;
  wpc_ioend : option iomap_ioend
}.

(** What the scan of one page works on: the page and its log, the writepage
    context, the local [submit_list], [error] and [count]. *)
Record wstate : Type := mkWstate {
  w_ps : pstate;
  w_wpc : iomap_writepage_ctx;
  w_submit_list : list iomap_ioend;
  w_error : Z;
  w_count : Z
}.

(** [mapping_set_error(mapping, error)] records a non-zero error. *)
Definition mapping_set_error (error : Z) (s : pstate) : pstate :=
  if error =? 0 then s else emit (EvMappingSetError error) s.

(** [end_page_writeback(page)] *)
Definition end_page_writeback (s : pstate) : pstate :=
  emit EvEndPageWriteback (with_page s (ClearPageWriteback (pg s))).

(** [iomap_finish_page_writeback] for one segment of the page; the two
    [WARN_ON_ONCE] only report. *)
Definition iomap_finish_page_writeback (error : Z) (s : pstate) : pstate :=
  let s1 :=
    if negb (error =? 0)
    then mapping_set_error (- EIO) (with_page s (SetPageError (pg s)))
    else s in
  match to_iomap_page (pg s1) with
  | None => end_page_writeback s1
  | Some iop =>
      let '(c, zero) := atomic_dec_and_test (write_count iop) in
      let s2 :=
        with_page s1 (set_iomap_page (pg s1) (Some (set_write_count iop c))) in
      if zero then end_page_writeback s2 else s2
  end.

(** The body of [bio_for_each_segment_all] in [iomap_finish_ioend], for one
    segment: a segment on the page of the state finishes a part of the
    writeback of that page; a segment on another page of the inode does so
    for that page, which is logged. *)
Definition finish_segment (error : Z) (s : pstate) (bv_page : Z) : pstate :=
  if bv_page =? index (pg s) then iomap_finish_page_writeback error s
  else emit (EvFinishPageWriteback bv_page (negb (error =? 0))) s.

(** [iomap_finish_ioend]: the walk over the bios of the ioend, from
    [io_inline_bio] to [io_bio], and in each bio over its segments.
    [bio_put] and the rate-limited [printk] leave nothing behind here. *)
Definition iomap_finish_ioend (ioend : iomap_ioend) (error : Z) (s : pstate)
  : pstate :=
  fold_left (fun s b => fold_left (finish_segment error) (bi_io_vec b) s)
            (io_chain ioend ++ [io_bio ioend]) s.

Section Writeback.
Context {blk : BlockLayer}.
Variable ops : iomap_writeback_ops.

Definition iomap_alloc_ioend (wpc : iomap_writepage_ctx) (offset sector : Z)
  : iomap_ioend :=
  mkIoend (iomap_type_of (wpc_iomap wpc)) (iomap_flags (wpc_iomap wpc)) 0
          offset 0 (mkBio sector 0 0 0 []) [].

(** [iomap_chain_bio]: the previous bio is submitted, the new one starts
    where it ends.  [bio_chain(prev, new)] links the two; the link is kept in
    [io_chain] of the ioend by the caller below. *)
Definition iomap_chain_bio (prev : bio) (s : pstate) : bio * pstate :=
  (mkBio (bio_end_sector prev) 0 0 0 [], emit (EvSubmitBio prev) s).

Definition iomap_add_to_ioend (ino : inode) (offset : Z) (st : wstate)
  : wstate :=
  let wpc := w_wpc st in
  let sector := iomap_sector (wpc_iomap wpc) offset in
  let len := i_blocksize ino in
  let poff := Z.land offset (PAGE_SIZE - 1) in
  let start_new :=
    match wpc_ioend wpc with
    | None => true
    | Some ioend =>
        negb (Z.land (iomap_flags (wpc_iomap wpc)) IOMAP_F_SHARED
              =? Z.land (io_flags ioend) IOMAP_F_SHARED)
        || negb (iomap_type_eqb (iomap_type_of (wpc_iomap wpc)) (io_type ioend))
        || negb (sector =? bio_end_sector (io_bio ioend))
        || negb (u64 offset =? u64 (io_offset ioend + io_size ioend))
    end in
  let '(ioend, iolist) :=
    match wpc_ioend wpc with
    | None => (iomap_alloc_ioend wpc offset sector, w_submit_list st)
    | Some ioend =>
        if start_new
        then (iomap_alloc_ioend wpc offset sector, ioend :: w_submit_list st)
        else (ioend, w_submit_list st)
    end in
  let p := pg (w_ps st) in
  let merged := __bio_try_merge_page (io_bio ioend) (index p) len poff in
  let same_page := match merged with Some (_, sp) => sp | None => false end in
  let p1 :=
    match to_iomap_page p with
    | Some iop =>
        if negb same_page
        then set_iomap_page p
               (Some (set_write_count iop (atomic_inc (write_count iop))))
        else p
    | None => p
    end in
  let s1 := with_page (w_ps st) p1 in
  let '(b, chain, s2) :=
    match merged with
    | Some (b, _) => (b, io_chain ioend, s1)
    | None =>
        let '(b, chain, s2) :=
          if bio_full (io_bio ioend) len
          then let '(b, s2) := iomap_chain_bio (io_bio ioend) s1 in
               (b, io_chain ioend ++ [io_bio ioend], s2)
          else (io_bio ioend, io_chain ioend, s1) in
        (bio_add_page b (index p) len poff, chain, s2)
    end in
  let ioend1 :=
    set_io_size (set_io_chain (set_io_bio ioend b) chain)
                (u64 (io_size ioend + len)) in
  mkWstate s2 (mkWpc (wpc_iomap wpc) (Some ioend1)) iolist
           (w_error st) (w_count st).

(** [iomap_writepage_end_bio], the completion that [iomap_submit_ioend]
    installs in [bi_end_io]: [iomap_finish_ioend] with the error of the bio.
    [errno_to_blk_status] and [blk_status_to_errno] of the block layer keep a
    non-zero error non-zero, and the completion only tests the error against
    zero: the error is handed through as it is. *)
Definition iomap_writepage_end_bio (ioend : iomap_ioend) (error : Z)
    (s : pstate) : pstate :=
  iomap_finish_ioend ioend error s.

(** Whether the completion of an ioend runs at once when its last bio is
    ended.  The block layer runs the completion of a bio when the bio and
    every bio chained to it have ended.  An ioend of one bio has nothing
    chained to it: its completion runs at once, which is the case the comment
    in [iomap_submit_ioend] speaks of ("This will run IO completion
    immediately as there is only one reference to the ioend at this point in
    time").  When [iomap_chain_bio] has chained bios to the last one, each of
    them holds a reference until it has ended ("each bio will take an IO
    reference to the ioend to ensure that the ioend completion is only done
    once all bios have been submitted and the ioend is really done"): the
    completion runs at once if they have all ended. *)
Definition completes_at_once (ioend : iomap_ioend) : bool :=
  match io_chain ioend with
  | [] => true
  | _ :: _ => bio_remaining_done (io_bio ioend)
  end.

(** [bio_endio] on the last bio of an ioend whose completion is
    [iomap_writepage_end_bio].  A completion that does not run at once runs
    later, from the completion of the last chained bio, which is no longer
    part of this call. *)
Definition bio_endio (ioend : iomap_ioend) (error : Z) (s : pstate) : pstate :=
  let s1 := emit (EvBioEndio (io_bio ioend) error) s in
  if completes_at_once ioend then iomap_writepage_end_bio ioend error s1
  else s1.

(** [iomap_submit_ioend]: the error returned, the page and the log.  The
    hook gets the ioend and the error; of what it does, the model keeps the
    error it returns, and takes the completion in [bi_end_io] to be the one
    set just before it. *)
Definition iomap_submit_ioend (ioend : iomap_ioend) (error : Z) (s : pstate)
  : Z * pstate :=
  let error :=
    match submit_ioend ops with
    | Some hook => hook ioend error
    | None => error
    end in
  if negb (error =? 0)
  then (error, bio_endio ioend error s)
  else (0, emit (EvSubmitBio (io_bio ioend)) s).

(** The scan [for (i = 0, file_offset = page_offset(page);
    i < (PAGE_SIZE >> inode->i_blkbits) && file_offset < end_offset;
    i++, file_offset += len)], run for the [n] iterations that remain. *)
Fixpoint writepage_map_scan (n : nat) (ino : inode) (end_offset : Z)
    (i file_offset : Z) (st : wstate) : wstate :=
  match n with
  | O => st
  | S n' =>
      if negb (file_offset <? end_offset) then st
      else
        let next := writepage_map_scan n' ino end_offset (i + 1)
                      (u64 (file_offset + i_blocksize ino)) in
        let skip :=
          match to_iomap_page (pg (w_ps st)) with
          | Some iop => negb (test_bit i (uptodate iop))
          | None => false
          end in
        if skip then next st
        else
          let '(error, im) :=
            map_blocks ops (wpc_iomap (w_wpc st)) ino file_offset in
          let st1 := mkWstate (w_ps st) (mkWpc im (wpc_ioend (w_wpc st)))
                              (w_submit_list st) error (w_count st) in
          if negb (error =? 0) then st1
          else if iomap_type_eqb (iomap_type_of im) IOMAP_INLINE then next st1
          else if iomap_type_eqb (iomap_type_of im) IOMAP_HOLE then next st1
          else
            let st2 := iomap_add_to_ioend ino file_offset st1 in
            next (mkWstate (w_ps st2) (w_wpc st2) (w_submit_list st2)
                           (w_error st2) (s32 (w_count st2 + 1)))
  end.

(** [list_for_each_entry_safe(ioend, next, &submit_list, io_list)] *)
Fixpoint submit_all (l : list iomap_ioend) (error : Z) (s : pstate)
  : Z * pstate :=
  match l with
  | [] => (error, s)
  | ioend :: l' =>
      let '(error2, s1) := iomap_submit_ioend ioend error s in
      submit_all l' (if negb (error2 =? 0) && (error =? 0) then error2 else error)
                 s1
  end.

(** [iomap_writepage_map]: the error returned, the page with its log, and the
    writepage context left for the caller. *)
Definition iomap_writepage_map (wpc : iomap_writepage_ctx) (ino : inode)
    (end_offset : Z) (s : pstate) : Z * pstate * iomap_writepage_ctx :=
  let st :=
    writepage_map_scan (Z.to_nat (Z.shiftr PAGE_SIZE (i_blkbits ino))) ino
                       end_offset 0 (u64 (page_offset (pg s)))
                       (mkWstate s wpc [] 0 0) in
  let error := w_error st in
  let count := w_count st in
  let s := w_ps st in
  if negb (error =? 0) && (count =? 0) then
    let s := if discard_page ops then emit EvDiscardPage s else s in
    let s := with_page s (ClearPageUptodate (pg s)) in
    let s := unlock_page s in
    (error, mapping_set_error error s, w_wpc st)
  else
    let s :=
      if negb (error =? 0)
      then with_page s (SetPageWriteback (pg s))   (* set_page_writeback_keepwrite *)
      else with_page s (SetPageWriteback (ClearPageDirty (pg s))) in
    let s := unlock_page s in
    let '(error, s) := submit_all (w_submit_list st) error s in
    let s := if count =? 0 then end_page_writeback s else s in
    (error, mapping_set_error error s, w_wpc st).

End Writeback.

(** ** Observations on the log *)

Definition is_unlock (e : event) : bool :=
  match e with EvUnlockPage => true | _ => false end.

(** Number of [unlock_page] calls in a log. *)
Definition unlocks (t : list event) : nat :=
  length (filter is_unlock t).

(** ** Byte ranges of ioends *)

(** An ioend as the block layer can receive it: a byte range inside the
    non-negative half of [loff_t]. *)
Definition ioend_wf (e : iomap_ioend) : Prop :=
  0 <= io_offset e /\ 0 <= io_size e /\ io_offset e + io_size e < 2 ^ 63.

(** File byte [p] is written by ioend [e]. *)
Definition ioend_covers (e : iomap_ioend) (p : Z) : Prop :=
  io_offset e <= p < io_offset e + io_size e.

Definition ioend_range (e : iomap_ioend) : Z * Z := (io_offset e, io_size e).

Definition total_size (l : list iomap_ioend) : Z :=
  fold_right (fun e acc => io_size e + acc) 0 l.

(** An extent that reads as zeroes without I/O. *)
Definition logically_zero (im : iomap) : Prop :=
  iomap_type_of im = IOMAP_HOLE \/ iomap_type_of im = IOMAP_UNWRITTEN.

(** What [iomap_submit_ioend] does with one ioend when it is handed the
    status [error]: the event it logs. *)
Definition submit_event (ops : iomap_writeback_ops) (error : Z)
    (ioend : iomap_ioend) : event :=
  let e := match submit_ioend ops with
           | Some hook => hook ioend error
           | None => error
           end in
  if e =? 0 then EvSubmitBio (io_bio ioend) else EvBioEndio (io_bio ioend) e.

(** Every synchronous read logged in [evs] was successful. *)
Definition reads_succeeded (submit_bio_wait : Z -> Z -> Z -> Z)
    (evs : list event) : Prop :=
  forall sector poff plen,
    In (EvSubmitBioWait sector poff plen) evs ->
    submit_bio_wait sector poff plen = 0.

(** What the status of a sequence of preparations is: 0 when every read
    succeeded, and otherwise the status of a failed read, which is the last
    thing that was done. *)
Definition status_of_reads (submit_bio_wait : Z -> Z -> Z -> Z)
    (evs : list event) (status : Z) : Prop :=
  (status = 0 -> reads_succeeded submit_bio_wait evs) /\
  (status <> 0 ->
   exists evs0 sector poff plen,
     evs = evs0 ++ [EvSubmitBioWait sector poff plen] /\
     reads_succeeded submit_bio_wait evs0 /\
     status = submit_bio_wait sector poff plen).

(** The calls into the block layer that send a bio on its way or end it. *)
Definition is_bio_event (e : event) : bool :=
  match e with
  | EvSubmitBio _ | EvBioEndio _ _ => true
  | _ => false
  end.

(** What a write completion can log: the error on the mapping, the end of
    the writeback of the page, and the completion of a segment of another
    page. *)
Definition is_completion_event (e : event) : bool :=
  match e with
  | EvMappingSetError _ | EvEndPageWriteback | EvFinishPageWriteback _ _ =>
      true
  | _ => false
  end.

(** The pages of the segments of an ioend, in the order in which
    [iomap_finish_ioend] walks them, and the number of those segments that
    lie on page [idx]. *)
Definition ioend_segments (e : iomap_ioend) : list Z :=
  concat (map bi_io_vec (io_chain e ++ [io_bio e])).

(** What a run of write completions does to the page and its log, whatever
    the page state: it logs completion events only, leaves the index and the
    Locked, Dirty and Uptodate flags alone, never clears the Error flag, and
    clears Writeback only together with an [end_page_writeback]. *)
Definition completed (s : pstate) (evs : list event) (s' : pstate) : Prop :=
  trace s' = trace s ++ evs /\
  Forall (fun e => is_completion_event e = true) evs /\
  index (pg s') = index (pg s) /\
  PageLocked (pg s') = PageLocked (pg s) /\
  PageDirty (pg s') = PageDirty (pg s) /\
  PageUptodate (pg s') = PageUptodate (pg s) /\
  (PageError (pg s) = true -> PageError (pg s') = true) /\
  (PageWriteback (pg s') = PageWriteback (pg s) \/ In EvEndPageWriteback evs).

(** The scan of [iomap_writepage_map] over the blocks of the page. *)
Definition writepage_scan {blk : BlockLayer} (ops : iomap_writeback_ops)
    (wpc : iomap_writepage_ctx) (ino : inode) (end_offset : Z) (s : pstate)
  : wstate :=
  writepage_map_scan ops (Z.to_nat (Z.shiftr PAGE_SIZE (i_blkbits ino))) ino
                     end_offset 0 (u64 (page_offset (pg s)))
                     (mkWstate s wpc [] 0 0).

(** The uptodate bitmap behind a page-state pointer; a page without page
    state has no block marked. *)
Definition bitmap_of (iop : option iomap_page) : Z :=
  match iop with
  | Some iop => uptodate iop
  | None => 0
  end.

(** Event [e] is the preparation, by [iomap_read_page_sync], of the byte run
    [lo, hi) of the page that starts at file position [base], for a write
    window [from, to).  What is done is decided by the extent and by the file
    position of the first block of the run: when
    [iomap_block_needs_zeroing] holds there (the extent is not Mapped, or it
    is flagged New, or the block starts at or beyond the end of the file) the
    parts of the run outside the window are zero-filled; otherwise the whole
    run is read, in one synchronous read, from the device sector that the
    extent gives for that position. *)
Definition prepares (ino : inode) (im : iomap) (base : Z) (e : event)
    (from to lo hi : Z) : Prop :=
  if iomap_block_needs_zeroing ino im (base + lo)
  then e = EvZeroUserSegments lo from to hi
  else e = EvSubmitBioWait (iomap_sector im (base + lo)) lo (hi - lo).

(** ** Page state: query and release *)

(** The loop [for (i = first; i <= last; i++) if (!test_bit(i, ...)) return 0;]
    of [iomap_is_partially_uptodate], run for the [n] iterations that remain:
    whether it falls through to [return 1]. *)
Fixpoint all_blocks_uptodate (n : nat) (bm i : Z) : bool :=
  match n with
  | O => true
  | S n' =>
      if negb (test_bit i bm) then false
      else all_blocks_uptodate n' bm (u32 (i + 1))
  end.

(** [from] and [count] are [unsigned long]; [len], [first] and [last] are
    [unsigned]. *)
Definition iomap_is_partially_uptodate (ino : inode) (p : page)
    (from count : Z) : Z :=
  let len := Z.min (u32 (PAGE_SIZE - from)) (u32 count) in
  let first := u32 (Z.shiftr from (i_blkbits ino)) in
  let last := u32 (Z.shiftr (u64 (from + len - 1)) (i_blkbits ino)) in
  match to_iomap_page p with
  | Some iop =>
      if all_blocks_uptodate (Z.to_nat (last + 1 - first)) (uptodate iop) first
      then 1 else 0
  | None => 0
  end.

(** [iomap_page_release]: the page state is detached and freed.  The two
    [WARN_ON_ONCE] on the counters only report. *)
Definition iomap_page_release (p : page) : page :=
  match to_iomap_page p with
  | None => p
  | Some _ => set_iomap_page p None
  end.

Definition iomap_releasepage (p : page) : Z * page :=
  if PageDirty p || PageWriteback p then (0, p)
  else (1, iomap_page_release p).

(** [cancel_dirty_page] clears the dirty bit (and its accounting). *)
Definition iomap_invalidatepage (p : page) (offset len : Z) : page :=
  if (offset =? 0) && (len =? PAGE_SIZE)
  then iomap_page_release (ClearPageDirty p)
  else p.

(** ** The read actor *)

(** [iomap_read_inline_data]; [inline_data] is the address held in
    [iomap->inline_data], a field that [iomap] above does not carry.  The two
    [BUG_ON] stop the kernel: the result is [None].  The copy into the page
    changes no page flag. *)
Definition iomap_read_inline_data (inline_data : Z) (ino : inode) (p : page)
  : option page :=
  let size := u64 (i_size ino) in
  if PageUptodate p then Some p
  else if negb (index p =? 0) then None
  else if PAGE_SIZE - offset_in_page inline_data <? size then None
  else Some (SetPageUptodate p).

Section ReadActor.
Context {blk : BlockLayer}.

(** [iomap_readpage_actor]; [zero_user(page, poff, plen)] is
    [zero_user_segments(page, poff, poff + plen, 0, 0)], and [bio_alloc]
    returns an empty bio that the actor starts at [sector]. *)
Definition iomap_readpage_actor (inline_data : Z) (ino : inode)
    (pos length : Z) (im : iomap) (st : rstate) : option (Z * rstate) :=
  let ctx := rctx st in
  let s := with_page (rps st) (iomap_page_create ino (pg (rps st))) in
  let iop := to_iomap_page (pg s) in
  let orig_pos := pos in
  if iomap_type_eqb (iomap_type_of im) IOMAP_INLINE then
    match iomap_read_inline_data inline_data ino (pg s) with
    | None => None
    | Some p' => Some (PAGE_SIZE, mkRstate ctx (with_page s p'))
    end
  else
    let '(pos, poff, plen) := iomap_adjust_read_range ino iop pos length in
    let ret := s64 (s64 (pos - orig_pos) + plen) in
    if plen =? 0 then Some (ret, mkRstate ctx s)
    else if iomap_block_needs_zeroing ino im pos then
      let s1 := emit (EvZeroUserSegments poff (u32 (poff + plen)) 0 0) s in
      Some (ret,
            mkRstate ctx
              (with_page s1 (iomap_set_range_uptodate ino (pg s1) poff plen)))
    else
      let sector := iomap_sector im pos in
      let is_contig :=
        match ctx_bio ctx with
        | Some b => bio_end_sector b =? sector
        | None => false
        end in
      let merged :=
        match ctx_bio ctx with
        | Some b =>
            if is_contig then __bio_try_merge_page b (index (pg s)) plen poff
            else None
        | None => None
        end in
      let inc_read_count (p : page) : page :=
        match to_iomap_page p with
        | Some iop =>
            set_iomap_page p
              (Some (set_read_count iop (atomic_inc (read_count iop))))
        | None => p
        end in
      match merged with
      | Some (b, same_page) =>
          let p1 := if negb same_page then inc_read_count (pg s) else pg s in
          Some (ret,
                mkRstate (mkRctx true (is_readahead ctx) (Some b))
                         (with_page s p1))
      | None =>
          let s1 := with_page s (inc_read_count (pg s)) in
          let '(b, s2) :=
            match ctx_bio ctx with
            | Some b =>
                if negb is_contig || bio_full b plen
                then (mkBio sector 0 0 0 [], emit (EvSubmitBio b) s1)
                else (b, s1)
            | None => (mkBio sector 0 0 0 [], s1)
            end in
          Some (ret,
                mkRstate (mkRctx true (is_readahead ctx)
                            (Some (bio_add_page b (index (pg s)) plen poff)))
                         s2)
      end.

End ReadActor.

(** ** Writeback completion *)

(** The completions of the write segments of one page, each with the error
    of the ioend it belongs to, in the order in which their atomic decrements
    take effect. *)
Fixpoint write_completions (l : list Z) (s : pstate) : pstate :=
  match l with
  | [] => s
  | error :: l' => write_completions l' (iomap_finish_page_writeback error s)
  end.

Definition is_end_writeback (e : event) : bool :=
  match e with EvEndPageWriteback => true | _ => false end.

(** Number of [end_page_writeback] calls in a log. *)
Definition writeback_ends (t : list event) : nat :=
  length (filter is_end_writeback t).

(** ** Writing one page *)

Section WritePage.
Context {blk : BlockLayer}.
Variable ops : iomap_writeback_ops.

(** [iomap_do_writepage]; [memalloc] stands for
    [(current->flags & (PF_MEMALLOC|PF_KSWAPD)) == PF_MEMALLOC] and [nofs] for
    [current->flags & PF_MEMALLOC_NOFS].  [redirty_page_for_writepage] sets
    the dirty bit again, and [zero_user_segment(page, start, end)] is
    [zero_user_segments(page, start, end, 0, 0)]. *)
Definition iomap_do_writepage (memalloc nofs : bool)
    (wpc : iomap_writepage_ctx) (ino : inode) (s : pstate)
  : Z * pstate * iomap_writepage_ctx :=
  let redirty := (0, unlock_page (with_page s (SetPageDirty (pg s))), wpc) in
  if memalloc then redirty
  else if nofs then redirty
  else
    let offset := i_size ino in
    let end_index := u64 (Z.shiftr offset PAGE_SHIFT) in
    if index (pg s) <? end_index then
      iomap_writepage_map ops wpc ino
        (u64 (s64 (Z.shiftl (s64 (index (pg s) + 1)) PAGE_SHIFT))) s
    else
      let offset_into_page := u32 (Z.land offset (PAGE_SIZE - 1)) in
      if (end_index <? index (pg s))
         || ((index (pg s) =? end_index) && (offset_into_page =? 0))
      then redirty
      else
        iomap_writepage_map ops wpc ino (u64 offset)
          (emit (EvZeroUserSegments offset_into_page PAGE_SIZE 0 0) s).

(** [iomap_writepage]: the ioend left open by the page is submitted with
    the result of the page. *)
Definition iomap_writepage (memalloc nofs : bool) (wpc : iomap_writepage_ctx)
    (ino : inode) (s : pstate) : Z * pstate * iomap_writepage_ctx :=
  let '(ret, s1, wpc1) := iomap_do_writepage memalloc nofs wpc ino s in
  match wpc_ioend wpc1 with
  | None => (ret, s1, wpc1)
  | Some ioend =>
      let '(ret2, s2) := iomap_submit_ioend ops ioend ret s1 in
      (ret2, s2, wpc1)
  end.

End WritePage.


(** ** The write path around one page *)

(** Modelled from the spec: constants of kernel headers that are not among
    the sources.  [IOMAP_F_BUFFER_HEAD] is one more flag bit of
    [include/linux/iomap.h]; [EINTR] is the errno behind the "interrupted"
    condition of the design document, and [ENOMEM] the errno of a failed
    allocation.  The values are those of the kernel headers; the properties
    below rely only on the errno values being non-zero. *)
Definition IOMAP_F_BUFFER_HEAD : Z := 16.
Definition EINTR : Z := 4.
Definition ENOMEM : Z := 12.

(** The calls of the write path that leave this file, in the order made.
    [unlock_page] and the dirtying of the page are recorded in the log of the
    page itself. *)
Inductive wr_event : Type :=
| WrPagecacheIsizeExtended (from to : Z)
| WrPageDone (pos copied : Z) (has_page : bool)
| WrPutPage
| WrTruncatePagecacheRange (lstart lend : Z)
| WrMarkInodeDirty.

Definition set_i_size (ino : inode) (size : Z) : inode :=
  mkInode size (i_blkbits ino) (IS_DAX ino).
Definition set_iomap_flags (im : iomap) (flags : Z) : iomap :=
  mkIomap (iomap_addr im) (iomap_offset im) (iomap_length im)
          (iomap_type_of im) flags.

(** [iomap_write_failed]: [len] is [unsigned], the sum is a [loff_t]. *)
Definition iomap_write_failed (ino : inode) (pos len : Z) : list wr_event :=
  let isize := i_size ino in
  if isize <? s64 (pos + len)
  then [WrTruncatePagecacheRange (Z.max pos isize) (s64 (pos + len))]
  else [].

(** [iomap_write_end_inline]; [inline_data] is the address held in
    [iomap->inline_data].  The [BUG_ON] stops the kernel: the result is
    [None].  The copy out of the page changes no page flag. *)
Definition iomap_write_end_inline (inline_data : Z) (pos copied : Z)
  : option (Z * list wr_event) :=
  if u64 (PAGE_SIZE - offset_in_page inline_data) <? u64 (pos + copied)
  then None
  else Some (s32 copied, [WrMarkInodeDirty]).

(** [iomap_write_end].  [block_write_end] belongs to the buffer-head code;
    [page_done] tells whether the extent carries a [page_done] hook.  The
    result is the return value, the page, the inode with its new size, the
    extent with its new flags and the calls made. *)
Definition iomap_write_end (inline_data : Z) (page_done : bool)
    (block_write_end : Z -> Z -> Z -> pstate -> Z * pstate)
    (ino : inode) (pos len copied : Z) (im : iomap) (s : pstate)
  : option (Z * pstate * inode * iomap * list wr_event) :=
  let old_size := i_size ino in
  let written :=
    if iomap_type_eqb (iomap_type_of im) IOMAP_INLINE then
      match iomap_write_end_inline inline_data pos copied with
      | None => None
      | Some (ret, log) => Some (ret, s, log)
      end
    else if negb (Z.land (iomap_flags im) IOMAP_F_BUFFER_HEAD =? 0) then
      let '(ret, s1) := block_write_end pos len copied s in Some (ret, s1, [])
    else
      let '(ret, s1) := __iomap_write_end ino pos len copied s in
      Some (ret, s1, []) in
  match written with
  | None => None
  | Some (ret, s1, log1) =>
      let grew := old_size <? s64 (pos + ret) in
      let ino1 := if grew then set_i_size ino (s64 (pos + ret)) else ino in
      let im1 :=
        if grew
        then set_iomap_flags im (Z.lor (iomap_flags im) IOMAP_F_SIZE_CHANGED)
        else im in
      let s2 := unlock_page s1 in
      let log2 :=
        if old_size <? pos then [WrPagecacheIsizeExtended old_size pos]
        else [] in
      let log3 := if page_done then [WrPageDone pos ret true] else [] in
      let log4 :=
        if u32 ret <? len then iomap_write_failed ino1 pos len else [] in
      Some (ret, s2, ino1, im1, log1 ++ log2 ++ log3 ++ [WrPutPage] ++ log4)
  end.

(** What [iomap_write_begin] leaves behind: its return value, the locked
    page stored through [pagep], the page it grabbed and let go of again, and
    the calls made. *)
Record write_begin_result : Type := mkWbr {
  wb_status : Z;
  wb_pagep : option pstate;
  wb_released : option pstate;
  wb_log : list wr_event
}.

(** What [iomap_write_begin] gives: its result, the [BUG_ON] that stops the
    kernel, or nothing yet because the fuel of the model ran out. *)
Inductive write_begin_outcome : Type :=
| WbDone (r : write_begin_result)
| WbBug
| WbOutOfFuel.

(** [iomap_write_begin].  From outside come: whether a fatal signal is
    pending, the status of the [page_prepare] hook ([None] without a hook),
    whether there is a [page_done] hook, the locked page that
    [grab_cache_page_write_begin] finds ([None] for a null pointer) and
    [__block_write_begin_int] of the buffer-head code.  In the first
    [BUG_ON], [pos + len] is a [loff_t] and [iomap->offset + iomap->length]
    a [u64], so the two are compared as unsigned 64-bit numbers.  The
    [BUG_ON] of [iomap_read_inline_data] stop the kernel too.  The fuel is
    that of the loop of [__iomap_write_begin]. *)
Definition iomap_write_begin (fuel : nat)
    (submit_bio_wait : Z -> Z -> Z -> Z) (inline_data : Z)
    (fatal_signal_pending : bool) (page_prepare : option Z) (page_done : bool)
    (grab_cache_page_write_begin : option pstate)
    (__block_write_begin_int : Z -> Z -> pstate -> Z * pstate)
    (ino : inode) (pos len : Z) (im : iomap) : write_begin_outcome :=
  let done_log := if page_done then [WrPageDone pos 0 false] else [] in
  if u64 (iomap_offset im + iomap_length im) <? u64 (pos + len) then WbBug
  else if fatal_signal_pending then WbDone (mkWbr (- EINTR) None None [])
  else
    let status := match page_prepare with Some st => st | None => 0 end in
    if negb (status =? 0) then WbDone (mkWbr status None None [])
    else
      match grab_cache_page_write_begin with
      | None => WbDone (mkWbr (- ENOMEM) None None done_log)
      | Some s =>
          (* from [if (unlikely(status)) goto out_unlock;] on *)
          let finish (prepared : Z * pstate) :=
            let '(status, s1) := prepared in
            if negb (status =? 0) then
              WbDone (mkWbr status None (Some (unlock_page s1))
                            ([WrPutPage] ++ iomap_write_failed ino pos len
                             ++ done_log))
            else WbDone (mkWbr 0 (Some s1) None []) in
          if iomap_type_eqb (iomap_type_of im) IOMAP_INLINE then
            match iomap_read_inline_data inline_data ino (pg s) with
            | None => WbBug
            | Some p' => finish (0, with_page s p')
            end
          else if negb (Z.land (iomap_flags im) IOMAP_F_BUFFER_HEAD =? 0)
          then finish (__block_write_begin_int pos len s)
          else
            match __iomap_write_begin fuel submit_bio_wait ino pos len im s
            with
            | None => WbOutOfFuel
            | Some prepared => finish prepared
            end
      end.

(** [iomap_truncate_page]; the zeroing of the range is [iomap_zero_range],
    given here as the call it is. *)
Definition iomap_truncate_page {R : Type} (zero_range : Z -> Z -> R)
    (nothing : R) (ino : inode) (pos : Z) : R :=
  let blocksize := i_blocksize ino in
  let off := u32 (Z.land pos (blocksize - 1)) in
  if off =? 0 then nothing
  else zero_range pos (u32 (blocksize - off)).

(** ** Chunks of a byte range *)

(** The chunks [(position, bytes)] follow one another from [pos] to [stop],
    none is empty and none crosses a page boundary. *)
Fixpoint page_chunks (pos : Z) (l : list (Z * Z)) (stop : Z) : Prop :=
  match l with
  | [] => pos = stop
  | (p, n) :: l' =>
      p = pos /\ 0 < n /\ offset_in_page p + n <= PAGE_SIZE /\
      page_chunks (pos + n) l' stop
  end.

Section ZeroChunks.
Variable Store : Type.
Variable iomap_zero : inode -> Z -> Z -> Z -> iomap -> Store -> Z * Store.

(** [iomap_zero] on each chunk in turn, up to the first negative status: that
    status, if there is one, and the store left behind. *)
Fixpoint zero_each (ino : inode) (im : iomap) (l : list (Z * Z)) (st : Store)
  : option Z * Store :=
  match l with
  | [] => (None, st)
  | (p, n) :: l' =>
      let '(status, st1) := iomap_zero ino p (offset_in_page p) n im st in
      if status <? 0 then (Some status, st1)
      else zero_each ino im l' st1
  end.
End ZeroChunks.
End Model.

(** * Concrete inputs *)

(** An architecture with 4 KiB pages. *)
Definition arch4k : Arch := {| PAGE_SHIFT := 12 |}.

(** A 1 MiB file with 1 KiB blocks (four per page), and with 4 KiB blocks. *)
Definition ino1k : inode := mkInode (2 ^ 20) 10 false.
Definition ino4k : inode := mkInode (2 ^ 20) 12 false.

(** Page 0, locked, with the given page state. *)
Definition locked_page (iop : option iomap_page) : page :=
  mkPage 0 false false false true false iop true.

(** Page state in which only block 1 is uptodate. *)
Definition iop_block1 : iomap_page := mkIop 0 0 2.

(** A mapped extent covering the whole file, and a hole of the same size. *)
Definition im_mapped : iomap := mkIomap 0 0 (2 ^ 20) IOMAP_MAPPED 0.
Definition im_hole : iomap := mkIomap 0 0 (2 ^ 20) IOMAP_HOLE 0.

(** Two adjacent ioends of the same kind whose flag words differ in the New
    bit only. *)
Definition ioend_new : iomap_ioend :=
  mkIoend IOMAP_MAPPED IOMAP_F_NEW 4096 0 0 (mkBio 0 4096 0 1 [0]) [].
Definition ioend_plain : iomap_ioend :=
  mkIoend IOMAP_MAPPED 0 4096 4096 0 (mkBio 8 4096 0 1 [1]) [].

(** A block layer that never merges a segment into the previous one and
    whose bios are never full: every segment added is a segment of its own,
    on the page it was added for.  Chained bios, if there were any, would
    still be in flight when the last one is ended. *)
Definition blk_plain : BlockLayer :=
  {| __bio_try_merge_page := fun _ _ _ _ => None;
     bio_full := fun _ _ => false;
     bio_add_page := fun b page len _ =>
       mkBio (bi_sector b) (bi_size b + len) (bi_status b) (bi_vcnt b + 1)
             (bi_io_vec b ++ [page]);
     bio_remaining_done := fun _ => false |}.


(** The same, with the mapping failing from the first block on, and with a
    discard hook. *)
Definition ops_fail_at_0 : iomap_writeback_ops :=
  {| map_blocks := fun im _ _ => (- EIO, im);
     submit_ioend := None;
     discard_page := true |}.

(** A dirty, uptodate, locked page 0 whose four blocks are all uptodate. *)
Definition dirty_page : pstate :=
  mkPstate (mkPage 0 true true false true false (Some (mkIop 0 0 15)) true) [].

Definition wpc_empty : iomap_writepage_ctx :=
  mkWpc (mkIomap 0 0 0 IOMAP_HOLE 0) None.

(** A read state for page 0 with block 1 uptodate and no bio built yet. *)
Definition rstate_block1 : rstate :=
  mkRstate (mkRctx false false None)
           (mkPstate (locked_page (Some iop_block1)) []).

(** A locked page 0 under writeback with two write segments in flight. *)
Definition writeback_page : pstate :=
  mkPstate (mkPage 0 true false true false false (Some (mkIop 0 2 15)) true)
           [].

(** Writeback operations that map every block and have no hooks, and
    operations whose submit hook refuses the ioend that starts at byte 4096
    with -EIO. *)
Definition ops_all_mapped : iomap_writeback_ops :=
  {| map_blocks := fun _ _ _ => (0, mkIomap 0 0 4096 IOMAP_MAPPED 0);
     submit_ioend := None;
     discard_page := false |}.
Definition ops_refuse_4096 : iomap_writeback_ops :=
  {| map_blocks := fun _ _ _ => (0, mkIomap 0 0 4096 IOMAP_MAPPED 0);
     submit_ioend :=
       Some (fun ioend status =>
               if io_offset ioend =? 4096 then - EIO else status);
     discard_page := false |}.

(** A block device whose synchronous reads succeed, and one whose reads
    fail with -EIO. *)
Definition read_ok : Z -> Z -> Z -> Z := fun _ _ _ => 0.
Definition read_fails : Z -> Z -> Z -> Z := fun _ _ _ => - EIO.

(** A store that counts the zeroing calls made on it. *)
Definition counting_zero : inode -> Z -> Z -> Z -> iomap -> nat -> Z * nat :=
  fun _ _ _ _ _ n => (0, S n).
Definition counting_dax_zero : Z -> Z -> Z -> iomap -> nat -> Z * nat :=
  fun _ _ _ _ n => (0, S n).


(** * Properties *)

Section Properties.
Context {arch : Arch}.

(** Boolean tests as propositions. *)
Ltac b2p :=
  repeat (rewrite ?orb_true_iff, ?andb_true_iff, ?negb_true_iff,
            ?orb_false_iff, ?andb_false_iff, ?negb_false_iff,
            ?Z.leb_le, ?Z.ltb_lt, ?Z.eqb_eq, ?Z.leb_gt, ?Z.ltb_ge, ?Z.eqb_neq
          in *).

(** ** Machine integers in range *)

Lemma u32_small (x : Z) : 0 <= x < 2 ^ 32 -> u32 x = x.
Proof. intros H. unfold u32. apply Z.mod_small. exact H. Qed.

Lemma u64_small (x : Z) : 0 <= x < 2 ^ 64 -> u64 x = x.
Proof. intros H. unfold u64. apply Z.mod_small. exact H. Qed.

Lemma s32_small (x : Z) : - 2 ^ 31 <= x < 2 ^ 31 -> s32 x = x.
Proof. intros H. unfold s32. rewrite Z.mod_small; lia. Qed.

Lemma s64_small (x : Z) : - 2 ^ 63 <= x < 2 ^ 63 -> s64 x = x.
Proof. intros H. unfold s64. rewrite Z.mod_small; lia. Qed.

Lemma pow2_le_mono (a b : Z) : 0 <= a <= b -> 2 ^ a <= 2 ^ b.
Proof. intros H. apply Z.pow_le_mono_r; lia. Qed.

Lemma pow2_pos (a : Z) : 0 <= a -> 0 < 2 ^ a.
Proof. intros H. apply Z.pow_pos_nonneg; lia. Qed.

Lemma PAGE_SIZE_pow2 : 0 <= PAGE_SHIFT -> PAGE_SIZE = 2 ^ PAGE_SHIFT.
Proof.
  intros H. unfold PAGE_SIZE. rewrite Z.shiftl_mul_pow2 by exact H. lia.
Qed.

Lemma i_blocksize_pow2 (ino : inode) :
  0 <= i_blkbits ino < 32 -> i_blocksize ino = 2 ^ i_blkbits ino.
Proof.
  intros H. unfold i_blocksize.
  rewrite Z.shiftl_mul_pow2 by lia. rewrite Z.mul_1_l.
  apply u32_small. split.
  - apply Z.lt_le_incl, pow2_pos; lia.
  - apply Z.pow_lt_mono_r; lia.
Qed.

Lemma offset_in_page_mod (p : Z) :
  0 <= PAGE_SHIFT -> offset_in_page p = p mod PAGE_SIZE.
Proof.
  intros H. unfold offset_in_page. rewrite PAGE_SIZE_pow2 by exact H.
  replace (2 ^ PAGE_SHIFT - 1) with (Z.ones PAGE_SHIFT)
    by (rewrite Z.ones_equiv; lia).
  apply Z.land_ones. exact H.
Qed.

(** The page is a whole number of blocks. *)
Lemma page_blocks (ino : inode) :
  0 <= i_blkbits ino <= PAGE_SHIFT ->
  PAGE_SIZE = 2 ^ (PAGE_SHIFT - i_blkbits ino) * 2 ^ i_blkbits ino.
Proof.
  intros H. rewrite PAGE_SIZE_pow2 by lia.
  rewrite <- Z.pow_add_r by lia. f_equal. lia.
Qed.

Lemma page_div_block (ino : inode) :
  0 <= i_blkbits ino <= PAGE_SHIFT ->
  PAGE_SIZE / 2 ^ i_blkbits ino = 2 ^ (PAGE_SHIFT - i_blkbits ino).
Proof.
  intros H. rewrite (page_blocks ino H).
  apply Z.div_mul. pose proof (pow2_pos (i_blkbits ino)). lia.
Qed.

(** Block index of a byte offset. *)
Lemma block_index_spec (x bs i : Z) :
  0 < bs -> (x / bs = i <-> i * bs <= x < (i + 1) * bs).
Proof.
  intros Hbs. split.
  - intros <-. pose proof (Z.mul_div_le x bs Hbs).
    pose proof (Z.mul_succ_div_gt x bs Hbs). lia.
  - intros H. symmetry. apply (Z.div_unique x bs i (x - i * bs)); lia.
Qed.

Lemma testbit_set_bit (bm i j : Z) :
  0 <= i -> test_bit j (set_bit i bm) = (i =? j) || test_bit j bm.
Proof. intros H. unfold test_bit, set_bit. apply Z.setbit_eqb. exact H. Qed.

(** ** The bitmap loop of iomap_set_range_uptodate *)

Lemma set_range_loop_bits (n : nat) :
  forall i first last bm upt j,
    0 <= i ->
    test_bit j (fst (set_range_loop n i first last bm upt))
    = test_bit j bm
      || ((i <=? j) && (j <? i + Z.of_nat n) && (first <=? j) && (j <=? last)).
Proof.
  induction n as [|n IH]; intros i first last bm upt j Hi.
  - simpl. apply eq_iff_eq_true. b2p. intuition lia.
  - cbn [set_range_loop].
    destruct ((first <=? i) && (i <=? last)) eqn:Hin.
    + rewrite IH by lia. rewrite testbit_set_bit by lia.
      apply eq_iff_eq_true. b2p. intuition lia.
    + assert (Hnot : ~ (first <= i <= last)).
      { intros [H1 H2]. apply Z.leb_le in H1. apply Z.leb_le in H2.
        rewrite H1, H2 in Hin. discriminate. }
      assert (Hgoal : test_bit j (fst (set_range_loop n (i + 1) first last bm upt))
                      = test_bit j bm
                        || ((i <=? j) && (j <? i + Z.of_nat (S n))
                            && (first <=? j) && (j <=? last))).
      { rewrite IH by lia. apply eq_iff_eq_true. b2p. intuition lia. }
      destruct (negb (test_bit i bm)); [|exact Hgoal].
      rewrite <- Hgoal. rewrite !IH by lia. reflexivity.
Qed.

Lemma set_range_loop_flag (n : nat) :
  forall i first last bm upt,
    0 <= i ->
    (snd (set_range_loop n i first last bm upt) = true <->
     upt = true /\
     forall j, i <= j < i + Z.of_nat n -> ~ (first <= j <= last) ->
               test_bit j bm = true).
Proof.
  induction n as [|n IH]; intros i first last bm upt Hi.
  - simpl. split; [intros ->; split; [reflexivity | intros; lia] | tauto].
  - cbn [set_range_loop].
    destruct ((first <=? i) && (i <=? last)) eqn:Hin.
    + apply andb_prop in Hin. destruct Hin as [H1 H2].
      apply Z.leb_le in H1. apply Z.leb_le in H2.
      rewrite IH by lia.
      split; intros [Hu Hall]; split; try exact Hu; intros j Hj Hn.
      * destruct (Z.eq_dec j i) as [->|Hne]; [lia|].
        specialize (Hall j ltac:(lia) Hn).
        rewrite testbit_set_bit in Hall by lia.
        apply orb_true_iff in Hall. destruct Hall as [Hall|Hall];
          [apply Z.eqb_eq in Hall; lia | exact Hall].
      * rewrite testbit_set_bit by lia. apply orb_true_iff. right.
        apply Hall; [lia | exact Hn].
    + assert (Hnot : ~ (first <= i <= last)).
      { intros [H1 H2]. apply Z.leb_le in H1. apply Z.leb_le in H2.
        rewrite H1, H2 in Hin. discriminate. }
      destruct (test_bit i bm) eqn:Hb; simpl; rewrite IH by lia.
      * split; intros [Hu Hall]; split; try exact Hu; intros j Hj Hn.
        -- destruct (Z.eq_dec j i) as [->|Hne]; [exact Hb|]. apply Hall; lia.
        -- apply Hall; lia.
      * split; intros [Hu Hall]; [discriminate|].
        specialize (Hall i ltac:(lia) Hnot). congruence.
Qed.

Lemma shiftr_block (x b : Z) : 0 <= b -> Z.shiftr x b = x / 2 ^ b.
Proof. intros H. apply Z.shiftr_div_pow2. exact H. Qed.


(** ** iomap_set_range_uptodate on a page with a bitmap *)

Lemma set_range_uptodate_spec
    (ino : inode) (p : page) (iop : iomap_page) (off len : Z) :
  0 <= i_blkbits ino <= PAGE_SHIFT -> PAGE_SHIFT < 32 ->
  to_iomap_page p = Some iop ->
  0 <= off -> 0 < len -> off + len <= PAGE_SIZE ->
  exists iop',
    to_iomap_page (iomap_set_range_uptodate ino p off len) = Some iop' /\
    (forall i, 0 <= i ->
       (test_bit i (uptodate iop') = true <->
        test_bit i (uptodate iop) = true \/
        (off < (i + 1) * i_blocksize ino /\ i * i_blocksize ino < off + len))) /\
    (PageUptodate (iomap_set_range_uptodate ino p off len) = true <->
     PageUptodate p = true \/
     ((forall i, 0 <= i < PAGE_SIZE / i_blocksize ino ->
                 test_bit i (uptodate iop') = true) /\
      PageError p = false)).
Proof.
  intros Hbits Hps Hiop Hoff Hlen Hend.
  assert (Hbs : i_blocksize ino = 2 ^ i_blkbits ino)
    by (apply i_blocksize_pow2; lia).
  assert (Hbspos : 0 < 2 ^ i_blkbits ino) by (apply pow2_pos; lia).
  assert (Hpg : PAGE_SIZE = 2 ^ PAGE_SHIFT) by (apply PAGE_SIZE_pow2; lia).
  assert (Hpglt : PAGE_SIZE < 2 ^ 32)
    by (rewrite Hpg; apply Z.pow_lt_mono_r; lia).
  pose proof (page_blocks ino Hbits) as Hnb.
  pose proof (page_div_block ino Hbits) as Hdiv.
  assert (Hnbpos : 0 < 2 ^ (PAGE_SHIFT - i_blkbits ino))
    by (apply pow2_pos; lia).
  unfold iomap_set_range_uptodate. rewrite Hiop.
  set (first := u32 (Z.shiftr off (i_blkbits ino))).
  set (last := u32 (Z.shiftr (u32 (off + len - 1)) (i_blkbits ino))).
  assert (Hfirst : first = off / 2 ^ i_blkbits ino).
  { unfold first. rewrite shiftr_block by lia. apply u32_small.
    split; [apply Z.div_pos; lia|].
    apply Z.le_lt_trans with off; [|lia].
    apply Z.div_le_upper_bound; nia. }
  assert (Hlast : last = (off + len - 1) / 2 ^ i_blkbits ino).
  { unfold last. rewrite (u32_small (off + len - 1)) by lia.
    rewrite shiftr_block by lia. apply u32_small.
    split; [apply Z.div_pos; lia|].
    apply Z.le_lt_trans with (off + len - 1); [|lia].
    apply Z.div_le_upper_bound; nia. }
  destruct (set_range_loop _ 0 first last (uptodate iop) true) as [bm upt] eqn:E.
  assert (Ebits : forall j, test_bit j bm = _) by
    (intros j; pose proof (set_range_loop_bits
        (Z.to_nat (PAGE_SIZE / i_blocksize ino)) 0 first last (uptodate iop)
        true j ltac:(lia)) as Hb; rewrite E in Hb; exact Hb).
  pose proof (set_range_loop_flag
        (Z.to_nat (PAGE_SIZE / i_blocksize ino)) 0 first last (uptodate iop)
        true ltac:(lia)) as Eflag.
  rewrite E in Eflag. simpl snd in Eflag.
  rewrite Hbs, Hdiv in *. rewrite Z2Nat.id in * by lia.
  assert (Hcov : forall i, 0 <= i ->
     (first <= i <= last <->
      off < (i + 1) * 2 ^ i_blkbits ino /\ i * 2 ^ i_blkbits ino < off + len)).
  { intros i Hi. rewrite Hfirst, Hlast.
    pose proof (block_index_spec off (2 ^ i_blkbits ino) (off / 2 ^ i_blkbits ino) Hbspos) as [Ha _].
    specialize (Ha eq_refl).
    pose proof (block_index_spec (off + len - 1) (2 ^ i_blkbits ino) ((off + len - 1) / 2 ^ i_blkbits ino) Hbspos) as [Hb _].
    specialize (Hb eq_refl). nia. }
  exists (set_uptodate iop bm).
  assert (Hbit' : forall i, 0 <= i ->
       (test_bit i bm = true <->
        test_bit i (uptodate iop) = true \/
        (off < (i + 1) * 2 ^ i_blkbits ino /\ i * 2 ^ i_blkbits ino < off + len))).
  { intros i Hi. rewrite Ebits. b2p. rewrite <- (Hcov i Hi).
    split; [intuition lia|].
    intros [H|H]; [now left|right].
    assert (i < 2 ^ (PAGE_SHIFT - i_blkbits ino)).
    { apply (Hcov i Hi) in H. nia. }
    lia. }
  assert (Hall : (forall i, 0 <= i < 2 ^ (PAGE_SHIFT - i_blkbits ino) ->
                      test_bit i bm = true) <-> upt = true).
  { rewrite Eflag. split.
    - intros H. split; [reflexivity|]. intros j Hj Hn.
      specialize (H j ltac:(lia)). rewrite Ebits in H. b2p.
      destruct H as [H|H]; [exact H | lia].
    - intros [_ H] i Hi. rewrite Ebits. b2p.
      destruct (Z.le_gt_cases first i), (Z.le_gt_cases i last);
        try (left; apply H; lia). right. lia. }
  split; [|split].
  - destruct (upt && negb (PageError _)); reflexivity.
  - exact Hbit'.
  - cbn [uptodate set_uptodate]. rewrite Hall.
    unfold PageError, PageUptodate. cbn [PG_error set_iomap_page].
    destruct upt, (PG_error p) eqn:He, (PG_uptodate p) eqn:Hu; cbn;
      rewrite ?Hu; intuition congruence.
Qed.

(** ** The two loops of iomap_adjust_read_range *)

Lemma skip_leading_spec (bm bs l : Z) :
  0 < bs -> (l + 1) * bs < 2 ^ 32 ->
  forall (n : nat) (i pos : Z),
    Z.of_nat n = l + 1 - i -> 0 <= i -> 0 <= pos ->
    pos + (l + 1 - i) * bs < 2 ^ 63 ->
    exists i',
      skip_leading n bm bs i pos (i * bs) ((l + 1 - i) * bs) i
      = (i', pos + (i' - i) * bs, i' * bs, (l + 1 - i') * bs, i') /\
      i <= i' <= l + 1 /\
      (forall j, i <= j < i' -> test_bit j bm = true) /\
      (i' <= l -> test_bit i' bm = false).
Proof.
  intros Hbs Hmax. induction n as [|n IH]; intros i pos Hn Hi Hpos Hend.
  - exists i. cbn [skip_leading]. replace (i - i) with 0 by lia.
    rewrite Z.add_0_r.
    split; [reflexivity|]. split; [lia|]. split; intros; lia.
  - cbn [skip_leading]. destruct (test_bit i bm) eqn:Hb; cbn [negb].
    + assert (Hil : i <= l) by lia.
      assert (Hlb : l + 1 <= (l + 1) * bs) by nia.
      rewrite (u32_small (i + 1)) by lia.
      rewrite (s64_small (pos + bs)) by nia.
      replace (u32 (i * bs + bs)) with ((i + 1) * bs)
        by (symmetry; rewrite u32_small by nia; ring).
      replace (u32 ((l + 1 - i) * bs - bs)) with ((l + 1 - (i + 1)) * bs)
        by (symmetry; rewrite u32_small by nia; ring).
      destruct (IH (i + 1) (pos + bs) ltac:(lia) ltac:(lia) ltac:(lia)
                  ltac:(nia)) as (i' & E & Hr & Hall & Hstop).
      exists i'. rewrite E. split; [f_equal; f_equal; f_equal; f_equal; ring|].
      split; [lia|]. split; [|exact Hstop].
      intros j Hj. destruct (Z.eq_dec j i) as [->|Hne]; [exact Hb|].
      apply Hall. lia.
    + exists i. replace (i - i) with 0 by lia. rewrite Z.add_0_r.
      split; [reflexivity|]. split; [lia|]. split; [intros; lia|].
      intros _. exact Hb.
Qed.

Lemma trim_trailing_spec (bm bs l : Z) :
  forall (n : nat) (i plen : Z),
    Z.of_nat n = l + 1 - i -> 0 <= i -> l + 1 < 2 ^ 32 ->
    exists e,
      i <= e <= l + 1 /\
      (forall j, i <= j < e -> test_bit j bm = false) /\
      (e <= l -> test_bit e bm = true) /\
      trim_trailing n bm bs i plen l
      = if e <=? l
        then (u32 (plen - u32 (u32 (l - e + 1) * bs)), u32 (e - 1))
        else (plen, l).
Proof.
  induction n as [|n IH]; intros i plen Hn Hi Hmax.
  - exists i. split; [lia|]. split; [intros; lia|]. split; [lia|].
    cbn. replace (i <=? l) with false by (symmetry; apply Z.leb_gt; lia).
    reflexivity.
  - cbn [trim_trailing]. destruct (test_bit i bm) eqn:Hb.
    + exists i. split; [lia|]. split; [intros; lia|]. split; [auto|].
      replace (i <=? l) with true by (symmetry; apply Z.leb_le; lia).
      reflexivity.
    + rewrite (u32_small (i + 1)) by lia.
      destruct (IH (i + 1) plen ltac:(lia) ltac:(lia) Hmax)
        as (e & Hr & Hall & Hstop & E).
      exists e. split; [lia|]. split; [|split; [exact Hstop | exact E]].
      intros j Hj. destruct (Z.eq_dec j i) as [->|Hne]; [exact Hb|].
      apply Hall. lia.
Qed.

Lemma div_mul_block (a bs : Z) : 0 < bs -> a * bs / bs = a.
Proof. intros H. apply Z.div_mul. lia. Qed.

Lemma div_block_last (f c bs : Z) :
  0 < bs -> 1 <= c -> (f * bs + c * bs - 1) / bs = f + c - 1.
Proof.
  intros Hbs Hc. apply (block_index_spec _ bs (f + c - 1) Hbs). nia.
Qed.

(** ** iomap_adjust_read_range on block-aligned requests *)

Lemma adjust_read_range_blocks (ino : inode) (iop : iomap_page)
    (pos length f c : Z) :
  0 <= i_blkbits ino <= PAGE_SHIFT -> PAGE_SHIFT < 31 ->
  0 <= pos -> pos + length < 2 ^ 63 ->
  pos mod PAGE_SIZE = f * 2 ^ i_blkbits ino ->
  Z.min (PAGE_SIZE - f * 2 ^ i_blkbits ino) length = c * 2 ^ i_blkbits ino ->
  0 <= f -> 1 <= c -> (f + c) * 2 ^ i_blkbits ino <= PAGE_SIZE ->
  exists k m,
    iomap_adjust_read_range ino (Some iop) pos length
    = (pos + k * 2 ^ i_blkbits ino,
       f * 2 ^ i_blkbits ino + k * 2 ^ i_blkbits ino,
       m * 2 ^ i_blkbits ino) /\
    0 <= k /\ 0 <= m /\ k + m <= c /\ (k < c -> 0 < m) /\
    (forall j, f <= j < f + k -> test_bit j (uptodate iop) = true) /\
    (forall j, f + k <= j < f + k + m -> test_bit j (uptodate iop) = false) /\
    (k + m < c ->
     test_bit (f + k + m) (uptodate iop) = true \/
     (pos <= i_size ino < pos + length /\
      f + k + m = (i_size ino - 1) mod PAGE_SIZE / 2 ^ i_blkbits ino + 1)).
Proof.
  intros Hbits Hps Hpos Hend Hoff Hmin Hf Hc Hfit.
  set (bs := 2 ^ i_blkbits ino) in *.
  assert (Hbs : 0 < bs) by (apply pow2_pos; lia).
  assert (Hpg : PAGE_SIZE = 2 ^ PAGE_SHIFT) by (apply PAGE_SIZE_pow2; lia).
  assert (Hpglt : PAGE_SIZE < 2 ^ 31)
    by (rewrite Hpg; apply Z.pow_lt_mono_r; lia).
  assert (Hpgpos : 0 < PAGE_SIZE) by (rewrite Hpg; apply pow2_pos; lia).
  assert (Hbsz : u32 (Z.shiftl 1 (i_blkbits ino)) = bs).
  { change (u32 (Z.shiftl 1 (i_blkbits ino))) with (i_blocksize ino).
    apply i_blocksize_pow2. lia. }
  unfold iomap_adjust_read_range.
  rewrite Hbsz. rewrite offset_in_page_mod by lia. rewrite Hoff.
  rewrite (u32_small (f * bs)) by nia.
  rewrite Hmin. rewrite (u32_small (c * bs)) by nia.
  rewrite (u32_small (f * bs + c * bs - 1)) by nia.
  rewrite !shiftr_block by lia. fold bs.
  rewrite (div_mul_block f bs Hbs).
  rewrite (div_block_last f c bs Hbs Hc).
  set (l := f + c - 1).
  replace (c * bs) with ((l + 1 - f) * bs) by (unfold l; ring).
  destruct (skip_leading_spec (uptodate iop) bs l Hbs ltac:(unfold l; nia)
              (Z.to_nat (l + 1 - f)) f pos ltac:(unfold l; lia) Hf Hpos
              ltac:(unfold l; nia))
    as (i' & Eskip & Hi' & Hlead & Hstop).
  rewrite Eskip.
  destruct (trim_trailing_spec (uptodate iop) bs l (Z.to_nat (l + 1 - i')) i'
              ((l + 1 - i') * bs) ltac:(lia) ltac:(lia) ltac:(unfold l; nia))
    as (e & He & Hclear & Hfound & Etrim).
  rewrite Etrim. clear Eskip Etrim.
  rewrite (offset_in_page_mod (i_size ino - 1)) by lia.
  assert (Hendb : 0 <= (i_size ino - 1) mod PAGE_SIZE / bs < 2 ^ 31).
  { pose proof (Z.mod_pos_bound (i_size ino - 1) PAGE_SIZE Hpgpos).
    split; [apply Z.div_pos; lia|].
    apply Z.le_lt_trans with ((i_size ino - 1) mod PAGE_SIZE); [|lia].
    apply Z.div_le_upper_bound; nia. }
  rewrite (u32_small ((i_size ino - 1) mod PAGE_SIZE)) 
    by (pose proof (Z.mod_pos_bound (i_size ino - 1) PAGE_SIZE Hpgpos); lia).
  set (end_ := (i_size ino - 1) mod PAGE_SIZE / bs) in *.
  rewrite (s64_small (pos + length)) by lia.
  (* the block just past the range kept by the two loops *)
  set (E := if e <=? l then e else l + 1).
  assert (HE : i' <= E <= l + 1) by (unfold E; destruct (e <=? l); lia).
  assert (HEclear : forall j, i' <= j < E -> test_bit j (uptodate iop) = false).
  { intros j Hj. apply Hclear. unfold E in Hj.
    destruct (Z.leb_spec e l); lia. }
  assert (HEpos : i' <= l -> i' < E).
  { intros Hil. unfold E. destruct (Z.leb_spec e l) as [Hel|Hel]; [|lia].
    specialize (Hstop Hil). specialize (Hfound Hel).
    destruct (Z.eq_dec e i') as [->|]; [congruence | lia]. }
  assert (Etrim : (if e <=? l
                   then (u32 ((l + 1 - i') * bs - u32 (u32 (l - e + 1) * bs)),
                         u32 (e - 1))
                   else ((l + 1 - i') * bs, l))
                  = ((E - i') * bs, E - 1)).
  { unfold E. destruct (Z.leb_spec e l) as [Hel|Hel].
    - assert (i' < e).
      { specialize (Hfound Hel). specialize (Hstop ltac:(lia)).
        destruct (Z.eq_dec e i') as [->|]; [congruence | lia]. }
      rewrite (u32_small (l - e + 1)) by (unfold l in *; nia).
      rewrite (u32_small ((l - e + 1) * bs)) by (unfold l in *; nia).
      rewrite (u32_small (e - 1)) by (unfold l in *; nia).
      rewrite u32_small by (unfold l in *; nia).
      f_equal. ring.
    - f_equal; lia. }
  rewrite Etrim. clear Etrim.
  cbv beta iota.
  set (clip := (pos <=? i_size ino) && (i_size ino <? pos + length)).
  set (inside := (i' <=? end_) && (end_ <? E - 1)).
  destruct (clip && inside) eqn:Hclip.
  - apply andb_prop in Hclip. destruct Hclip as [Hc1 Hc2].
    rewrite Hc1, Hc2. unfold clip, inside in Hc1, Hc2. b2p.
    exists (i' - f), (end_ + 1 - i').
    rewrite (u32_small (E - 1 - end_)) by (unfold l in *; nia).
    rewrite (u32_small ((E - 1 - end_) * bs)) by (unfold l in *; nia).
    rewrite u32_small by (unfold l in *; nia).
    split; [apply f_equal2; [apply f_equal2|]; ring|].
    split; [lia|]. split; [lia|]. split; [unfold l in *; lia|].
    split; [lia|]. split; [intros j Hj; apply Hlead; lia|].
    split; [intros j Hj; apply HEclear; lia|].
    intros _. right. split; lia.
  - exists (i' - f), (E - i').
    assert (Hgoal : (if clip
                     then if inside
                          then u32 ((E - i') * bs
                                    - u32 (u32 (E - 1 - end_) * bs))
                          else (E - i') * bs
                     else (E - i') * bs) = (E - i') * bs).
    { destruct clip, inside; try reflexivity. discriminate. }
    rewrite Hgoal.
    split; [apply f_equal2; [apply f_equal2|]; ring|].
    split; [lia|]. split; [lia|]. split; [unfold l in *; lia|].
    split; [intros Hk; assert (i' < E) by (apply HEpos; unfold l; lia); lia|].
    split; [intros j Hj; apply Hlead; lia|].
    split; [intros j Hj; apply HEclear; lia|].
    intros Hcut. left.
    replace (f + (i' - f) + (E - i')) with E by ring.
    unfold E in *. destruct (Z.leb_spec e l) as [Hel|Hel].
    + apply Hfound. exact Hel.
    + unfold l in *. lia.
Qed.

(** ** Block-aligned requests *)

Lemma test_bit_empty (j : Z) : test_bit j 0 = false.
Proof. unfold test_bit. apply Z.bits_0. Qed.

Lemma skip_leading_empty (n : nat) (bs i pos poff plen first : Z) :
  skip_leading n 0 bs i pos poff plen first = (i, pos, poff, plen, first).
Proof. destruct n; cbn; [|rewrite test_bit_empty]; reflexivity. Qed.

Lemma trim_trailing_empty (n : nat) (bs plen last : Z) :
  forall i, trim_trailing n 0 bs i plen last = (plen, last).
Proof.
  induction n as [|n IH]; intros i; cbn; [reflexivity|].
  rewrite test_bit_empty. apply IH.
Qed.

(** Without page state the request is treated as if no block were marked. *)
Lemma adjust_read_range_no_page_state (ino : inode) (pos length : Z) :
  iomap_adjust_read_range ino None pos length
  = iomap_adjust_read_range ino (Some (mkIop 0 0 0)) pos length.
Proof.
  unfold iomap_adjust_read_range. cbn [uptodate].
  rewrite skip_leading_empty, trim_trailing_empty. reflexivity.
Qed.

Lemma adjust_read_range_blocks_opt (ino : inode) (iop : option iomap_page)
    (pos length f c : Z) :
  0 <= i_blkbits ino <= PAGE_SHIFT -> PAGE_SHIFT < 31 ->
  0 <= pos -> pos + length < 2 ^ 63 ->
  pos mod PAGE_SIZE = f * 2 ^ i_blkbits ino ->
  Z.min (PAGE_SIZE - f * 2 ^ i_blkbits ino) length = c * 2 ^ i_blkbits ino ->
  0 <= f -> 1 <= c -> (f + c) * 2 ^ i_blkbits ino <= PAGE_SIZE ->
  exists k m,
    iomap_adjust_read_range ino iop pos length
    = (pos + k * 2 ^ i_blkbits ino,
       f * 2 ^ i_blkbits ino + k * 2 ^ i_blkbits ino,
       m * 2 ^ i_blkbits ino) /\
    0 <= k /\ 0 <= m /\ k + m <= c /\ (k < c -> 0 < m) /\
    (forall j, f <= j < f + k -> test_bit j (bitmap_of iop) = true) /\
    (forall j, f + k <= j < f + k + m -> test_bit j (bitmap_of iop) = false) /\
    (k + m < c ->
     test_bit (f + k + m) (bitmap_of iop) = true \/
     (pos <= i_size ino < pos + length /\
      f + k + m = (i_size ino - 1) mod PAGE_SIZE / 2 ^ i_blkbits ino + 1)).
Proof.
  intros. destruct iop as [iop|].
  - apply adjust_read_range_blocks; assumption.
  - rewrite adjust_read_range_no_page_state.
    change (bitmap_of None) with (uptodate (mkIop 0 0 0)).
    apply adjust_read_range_blocks; assumption.
Qed.

Lemma aligned_request (ino : inode) (pos length : Z) :
  0 <= i_blkbits ino <= PAGE_SHIFT ->
  0 <= pos -> 0 < length ->
  pos mod 2 ^ i_blkbits ino = 0 -> length mod 2 ^ i_blkbits ino = 0 ->
  exists f c,
    pos mod PAGE_SIZE = f * 2 ^ i_blkbits ino /\
    Z.min (PAGE_SIZE - f * 2 ^ i_blkbits ino) length = c * 2 ^ i_blkbits ino /\
    0 <= f /\ 1 <= c /\ (f + c) * 2 ^ i_blkbits ino <= PAGE_SIZE.
Proof.
  intros Hbits Hpos Hlen Hap Hal.
  set (bs := 2 ^ i_blkbits ino) in *.
  set (nb := 2 ^ (PAGE_SHIFT - i_blkbits ino)).
  assert (Hbs : 0 < bs) by (apply pow2_pos; lia).
  assert (Hnb : 0 < nb) by (apply pow2_pos; lia).
  assert (Hpg : PAGE_SIZE = nb * bs) by (apply page_blocks; exact Hbits).
  apply Z.div_exact in Hap; [|lia]. apply Z.div_exact in Hal; [|lia].
  set (q := pos / bs) in *. set (ql := length / bs) in *.
  exists (q mod nb), (Z.min (nb - q mod nb) ql).
  pose proof (Z.mod_pos_bound q nb Hnb) as Hq.
  assert (Hoff : pos mod PAGE_SIZE = q mod nb * bs).
  { rewrite Hpg, Hap. rewrite (Z.mul_comm bs q).
    apply Z.mul_mod_distr_r; lia. }
  split; [exact Hoff|].
  split.
  - rewrite Hpg, Hal.
    replace (nb * bs - q mod nb * bs) with ((nb - q mod nb) * bs) by ring.
    rewrite (Z.mul_comm bs ql). apply Z.mul_min_distr_nonneg_r. lia.
  - split; [lia|]. split; [nia|]. rewrite Hpg. nia.
Qed.

(** ** Write begin *)

Lemma land_lnot_block (x b : Z) :
  0 <= b -> Z.land x (Z.lnot (2 ^ b - 1)) = x - x mod 2 ^ b.
Proof.
  intros Hb. rewrite <- Z.ldiff_land.
  replace (2 ^ b - 1) with (Z.ones b) by (rewrite Z.ones_equiv; lia).
  rewrite Z.ldiff_ones_r by exact Hb.
  rewrite Z.shiftr_div_pow2, Z.shiftl_mul_pow2 by exact Hb.
  pose proof (pow2_pos b Hb).
  pose proof (Z.div_mod x (2 ^ b) ltac:(lia)). lia.
Qed.

Lemma set_range_uptodate_beyond (ino : inode) (p : page) (off len j : Z) :
  0 <= i_blkbits ino <= PAGE_SHIFT -> PAGE_SHIFT < 32 ->
  0 <= off -> 0 < len -> off + len <= PAGE_SIZE ->
  0 <= j -> off + len <= j * i_blocksize ino ->
  test_bit j (bitmap_of (to_iomap_page (iomap_set_range_uptodate ino p off len)))
  = test_bit j (bitmap_of (to_iomap_page p)).
Proof.
  intros Hbits Hps Hoff Hlen Hend Hj Hbeyond.
  destruct (to_iomap_page p) as [iop|] eqn:Hiop.
  - destruct (set_range_uptodate_spec ino p iop off len Hbits Hps Hiop Hoff
                Hlen Hend) as (iop' & Hiop' & Hbitsp & _).
    rewrite Hiop'. cbn [bitmap_of].
    apply eq_iff_eq_true. rewrite (Hbitsp j Hj). intuition lia.
  - unfold iomap_set_range_uptodate. rewrite Hiop.
    destruct (true && negb (PageError p)); cbn; rewrite ?Hiop; reflexivity.
Qed.

Section WriteBeginLoop.
Variable submit_bio_wait : Z -> Z -> Z -> Z.
Variable ino : inode.
Variable im : iomap.
Variables from to base lb bm0 : Z.

Local Abbreviation bs := (2 ^ i_blkbits ino).

Hypothesis Hbits : 0 <= i_blkbits ino <= PAGE_SHIFT.
Hypothesis Hps : PAGE_SHIFT < 31.
Hypothesis Hbase : 0 <= base.
Hypothesis Hbasepg : base mod PAGE_SIZE = 0.
Hypothesis Hbasemax : base + PAGE_SIZE < 2 ^ 62.
Hypothesis Hwin : 0 <= from < to.
Hypothesis Hlb : lb * bs < to <= (lb + 1) * bs.
Hypothesis Hlbpg : (lb + 1) * bs <= PAGE_SIZE.

Lemma write_begin_loop_spec (fuel : nat) :
  forall (cur : Z) (s : pstate),
    0 <= cur <= lb -> from < (cur + 1) * bs ->
    (Z.to_nat (lb + 1 - cur) <= fuel)%nat ->
    (forall j, cur <= j ->
       test_bit j (bitmap_of (to_iomap_page (pg s))) = test_bit j bm0) ->
    exists status s' evs,
      write_begin_loop fuel submit_bio_wait ino im from to
                       (base + (lb + 1) * bs) (base + cur * bs) s
      = Some (status, s') /\
      trace s' = trace s ++ evs /\
      (forall e, In e evs ->
         exists bl bh,
           prepares ino im base e from to (bl * bs) (bh * bs) /\
           cur <= bl < bh /\ bh <= lb + 1 /\
           (forall b, bl <= b < bh -> test_bit b bm0 = false) /\
           (bl * bs < from < bh * bs \/ bl * bs < to < bh * bs)) /\
      (status = 0 ->
       forall b, cur <= b <= lb ->
         b * bs < from \/ to < (b + 1) * bs ->
         test_bit b bm0 = false ->
         exists e bl bh,
           In e evs /\ prepares ino im base e from to (bl * bs) (bh * bs) /\
           bl <= b < bh) /\
      status_of_reads submit_bio_wait evs status.
Proof.
  assert (Hbs : 0 < bs) by (apply pow2_pos; lia).
  assert (Hpg : PAGE_SIZE = 2 ^ PAGE_SHIFT) by (apply PAGE_SIZE_pow2; lia).
  assert (Hpglt : PAGE_SIZE < 2 ^ 31)
    by (rewrite Hpg; apply Z.pow_lt_mono_r; lia).
  induction fuel as [|fuel IH]; intros cur s Hcur Hfrom Hfuel Hinv; [lia|].
  cbn [write_begin_loop].
  replace (base + (lb + 1) * bs - (base + cur * bs)) with ((lb + 1 - cur) * bs)
    by ring.
  rewrite (s64_small ((lb + 1 - cur) * bs)) by nia.
  assert (Hoff : (base + cur * bs) mod PAGE_SIZE = cur * bs).
  { apply Z.div_exact in Hbasepg; [|lia]. rewrite Hbasepg.
    rewrite Z.add_comm, (Z.mul_comm PAGE_SIZE). rewrite Z_mod_plus_full.
    apply Z.mod_small. nia. }
  assert (Hmin : Z.min (PAGE_SIZE - cur * bs) ((lb + 1 - cur) * bs)
                 = (lb + 1 - cur) * bs) by nia.
  destruct (adjust_read_range_blocks_opt ino (to_iomap_page (pg s))
              (base + cur * bs) ((lb + 1 - cur) * bs) cur (lb + 1 - cur)
              Hbits Hps ltac:(nia) ltac:(nia) Hoff Hmin ltac:(lia) ltac:(lia)
              ltac:(nia))
    as (k & m & E & Hk & Hm & Hkm & Hmpos & Hlead & Hclear & _).
  rewrite E. cbv beta iota. clear E.
  assert (Hlead0 : forall j, cur <= j < cur + k -> test_bit j bm0 = true)
    by (intros j Hj; rewrite <- Hinv by lia; apply Hlead; exact Hj).
  assert (Hclear0 : forall j, cur + k <= j < cur + k + m ->
                              test_bit j bm0 = false)
    by (intros j Hj; rewrite <- Hinv by lia; apply Hclear; exact Hj).
  destruct (Z.eq_dec m 0) as [->|Hm0].
  { (* every remaining block is uptodate *)
    cbn [Z.mul Z.eqb]. exists 0, s, []. rewrite app_nil_r.
    split; [reflexivity|]. split; [reflexivity|].
    split; [intros e []|].
    split; [intros _ b Hb _ Hbit; rewrite Hlead0 in Hbit by lia; discriminate|].
    split; [intros _ sector poff plen [] | intros H; contradiction]. }
  replace (m * bs =? 0) with false by (symmetry; apply Z.eqb_neq; nia).
  set (lo := cur + k) in *. set (hi := lo + m) in *.
  replace (cur * bs + k * bs) with (lo * bs) by (unfold lo; ring).
  replace (lo * bs + m * bs) with (hi * bs) by (unfold hi; ring).
  replace (base + cur * bs + k * bs + m * bs) with (base + hi * bs)
    by (unfold hi, lo; ring).
  replace (base + cur * bs + k * bs) with (base + lo * bs)
    by (unfold lo; ring).
  rewrite (u32_small (hi * bs)) by (unfold hi, lo in *; nia).
  rewrite (s64_small (base + hi * bs)) by (unfold hi, lo in *; nia).
  set (need := (lo * bs <? from) && (from <? hi * bs)
               || (lo * bs <? to) && (to <? hi * bs)).
  assert (Hneed : need = true <->
                  (lo * bs < from < hi * bs \/ lo * bs < to < hi * bs))
    by (unfold need; b2p; tauto).
  assert (HX : exists status1 s1 evs1,
             (if need
              then iomap_read_page_sync submit_bio_wait ino (base + lo * bs)
                     (lo * bs) (m * bs) from to im s
              else (0, s)) = (status1, s1) /\
             trace s1 = trace s ++ evs1 /\
             (forall j, hi <= j ->
                test_bit j (bitmap_of (to_iomap_page (pg s1)))
                = test_bit j bm0) /\
             (forall e, In e evs1 ->
                prepares ino im base e from to (lo * bs) (hi * bs) /\ need = true) /\
             (status1 = 0 -> need = true ->
              exists e, In e evs1 /\
                        prepares ino im base e from to (lo * bs) (hi * bs)) /\
             status_of_reads submit_bio_wait evs1 status1 /\
             (status1 <> 0 -> exists e, evs1 = [e])).
  { destruct need.
    - unfold iomap_read_page_sync.
      destruct (iomap_block_needs_zeroing ino im (base + lo * bs)) eqn:Hz.
      + replace (lo * bs + m * bs) with (hi * bs) by (unfold hi; ring).
        rewrite (u32_small (hi * bs)) by (unfold hi, lo in *; nia).
        eexists 0, _, [EvZeroUserSegments (lo * bs) from to (hi * bs)].
        split; [reflexivity|]. split; [reflexivity|].
        split.
        * intros j Hj. cbn [pg with_page emit].
          rewrite set_range_uptodate_beyond;
            [apply Hinv; unfold hi, lo in *; lia | exact Hbits | lia
            | unfold lo; nia | nia | unfold hi, lo in *; nia
            | unfold hi, lo in *; lia | ].
          rewrite i_blocksize_pow2 by lia. unfold hi in *. nia.
        * split.
          -- intros e [<-|[]]. split; [|reflexivity].
             unfold prepares. rewrite Hz. reflexivity.
          -- split.
             ++ intros _ _. eexists. split; [left; reflexivity|].
                unfold prepares. rewrite Hz. reflexivity.
             ++ split; [|intros H; contradiction].
                split; [|intros H; contradiction].
                intros _ sector poff plen [H|[]]. discriminate H.
      + eexists _, _, [EvSubmitBioWait (iomap_sector im (base + lo * bs))
                                       (lo * bs) (m * bs)].
        split; [reflexivity|]. split; [reflexivity|].
        assert (Hp : prepares ino im base
                       (EvSubmitBioWait (iomap_sector im (base + lo * bs))
                                        (lo * bs) (m * bs))
                       from to (lo * bs) (hi * bs)).
        { unfold prepares. rewrite Hz. f_equal. unfold hi. ring. }
        split.
        * intros j Hj. cbn [pg emit]. apply Hinv. unfold hi, lo in *. lia.
        * split.
          -- intros e [<-|[]]. split; [exact Hp | reflexivity].
          -- split; [intros _ _; eexists; split; [left; reflexivity
                                                 | exact Hp]|].
             split; [|intros _; eexists; reflexivity].
             split.
             ++ intros H0 sector poff plen [H|[]].
                injection H as <- <- <-. exact H0.
             ++ intros Hne. eexists [], _, _, _.
                split; [reflexivity|]. split; [intros ? ? ? []|reflexivity].
    - exists 0, s, []. rewrite app_nil_r.
      split; [reflexivity|]. split; [reflexivity|].
      split; [intros j Hj; apply Hinv; unfold hi, lo in *; lia|].
      split; [intros e []|]. split; [intros _ Hn; discriminate|].
      split; [|intros H; contradiction].
      split; [intros _ sector poff plen [] | intros H; contradiction]. }
  destruct HX as (status1 & s1 & evs1 & EX & Htr1 & Hinv1 & Hev1 & Hdone1
                  & Hst1 & _).
  rewrite EX. clear EX.
  assert (HC1 : forall e, In e evs1 ->
              exists bl bh,
                prepares ino im base e from to (bl * bs) (bh * bs) /\
                cur <= bl < bh /\ bh <= lb + 1 /\
                (forall b, bl <= b < bh -> test_bit b bm0 = false) /\
                (bl * bs < from < bh * bs \/ bl * bs < to < bh * bs)).
  { intros e He. destruct (Hev1 e He) as [Hp Hn]. exists lo, hi.
    split; [exact Hp|]. split; [unfold hi, lo in *; lia|].
    split; [unfold hi, lo in *; lia|]. split; [exact Hclear0|].
    apply Hneed. exact Hn. }
  assert (HB1 : status1 = 0 ->
              forall b, cur <= b < hi ->
                b * bs < from \/ to < (b + 1) * bs ->
                test_bit b bm0 = false ->
                exists e bl bh,
                  In e evs1 /\ prepares ino im base e from to (bl * bs) (bh * bs) /\
                  bl <= b < bh).
  { intros Hst b Hb Hpart Hbit.
    destruct (Z.lt_ge_cases b lo) as [Hlt|Hge].
    { rewrite Hlead0 in Hbit by (unfold lo in *; lia). discriminate. }
    assert (Hn : need = true).
    { apply Hneed. destruct Hpart as [Hp|Hp]; [left | right]; nia. }
    destruct (Hdone1 Hst Hn) as (e & He & Hp).
    exists e, lo, hi. split; [exact He|]. split; [exact Hp | lia]. }
  destruct (Z.eqb_spec status1 0) as [Hst|Hst]; cbn [negb].
  2:{ exists status1, s1, evs1. split; [reflexivity|]. split; [exact Htr1|].
      split; [exact HC1|]. split; [intros Hz; contradiction | exact Hst1]. }
  subst status1.
  destruct (Z.ltb_spec (base + hi * bs) (base + (lb + 1) * bs)) as [Hmore|Hlast].
  - assert (Hhi : hi <= lb) by nia.
    destruct (IH hi s1 ltac:(unfold hi, lo in *; lia)
                ltac:(unfold hi, lo in *; nia) ltac:(unfold hi, lo in *; lia)
                Hinv1) as (status & s' & evs' & Erun & Htr' & HC' & HB' & HD').
    exists status, s', (evs1 ++ evs').
    split; [exact Erun|].
    split; [rewrite Htr', Htr1, app_assoc; reflexivity|].
    split; [|split].
    + intros e He. apply in_app_or in He. destruct He as [He|He].
      * apply HC1. exact He.
      * destruct (HC' e He) as (bl & bh & Hp & Hr & Hrest).
        exists bl, bh. split; [exact Hp|].
        split; [unfold hi, lo in *; lia | exact Hrest].
    + intros Hst b Hb Hpart Hbit.
      destruct (Z.lt_ge_cases b hi) as [Hlt|Hge].
      * destruct (HB1 eq_refl b ltac:(lia) Hpart Hbit)
          as (e & bl & bh & He & Hp & Hr).
        exists e, bl, bh. split; [apply in_or_app; left; exact He|].
        split; assumption.
      * destruct (HB' Hst b ltac:(lia) Hpart Hbit)
          as (e & bl & bh & He & Hp & Hr).
        exists e, bl, bh. split; [apply in_or_app; right; exact He|].
        split; assumption.
    + destruct Hst1 as [Hok1 _]. specialize (Hok1 eq_refl).
      destruct HD' as [Hok' Hfail']. split.
      * intros Hst sector poff plen Hin. apply in_app_or in Hin.
        destruct Hin as [Hin|Hin]; [apply (Hok1 _ _ _ Hin)|].
        apply (Hok' Hst _ _ _ Hin).
      * intros Hne.
        destruct (Hfail' Hne) as (evs0 & sector & poff & plen & -> & H0 & Hs).
        exists (evs1 ++ evs0), sector, poff, plen.
        split; [rewrite app_assoc; reflexivity|]. split; [|exact Hs].
        intros sec po pl Hin. apply in_app_or in Hin.
        destruct Hin as [Hin|Hin]; [apply (Hok1 _ _ _ Hin)|].
        apply (H0 _ _ _ Hin).
  - assert (Hhi : hi = lb + 1) by (unfold hi, lo in *; nia).
    exists 0, s1, evs1. split; [reflexivity|]. split; [exact Htr1|].
    split; [exact HC1|].
    split; [intros _ b Hb Hpart Hbit;
            apply (HB1 eq_refl b ltac:(lia) Hpart Hbit) | exact Hst1].
Qed.

End WriteBeginLoop.

Lemma mod_block_of_page_offset (ino : inode) (x : Z) :
  0 <= i_blkbits ino <= PAGE_SHIFT ->
  (x mod PAGE_SIZE) mod 2 ^ i_blkbits ino = x mod 2 ^ i_blkbits ino.
Proof.
  intros Hbits.
  assert (Hd : 0 <= PAGE_SHIFT - i_blkbits ino) by lia.
  assert (Hb : 0 <= i_blkbits ino) by lia.
  pose proof (pow2_pos _ Hb).
  pose proof (pow2_pos _ Hd).
  apply Z.mod_mod_divide.
  exists (2 ^ (PAGE_SHIFT - i_blkbits ino)). apply page_blocks. exact Hbits.
Qed.


(** ** Write completion of one segment *)

Lemma writeback_ends_app (t1 t2 : list event) :
  writeback_ends (t1 ++ t2) = (writeback_ends t1 + writeback_ends t2)%nat.
Proof. unfold writeback_ends. rewrite filter_app. apply length_app. Qed.

Lemma finish_page_writeback_step (error : Z) (s : pstate) (iop : iomap_page) :
  to_iomap_page (pg s) = Some iop ->
  0 < write_count iop < 2 ^ 31 ->
  exists iop',
    to_iomap_page (pg (iomap_finish_page_writeback error s)) = Some iop' /\
    write_count iop' = write_count iop - 1 /\
    uptodate iop' = uptodate iop /\
    writeback_ends (trace (iomap_finish_page_writeback error s))
    = (writeback_ends (trace s)
       + (if (write_count iop - 1 =? 0)%Z then 1 else 0))%nat /\
    PageWriteback (pg (iomap_finish_page_writeback error s))
    = (if write_count iop - 1 =? 0 then false else PageWriteback (pg s)) /\
    PageError (pg (iomap_finish_page_writeback error s))
    = (negb (error =? 0) || PageError (pg s)) /\
    (error <> 0 ->
     In (EvMappingSetError (- EIO))
        (trace (iomap_finish_page_writeback error s))) /\
    (forall e, In e (trace s) ->
               In e (trace (iomap_finish_page_writeback error s))).
Proof.
  intros Hiop Hc. unfold iomap_finish_page_writeback.
  set (s1 := if negb (error =? 0) then _ else s).
  assert (H1 : to_iomap_page (pg s1) = Some iop /\
               PageWriteback (pg s1) = PageWriteback (pg s) /\
               PageError (pg s1) = (negb (error =? 0) || PageError (pg s)) /\
               writeback_ends (trace s1) = writeback_ends (trace s) /\
               (error <> 0 -> In (EvMappingSetError (- EIO)) (trace s1)) /\
               (forall e, In e (trace s) -> In e (trace s1))).
  { unfold s1. destruct (Z.eqb_spec error 0) as [->|Hne]; cbn [negb].
    - repeat split; auto. intros; contradiction.
    - unfold mapping_set_error. change (- EIO =? 0) with false. cbv iota.
      unfold emit, with_page.
      cbn [pg trace to_iomap_page SetPageError PageWriteback PG_writeback
           PageError PG_error orb].
      split; [exact Hiop|]. split; [reflexivity|]. split; [reflexivity|].
      split; [rewrite writeback_ends_app; cbn; lia|].
      split; [intros _; apply in_or_app; right; left; reflexivity|].
      intros e He. apply in_or_app. left. exact He. }
  destruct H1 as (Hiop1 & Hwb1 & Herr1 & Hends1 & Hset1 & Hin1).
  rewrite Hiop1. unfold atomic_dec_and_test. rewrite s32_small by lia.
  exists (set_write_count iop (write_count iop - 1)).
  destruct (write_count iop - 1 =? 0);
    unfold end_page_writeback, emit, with_page;
    cbn [pg trace to_iomap_page set_iomap_page ClearPageWriteback write_count
         set_write_count uptodate PageWriteback PG_writeback PageError
         PG_error].
  - split; [reflexivity|]. split; [reflexivity|]. split; [reflexivity|].
    split; [rewrite writeback_ends_app, Hends1; reflexivity|].
    split; [reflexivity|]. split; [exact Herr1|].
    split; [intros Hne; apply in_or_app; left; apply Hset1; exact Hne|].
    intros e He. apply in_or_app. left. apply Hin1. exact He.
  - split; [reflexivity|]. split; [reflexivity|]. split; [reflexivity|].
    split; [rewrite Hends1; lia|].
    split; [exact Hwb1|]. split; [exact Herr1|]. split; [exact Hset1|].
    exact Hin1.
Qed.


(** ** Completions run at once *)

Lemma completed_refl (s : pstate) : completed s [] s.
Proof.
  unfold completed. rewrite app_nil_r.
  repeat (split; [first [reflexivity | constructor | auto]|]). left. reflexivity.
Qed.

Lemma completed_trans (s1 s2 s3 : pstate) (e1 e2 : list event) :
  completed s1 e1 s2 -> completed s2 e2 s3 -> completed s1 (e1 ++ e2) s3.
Proof.
  intros (T1 & F1 & I1 & L1 & D1 & U1 & E1 & W1)
         (T2 & F2 & I2 & L2 & D2 & U2 & E2 & W2).
  unfold completed.
  split; [rewrite T2, T1, app_assoc; reflexivity|].
  split; [apply Forall_app; split; assumption|].
  split; [congruence|]. split; [congruence|]. split; [congruence|].
  split; [congruence|]. split; [auto|].
  destruct W2 as [W2|W2]; [|right; apply in_or_app; right; exact W2].
  destruct W1 as [W1|W1]; [left; congruence|].
  right. apply in_or_app. left. exact W1.
Qed.

Lemma finish_page_writeback_any (error : Z) (s : pstate) :
  exists evs,
    completed s evs (iomap_finish_page_writeback error s) /\
    (error <> 0 ->
     PageError (pg (iomap_finish_page_writeback error s)) = true /\
     In (EvMappingSetError (- EIO)) evs).
Proof.
  unfold iomap_finish_page_writeback.
  set (s1 := if negb (error =? 0) then _ else s).
  assert (H1 : exists e1,
             completed s e1 s1 /\
             to_iomap_page (pg s1) = to_iomap_page (pg s) /\
             PageWriteback (pg s1) = PageWriteback (pg s) /\
             (error <> 0 -> PageError (pg s1) = true /\
                            In (EvMappingSetError (- EIO)) e1)).
  { unfold s1. destruct (Z.eqb_spec error 0) as [->|Hne]; cbn [negb].
    - exists []. split; [apply completed_refl|]. split; [reflexivity|].
      split; [reflexivity|]. intros H. contradiction.
    - exists [EvMappingSetError (- EIO)].
      unfold mapping_set_error. change (- EIO =? 0) with false. cbv iota.
      unfold completed, emit, with_page. cbn [pg trace].
      split.
      + split; [reflexivity|].
        split; [constructor; [reflexivity | constructor]|].
        split; [reflexivity|]. split; [reflexivity|]. split; [reflexivity|].
        split; [reflexivity|]. split; [intros _; reflexivity|].
        left. reflexivity.
      + split; [reflexivity|]. split; [reflexivity|].
        intros _. split; [reflexivity | left; reflexivity]. }
  destruct H1 as (e1 & Hc1 & Hiop1 & Hwb1 & Herr1).
  assert (Hend : forall s2,
             index (pg s2) = index (pg s1) ->
             PageLocked (pg s2) = PageLocked (pg s1) ->
             PageDirty (pg s2) = PageDirty (pg s1) ->
             PageUptodate (pg s2) = PageUptodate (pg s1) ->
             PageError (pg s2) = PageError (pg s1) ->
             trace s2 = trace s1 ->
             completed s1 [EvEndPageWriteback] (end_page_writeback s2) /\
             PageError (pg (end_page_writeback s2)) = PageError (pg s1)).
  { intros s2 Hi Hl Hd Hu He Ht.
    unfold completed, end_page_writeback, emit, with_page. cbn [pg trace].
    split; [|exact He].
    split; [rewrite Ht; reflexivity|].
    split; [constructor; [reflexivity | constructor]|].
    split; [exact Hi|]. split; [exact Hl|]. split; [exact Hd|].
    split; [exact Hu|].
    split; [intros H; cbn; rewrite <- H; exact He|].
    right. left. reflexivity. }
  destruct (to_iomap_page (pg s1)) as [iop|].
  - destruct (atomic_dec_and_test (write_count iop)) as [c zero].
    set (s2 := with_page s1 _).
    destruct zero.
    + destruct (Hend s2) as [Hc2 He2]; try reflexivity.
      exists (e1 ++ [EvEndPageWriteback]).
      split; [apply (completed_trans _ _ _ _ _ Hc1 Hc2)|].
      intros Hne. destruct (Herr1 Hne) as [He Hin].
      split; [rewrite He2; exact He | apply in_or_app; left; exact Hin].
    + exists e1. split.
      * destruct Hc1 as (T1 & F1 & I1 & L1 & D1 & U1 & E1 & W1).
        unfold completed. subst s2. cbn [pg trace with_page].
        split; [exact T1|]. split; [exact F1|]. split; [exact I1|].
        split; [exact L1|]. split; [exact D1|]. split; [exact U1|].
        split; [exact E1|]. exact W1.
      * intros Hne. destruct (Herr1 Hne) as [He Hin].
        split; [exact He | exact Hin].
  - destruct (Hend s1) as [Hc2 He2]; try reflexivity.
    exists (e1 ++ [EvEndPageWriteback]).
    split; [apply (completed_trans _ _ _ _ _ Hc1 Hc2)|].
    intros Hne. destruct (Herr1 Hne) as [He Hin].
    split; [rewrite He2; exact He | apply in_or_app; left; exact Hin].
Qed.

Lemma finish_segments_any (error : Z) (segs : list Z) :
  forall (s : pstate),
    exists evs,
      completed s evs (fold_left (finish_segment error) segs s) /\
      (error <> 0 -> In (index (pg s)) segs ->
       PageError (pg (fold_left (finish_segment error) segs s)) = true /\
       In (EvMappingSetError (- EIO)) evs).
Proof.
  induction segs as [|idx segs IH]; intros s.
  - exists []. split; [apply completed_refl|]. intros _ [].
  - cbn [fold_left].
    assert (H1 : exists e1,
               completed s e1 (finish_segment error s idx) /\
               (error <> 0 -> idx = index (pg s) ->
                PageError (pg (finish_segment error s idx)) = true /\
                In (EvMappingSetError (- EIO)) e1)).
    { unfold finish_segment. destruct (Z.eqb_spec idx (index (pg s))) as [E|E].
      - destruct (finish_page_writeback_any error s) as (e1 & Hc & He).
        exists e1. split; [exact Hc|]. intros Hne _. apply He. exact Hne.
      - exists [EvFinishPageWriteback idx (negb (error =? 0))].
        split; [|intros _ H; contradiction].
        unfold completed, emit. cbn [pg trace].
        split; [reflexivity|].
        split; [constructor; [reflexivity | constructor]|].
        repeat (split; [first [reflexivity | auto]|]). left. reflexivity. }
    destruct H1 as (e1 & Hc1 & He1).
    destruct (IH (finish_segment error s idx)) as (e2 & Hc2 & He2).
    exists (e1 ++ e2).
    split; [apply (completed_trans _ _ _ _ _ Hc1 Hc2)|].
    intros Hne [Hin|Hin].
    + destruct (He1 Hne Hin) as [He Hi].
      destruct Hc2 as (_ & _ & _ & _ & _ & _ & Hkeep & _).
      split; [apply Hkeep; exact He | apply in_or_app; left; exact Hi].
    + destruct Hc1 as (_ & _ & Hidx & _).
      rewrite <- Hidx in Hin.
      destruct (He2 Hne Hin) as [He Hi].
      split; [exact He | apply in_or_app; right; exact Hi].
Qed.

Lemma fold_left_segments (error : Z) (bios : list bio) :
  forall (s : pstate),
    fold_left (fun s b => fold_left (finish_segment error) (bi_io_vec b) s)
              bios s
    = fold_left (finish_segment error) (concat (map bi_io_vec bios)) s.
Proof.
  induction bios as [|b bios IH]; intros s; [reflexivity|].
  cbn [fold_left map concat]. rewrite fold_left_app. apply IH.
Qed.

Lemma finish_ioend_segments (ioend : iomap_ioend) (error : Z) (s : pstate) :
  iomap_finish_ioend ioend error s
  = fold_left (finish_segment error) (ioend_segments ioend) s.
Proof. unfold iomap_finish_ioend, ioend_segments. apply fold_left_segments. Qed.

(** * The claims *)

(** C8. For a page with a sub-block bitmap and an in-page range
    [off, off + len) with [len > 0], [iomap_set_range_uptodate] sets exactly
    the bits of the blocks that the range covers (a bit is set afterwards iff
    it was set before or its block intersects the range), and the page is
    uptodate afterwards iff it was already, or all bits covering the page are
    set after the call and the page does not carry the error flag. *)
Theorem set_range_uptodate_exact_bits
    (ino : inode) (p : page) (iop : iomap_page) (off len : Z) :
  0 <= i_blkbits ino <= PAGE_SHIFT -> PAGE_SHIFT < 32 ->
  to_iomap_page p = Some iop ->
  0 <= off -> 0 < len -> off + len <= PAGE_SIZE ->
  exists iop',
    to_iomap_page (iomap_set_range_uptodate ino p off len) = Some iop' /\
    (forall i, 0 <= i ->
       (test_bit i (uptodate iop') = true <->
        test_bit i (uptodate iop) = true \/
        (off < (i + 1) * i_blocksize ino /\ i * i_blocksize ino < off + len))) /\
    (PageUptodate (iomap_set_range_uptodate ino p off len) = true <->
     PageUptodate p = true \/
     ((forall i, 0 <= i < PAGE_SIZE / i_blocksize ino ->
                 test_bit i (uptodate iop') = true) /\
      PageError p = false)).
Proof. apply set_range_uptodate_spec. Qed.

(** C9. A page without a PageState (no bitmap: the block size equals the
    page size) that does not carry the error flag is marked uptodate as a
    whole by [iomap_set_range_uptodate] for any sub-range, even one that
    covers only part of the page. *)
Theorem set_range_uptodate_without_page_state
    (ino : inode) (p : page) (off len : Z) :
  to_iomap_page p = None ->
  PageError p = false ->
  PageUptodate (iomap_set_range_uptodate ino p off len) = true.
Proof.
  intros Hiop Herr. unfold iomap_set_range_uptodate.
  rewrite Hiop. cbn. rewrite Herr. reflexivity.
Qed.

(** C3. A short copy ([copied < len]) into a page that is not fully uptodate
    makes [__iomap_write_end] return 0, never a partial count, and leaves the
    page and the log as they were: no range is marked uptodate, the page is
    not dirtied. *)
Theorem write_end_short_copy_returns_zero
    (ino : inode) (pos len copied : Z) (s : pstate) :
  copied < len ->
  PageUptodate (pg s) = false ->
  __iomap_write_end ino pos len copied s = (0, s).
Proof.
  intros Hshort Hupt. unfold __iomap_write_end.
  apply Z.ltb_lt in Hshort. rewrite Hshort, Hupt. reflexivity.
Qed.

(** ** Read completion *)

Lemma set_range_uptodate_counts (ino : inode) (p : page) (off len : Z) :
  forall iop, to_iomap_page p = Some iop ->
  exists iop',
    to_iomap_page (iomap_set_range_uptodate ino p off len) = Some iop' /\
    read_count iop' = read_count iop /\ write_count iop' = write_count iop.
Proof.
  intros iop Hiop. unfold iomap_set_range_uptodate. rewrite Hiop.
  destruct (set_range_loop _ _ _ _ _ _) as [bm upt].
  exists (set_uptodate iop bm).
  destruct (upt && negb (PageError _)); cbn; auto.
Qed.

Lemma unlocks_app (t1 t2 : list event) :
  unlocks (t1 ++ t2) = (unlocks t1 + unlocks t2)%nat.
Proof. unfold unlocks. rewrite filter_app. apply length_app. Qed.

(** One completion: the counter drops by one, and the page is unlocked iff
    the decrement reaches zero. *)
Lemma read_page_end_io_step (ino : inode) (bvec : bio_vec) (error : Z)
    (s : pstate) (iop : iomap_page) :
  to_iomap_page (pg s) = Some iop ->
  0 < read_count iop < 2 ^ 31 ->
  exists iop',
    to_iomap_page (pg (iomap_read_page_end_io ino bvec error s)) = Some iop' /\
    read_count iop' = read_count iop - 1 /\
    unlocks (trace (iomap_read_page_end_io ino bvec error s))
    = (unlocks (trace s) + (if (read_count iop - 1 =? 0)%Z then 1 else 0))%nat.
Proof.
  intros Hiop Hc. unfold iomap_read_page_end_io.
  set (s1 := if negb (error =? 0) then _ else _).
  assert (H1 : exists iop1, to_iomap_page (pg s1) = Some iop1 /\
                            read_count iop1 = read_count iop /\
                            trace s1 = trace s).
  { unfold s1. destruct (negb (error =? 0)).
    - exists iop. cbn. auto.
    - destruct (set_range_uptodate_counts ino (pg s) (bv_offset bvec)
                  (bv_len bvec) iop Hiop) as (iop1 & Ha & Hb & _).
      exists iop1. cbn. auto. }
  destruct H1 as (iop1 & Hiop1 & Hrc & Htr).
  unfold iomap_read_finish. rewrite Hiop1. unfold atomic_dec_and_test.
  rewrite Hrc. rewrite s32_small by lia.
  exists (set_read_count iop1 (read_count iop - 1)).
  destruct (read_count iop - 1 =? 0);
    unfold unlock_page, emit, with_page;
    cbn [pg trace to_iomap_page set_iomap_page ClearPageLocked read_count
         set_read_count].
  - split; [reflexivity|]. split; [reflexivity|].
    rewrite unlocks_app, Htr. reflexivity.
  - split; [reflexivity|]. split; [reflexivity|]. rewrite Htr. lia.
Qed.

Lemma read_completions_app (ino : inode) (l1 l2 : list (bio_vec * Z))
    (s : pstate) :
  read_completions ino (l1 ++ l2) s
  = read_completions ino l2 (read_completions ino l1 s).
Proof.
  revert s. induction l1 as [|[bvec error] l1 IH]; intros s; cbn.
  - reflexivity.
  - apply IH.
Qed.

(** While completions are outstanding the page stays locked. *)
Lemma read_completions_pending (ino : inode) (l : list (bio_vec * Z)) :
  forall (s : pstate) (iop : iomap_page),
    to_iomap_page (pg s) = Some iop ->
    Z.of_nat (length l) < read_count iop < 2 ^ 31 ->
    exists iop',
      to_iomap_page (pg (read_completions ino l s)) = Some iop' /\
      read_count iop' = read_count iop - Z.of_nat (length l) /\
      unlocks (trace (read_completions ino l s)) = unlocks (trace s).
Proof.
  induction l as [|[bvec error] l IH]; intros s iop Hiop Hc.
  - exists iop. cbn. split; [exact Hiop|]. split; [lia|reflexivity].
  - cbn [read_completions]. cbn [length] in Hc.
    destruct (read_page_end_io_step ino bvec error s iop Hiop ltac:(lia))
      as (iop1 & Hiop1 & Hrc1 & Hun1).
    destruct (IH _ iop1 Hiop1 ltac:(lia)) as (iop2 & Hiop2 & Hrc2 & Hun2).
    exists iop2. split; [exact Hiop2|]. split; [cbn [length]; lia|].
    rewrite Hun2, Hun1.
    replace (read_count iop - 1 =? 0) with false
      by (symmetry; apply Z.eqb_neq; cbn [length] in Hc; lia).
    lia.
Qed.

Lemma read_completions_all (ino : inode) (l : list (bio_vec * Z))
    (s : pstate) (iop : iomap_page) :
  to_iomap_page (pg s) = Some iop ->
  l <> [] ->
  read_count iop = Z.of_nat (length l) ->
  read_count iop < 2 ^ 31 ->
  exists iop',
    to_iomap_page (pg (read_completions ino l s)) = Some iop' /\
    read_count iop' = 0 /\
    unlocks (trace (read_completions ino l s)) = S (unlocks (trace s)).
Proof.
  intros Hiop Hne Hc Hlt.
  destruct (exists_last Hne) as (l1 & [bvec error] & ->).
  rewrite length_app in Hc. cbn [length] in Hc.
  rewrite read_completions_app. cbn [read_completions].
  destruct (read_completions_pending ino l1 s iop Hiop ltac:(lia))
    as (iop1 & Hiop1 & Hrc1 & Hun1).
  destruct (read_page_end_io_step ino bvec error _ iop1 Hiop1 ltac:(lia))
    as (iop2 & Hiop2 & Hrc2 & Hun2).
  exists iop2. split; [exact Hiop2|]. split; [lia|].
  rewrite Hun2, Hun1.
  replace (read_count iop1 - 1 =? 0) with true
    by (symmetry; apply Z.eqb_eq; lia).
  lia.
Qed.

(** C6. A page whose read was split into [N >= 1] sub-ranges starts with
    [read_count = N].  Each completion decrements the counter once and unlocks
    the page iff the decrement reaches zero; the page is not unlocked while
    completions are outstanding, and once all [N] completions have run, in
    whatever order, it has been unlocked exactly once and the counter is 0. *)
Theorem read_completions_unlock_exactly_once
    (ino : inode) (l : list (bio_vec * Z)) (s : pstate) (iop : iomap_page) :
  to_iomap_page (pg s) = Some iop ->
  l <> [] ->
  read_count iop = Z.of_nat (length l) ->
  read_count iop < 2 ^ 31 ->
  (forall bvec error s0 iop0,
      to_iomap_page (pg s0) = Some iop0 ->
      0 < read_count iop0 < 2 ^ 31 ->
      exists iop1,
        to_iomap_page (pg (iomap_read_page_end_io ino bvec error s0)) = Some iop1 /\
        read_count iop1 = read_count iop0 - 1 /\
        (unlocks (trace (iomap_read_page_end_io ino bvec error s0))
         = S (unlocks (trace s0)) <-> read_count iop1 = 0) /\
        (unlocks (trace (iomap_read_page_end_io ino bvec error s0))
         = unlocks (trace s0) <-> read_count iop1 <> 0)) /\
  (forall l1 l2, l = l1 ++ l2 -> l2 <> [] ->
      unlocks (trace (read_completions ino l1 s)) = unlocks (trace s)) /\
  (forall l', Permutation l l' ->
      unlocks (trace (read_completions ino l' s)) = S (unlocks (trace s)) /\
      exists iop',
        to_iomap_page (pg (read_completions ino l' s)) = Some iop' /\
        read_count iop' = 0).
Proof.
  intros Hiop Hne Hc Hlt. split; [|split].
  - intros bvec error s0 iop0 Hiop0 Hc0.
    destruct (read_page_end_io_step ino bvec error s0 iop0 Hiop0 Hc0)
      as (iop1 & Hiop1 & Hrc1 & Hun1).
    exists iop1. split; [exact Hiop1|]. split; [exact Hrc1|].
    rewrite Hun1, Hrc1.
    destruct (Z.eqb_spec (read_count iop0 - 1) 0); split; split; intros; lia.
  - intros l1 l2 -> Hl2.
    rewrite length_app in Hc.
    assert (0 < length l2)%nat by (destruct l2; [congruence | cbn; lia]).
    destruct (read_completions_pending ino l1 s iop Hiop ltac:(lia))
      as (_ & _ & _ & Hun).
    exact Hun.
  - intros l' Hperm.
    assert (Hne' : l' <> []).
    { intros ->. apply Permutation_sym, Permutation_nil in Hperm. contradiction. }
    pose proof (Permutation_length Hperm) as Hlen.
    destruct (read_completions_all ino l' s iop Hiop Hne' ltac:(lia) Hlt)
      as (iop' & Hiop' & Hrc' & Hun').
    split; [exact Hun'|]. exists iop'. auto.
Qed.

(** ** Ioend merging *)

Lemma iomap_type_eqb_eq (a b : iomap_type) :
  iomap_type_eqb a b = true <-> a = b.
Proof. destruct a, b; cbn; split; congruence. Qed.

Lemma can_merge_spec (ioend next : iomap_ioend) :
  ioend_wf ioend -> ioend_wf next ->
  (iomap_ioend_can_merge ioend next = true <->
   bi_status (io_bio ioend) = bi_status (io_bio next) /\
   Z.land (io_flags ioend) IOMAP_F_SHARED
   = Z.land (io_flags next) IOMAP_F_SHARED /\
   (io_type ioend = IOMAP_UNWRITTEN <-> io_type next = IOMAP_UNWRITTEN) /\
   io_offset ioend + io_size ioend = io_offset next).
Proof.
  intros (Ho & Hs & Hlt) (Ho' & Hs' & Hlt').
  unfold iomap_ioend_can_merge.
  rewrite (u64_small (io_offset ioend + io_size ioend)) by lia.
  rewrite (u64_small (io_offset next)) by lia.
  destruct (Z.eqb_spec (bi_status (io_bio ioend)) (bi_status (io_bio next)))
    as [Hst|Hst]; cbn [negb]; [|split; [discriminate | tauto]].
  destruct (Z.eqb_spec (Z.lxor (Z.land (io_flags ioend) IOMAP_F_SHARED)
                               (Z.land (io_flags next) IOMAP_F_SHARED)) 0)
    as [Hfl|Hfl]; cbn [negb].
  2:{ split; [discriminate|]. intros (_ & Hf & _). rewrite Hf in Hfl.
      rewrite Z.lxor_nilpotent in Hfl. congruence. }
  apply Z.lxor_eq in Hfl.
  pose proof (iomap_type_eqb_eq (io_type ioend) IOMAP_UNWRITTEN) as Ht1.
  pose proof (iomap_type_eqb_eq (io_type next) IOMAP_UNWRITTEN) as Ht2.
  destruct (iomap_type_eqb (io_type ioend) IOMAP_UNWRITTEN),
           (iomap_type_eqb (io_type next) IOMAP_UNWRITTEN); cbn [xorb];
    try (split; [discriminate|]; intros (_ & _ & Ht & _);
         destruct Ht1, Ht2, Ht; intuition congruence).
  - destruct (Z.eqb_spec (io_offset ioend + io_size ioend) (io_offset next));
      cbn [negb]; split; try discriminate; try tauto; intuition congruence.
  - destruct (Z.eqb_spec (io_offset ioend + io_size ioend) (io_offset next));
      cbn [negb]; split; try discriminate; try tauto; intuition congruence.
Qed.

Lemma try_merge_spec (more : list iomap_ioend)
    (hook : option (Z -> Z -> Z * Z)) :
  forall ioend ioend' merged rest,
    ioend_wf ioend -> Forall ioend_wf more ->
    iomap_ioend_try_merge ioend more hook = (ioend', merged, rest) ->
    map ioend_range merged ++ map ioend_range rest = map ioend_range more /\
    io_offset ioend' = io_offset ioend /\
    io_size ioend' = io_size ioend + total_size merged /\
    ioend_wf ioend' /\
    (forall p, ioend_covers ioend' p <->
               ioend_covers ioend p \/ Exists (fun n => ioend_covers n p) merged).
Proof.
  induction more as [|next more IH]; intros ioend ioend' merged rest Hwf Hall E.
  - cbn in E. injection E as <- <- <-.
    split; [reflexivity|]. split; [reflexivity|]. split; [cbn; lia|].
    split; [exact Hwf|].
    intros p. split; [intros Hp; now left | intros [Hp|Hp]; [exact Hp | inversion Hp]].
  - cbn [iomap_ioend_try_merge] in E.
    inversion Hall as [|? ? Hwfn Hall']; subst.
    destruct (iomap_ioend_can_merge ioend next) eqn:Hcm; cbn [negb] in E.
    2:{ injection E as <- <- <-.
    split; [reflexivity|]. split; [reflexivity|]. split; [cbn; lia|].
    split; [exact Hwf|].
    intros p. split; [intros Hp; now left | intros [Hp|Hp]; [exact Hp | inversion Hp]]. }
    apply (can_merge_spec ioend next Hwf Hwfn) in Hcm.
    destruct Hcm as (_ & _ & _ & Hadj).
    destruct Hwf as (Ho & Hs & Hlt). destruct Hwfn as (Ho' & Hs' & Hlt').
    set (ioend1 := set_io_size ioend (u64 (io_size ioend + io_size next))) in E.
    assert (Hsz1 : io_size ioend1 = io_size ioend + io_size next).
    { unfold ioend1. cbn. apply u64_small. lia. }
    assert (Hoff1 : io_offset ioend1 = io_offset ioend) by reflexivity.
    match type of E with
    | (let '(a, b) := ?X in _) = _ => destruct X as [ioend2 next1] eqn:Eh
    end.
    assert (Hh : io_offset ioend2 = io_offset ioend /\
                 io_size ioend2 = io_size ioend + io_size next /\
                 io_offset next1 = io_offset next /\
                 io_size next1 = io_size next).
    { destruct hook as [h|].
      - destruct (negb (io_private next =? 0)).
        + destruct (h (io_private ioend1) (io_private next)) as [a b].
          injection Eh as <- <-. cbn. rewrite u64_small by lia. auto.
        + injection Eh as <- <-. rewrite Hsz1. auto.
      - injection Eh as <- <-. rewrite Hsz1. auto. }
    destruct Hh as (Hoff2 & Hsz2 & Hoffn & Hszn).
    assert (Hrg : ioend_range next1 = ioend_range next)
      by (unfold ioend_range; congruence).
    assert (Hcov : forall p, ioend_covers next1 p <-> ioend_covers next p)
      by (intros p; unfold ioend_covers; rewrite Hoffn, Hszn; tauto).
    destruct (iomap_ioend_try_merge ioend2 more hook)
      as [[ioend3 merged'] rest'] eqn:Erec.
    injection E as <- <- <-.
    assert (Hwf2 : ioend_wf ioend2) by (unfold ioend_wf; lia).
    destruct (IH ioend2 ioend3 merged' rest' Hwf2 Hall' Erec)
      as (Hmap & Hoff3 & Hsz3 & Hwf3 & Hcov3).
    split; [cbn; rewrite Hrg, Hmap; reflexivity|].
    split; [lia|]. split; [cbn [total_size fold_right]; fold (total_size merged'); lia|].
    split; [exact Hwf3|].
    intros p. rewrite Hcov3. rewrite Exists_cons. rewrite Hcov.
    unfold ioend_covers. rewrite Hoff2, Hsz2. intuition lia.
Qed.

(** C1 (as amended).  For ioends whose byte ranges lie in the non-negative
    half of [loff_t], [iomap_ioend_can_merge] returns true exactly when the bio
    statuses are equal, the two ioends agree on the Shared flag (the other
    flag bits are not compared), they agree on whether their type is
    Unwritten, and the first ioend's offset plus its size equals the second
    ioend's offset.  [iomap_ioend_try_merge] moves a prefix of the successor
    list onto the ioend, leaves the rest in place, keeps the ioend's offset,
    adds the sizes of the merged successors to its size, and the bytes the
    grown ioend covers are exactly the bytes covered before by the ioend and
    by the merged successors. *)
Theorem ioend_merge_criteria_and_growth
    (ioend : iomap_ioend) (more : list iomap_ioend)
    (hook : option (Z -> Z -> Z * Z))
    (ioend' : iomap_ioend) (merged rest : list iomap_ioend) :
  ioend_wf ioend -> Forall ioend_wf more ->
  iomap_ioend_try_merge ioend more hook = (ioend', merged, rest) ->
  (forall a b, ioend_wf a -> ioend_wf b ->
     (iomap_ioend_can_merge a b = true <->
      bi_status (io_bio a) = bi_status (io_bio b) /\
      Z.land (io_flags a) IOMAP_F_SHARED = Z.land (io_flags b) IOMAP_F_SHARED /\
      (io_type a = IOMAP_UNWRITTEN <-> io_type b = IOMAP_UNWRITTEN) /\
      io_offset a + io_size a = io_offset b)) /\
  map ioend_range merged ++ map ioend_range rest = map ioend_range more /\
  io_offset ioend' = io_offset ioend /\
  io_size ioend' = io_size ioend + total_size merged /\
  (forall p, ioend_covers ioend' p <->
             ioend_covers ioend p \/ Exists (fun n => ioend_covers n p) merged).
Proof.
  intros Hwf Hall E. split; [intros a b; apply can_merge_spec|].
  destruct (try_merge_spec more hook ioend ioend' merged rest Hwf Hall E)
    as (H1 & H2 & H3 & _ & H5).
  auto.
Qed.

(** ** Zeroing over holes and unwritten extents *)

Section ZeroingProps.
Variable Store : Type.
Variable iomap_zero : inode -> Z -> Z -> Z -> iomap -> Store -> Z * Store.
Variable iomap_dax_zero : Z -> Z -> Z -> iomap -> Store -> Z * Store.

Lemma zero_actor_skips (fuel : nat) (ino : inode) (pos count : Z) (im : iomap)
    (zs : zstate Store) :
  logically_zero im ->
  iomap_zero_range_actor Store iomap_zero iomap_dax_zero fuel ino pos count im zs
  = Some (count, zs).
Proof.
  intros [H|H]; unfold iomap_zero_range_actor; rewrite H; reflexivity.
Qed.

Lemma apply_over_zero_extents (mapBlocks : inode -> Z -> Z + iomap)
    (ino : inode) (n : nat) (zs : zstate Store) (fuel : nat) :
  forall pos len done,
    0 <= len -> (Z.to_nat len < fuel)%nat ->
    (forall p, pos <= p < pos + len ->
       exists im, mapBlocks ino p = inr im /\ logically_zero im /\
                  iomap_offset im <= p < iomap_offset im + iomap_length im) ->
    iomap_apply_from fuel mapBlocks
      (iomap_zero_range_actor Store iomap_zero iomap_dax_zero n) ino
      pos len done zs
    = Some (done + len, zs).
Proof.
  induction fuel as [|fuel IH]; intros pos len done Hlen Hfuel Hmap; [lia|].
  cbn [iomap_apply_from].
  destruct (Z.leb_spec len 0) as [Hz|Hpos].
  - f_equal. f_equal. lia.
  - destruct (Hmap pos ltac:(lia)) as (im & Him & Hzero & Hin).
    rewrite Him. rewrite zero_actor_skips by exact Hzero.
    set (r := Z.min len (iomap_offset im + iomap_length im - pos)).
    assert (Hr : 0 < r <= len) by (unfold r; lia).
    replace (r <? 0) with false by (symmetry; apply Z.ltb_ge; lia).
    replace (r =? 0) with false by (symmetry; apply Z.eqb_neq; lia).
    rewrite IH; [f_equal; f_equal; lia | lia | lia |].
    intros p Hp. apply Hmap. lia.
Qed.
End ZeroingProps.

(** C4. When every position of the range is mapped by a Hole or Unwritten
    extent, the zeroing actor returns the full count it was given without
    calling the page cache or the device (the store and [did_zero] are
    untouched, whatever the fuel), and [iomap_zero_range] over the range
    returns 0, again with the store untouched. *)
Theorem zero_range_over_zero_extents_is_free
    (Store : Type)
    (iomap_zero : inode -> Z -> Z -> Z -> iomap -> Store -> Z * Store)
    (iomap_dax_zero : Z -> Z -> Z -> iomap -> Store -> Z * Store)
    (mapBlocks : inode -> Z -> Z + iomap)
    (ino : inode) (pos len : Z) (zs : zstate Store) :
  0 <= pos -> 0 <= len -> pos + len < 2 ^ 63 ->
  (forall p, pos <= p < pos + len ->
     exists im, mapBlocks ino p = inr im /\ logically_zero im /\
                iomap_offset im <= p < iomap_offset im + iomap_length im) ->
  (forall fuel p count im zs',
     logically_zero im ->
     iomap_zero_range_actor Store iomap_zero iomap_dax_zero fuel ino p count
                            im zs'
     = Some (count, zs')) /\
  (forall fuel, (Z.to_nat len < fuel)%nat ->
     iomap_zero_range Store iomap_zero iomap_dax_zero fuel mapBlocks ino
                      pos len zs
     = Some (0, zs)).
Proof.
  intros Hpos Hlen Hmax Hmap. split.
  - intros fuel p count im zs' Hz. apply zero_actor_skips. exact Hz.
  - intros fuel Hfuel. unfold iomap_zero_range.
    destruct fuel as [|fuel']; [lia|].
    cbn [zero_range_walk].
    destruct (Z.ltb_spec 0 len) as [Hl|Hl]; [|reflexivity].
    unfold iomap_apply.
    rewrite (apply_over_zero_extents Store iomap_zero iomap_dax_zero mapBlocks
               ino (S fuel') zs (S fuel') pos len 0 Hlen Hfuel Hmap).
    replace (0 + len <=? 0) with false by (symmetry; apply Z.leb_gt; lia).
    destruct fuel' as [|fuel'']; [lia|].
    cbn [zero_range_walk].
    replace (s64 (len - (0 + len))) with 0
      by (replace (len - (0 + len)) with 0 by lia; reflexivity).
    reflexivity.
Qed.

(** ** Reading one page *)

Section ReadpageProps.
Variable apply_readpage_actor : Z -> Z -> rstate -> Z * rstate.

Lemma readpage_loop_terminates (fuel : nat) :
  forall poff st,
    0 <= PAGE_SHIFT < 32 ->
    (forall pos len st0, fst (apply_readpage_actor pos len st0) <= len) ->
    0 <= poff <= PAGE_SIZE ->
    (Z.to_nat (PAGE_SIZE - poff) < fuel)%nat ->
    exists st', readpage_loop apply_readpage_actor fuel poff st = Some st'.
Proof.
  induction fuel as [|fuel IH]; intros poff st Hps Hle Hpoff Hfuel; [lia|].
  cbn [readpage_loop].
  assert (Hlt : PAGE_SIZE < 2 ^ 32).
  { rewrite PAGE_SIZE_pow2 by lia. apply Z.pow_lt_mono_r; lia. }
  destruct (Z.ltb_spec poff PAGE_SIZE) as [Hin|Hout]; [|eauto].
  pose proof (Hle (s64 (page_offset (pg (rps st)) + poff)) (PAGE_SIZE - poff) st)
    as Hret.
  destruct (apply_readpage_actor _ _ st) as [ret st1]. cbn [fst] in Hret.
  destruct (Z.leb_spec ret 0) as [Hfail|Hok]; [eauto|].
  rewrite u32_small by lia.
  apply IH; try assumption; lia.
Qed.

Lemma readpage_loop_failure (fuel : nat) :
  forall poff st st',
    readpage_loop apply_readpage_actor fuel poff st = Some st' ->
    readpage_fails apply_readpage_actor fuel poff st = true ->
    PageError (pg (rps st')) = true.
Proof.
  induction fuel as [|fuel IH]; intros poff st st' Hrun Hfail; [discriminate|].
  cbn [readpage_loop readpage_fails] in Hrun, Hfail.
  destruct (poff <? PAGE_SIZE); [|discriminate].
  destruct (apply_readpage_actor _ _ st) as [ret st1].
  destruct (ret <=? 0).
  - injection Hrun as <-. reflexivity.
  - eapply IH; eassumption.
Qed.

End ReadpageProps.

(** C10. [iomap_readpage] never returns anything but 0.  When every call of
    the applicator returns at most the length it was asked for, the page is
    walked in at most [PAGE_SIZE] calls and the function returns 0; if a call
    failed on the way (returned a value [<= 0]), the page carries the error
    flag on return, and the return value is 0 all the same. *)
Theorem readpage_always_returns_zero
    (apply_readpage_actor : Z -> Z -> rstate -> Z * rstate) (s : pstate) :
  0 <= PAGE_SHIFT < 32 ->
  (forall pos len st, fst (apply_readpage_actor pos len st) <= len) ->
  (forall fuel ret s',
     iomap_readpage apply_readpage_actor fuel s = Some (ret, s') -> ret = 0) /\
  exists s',
    iomap_readpage apply_readpage_actor (S (Z.to_nat PAGE_SIZE)) s
    = Some (0, s') /\
    (readpage_fails apply_readpage_actor (S (Z.to_nat PAGE_SIZE)) 0
                    (mkRstate (mkRctx false false None) s) = true ->
     PageError (pg s') = true).
Proof.
  intros Hps Hle. split.
  - intros fuel ret s'. unfold iomap_readpage.
    destruct (readpage_loop _ _ _ _) as [st|]; [|discriminate].
    destruct (ctx_bio (rctx st)); intros H; injection H as <- _; reflexivity.
  - assert (Hpos : 0 < PAGE_SIZE)
      by (rewrite PAGE_SIZE_pow2 by lia; apply pow2_pos; lia).
    destruct (readpage_loop_terminates apply_readpage_actor
                (S (Z.to_nat PAGE_SIZE)) 0
                (mkRstate (mkRctx false false None) s) Hps Hle
                ltac:(lia) ltac:(rewrite Z.sub_0_r; lia)) as [st Hst].
    pose proof (readpage_loop_failure apply_readpage_actor _ _ _ _ Hst) as Hf.
    unfold iomap_readpage. rewrite Hst.
    destruct (ctx_bio (rctx st)).
    + eexists. split; [reflexivity|]. exact Hf.
    + eexists. split; [reflexivity|]. exact Hf.
Qed.

(** ** Writeback of one page *)

Section WritebackProps.
Context {blk : BlockLayer}.
Variable ops : iomap_writeback_ops.




Lemma completion_events_silent (evs : list event) :
  Forall (fun e => is_completion_event e = true) evs ->
  filter is_bio_event evs = [] /\ unlocks evs = 0%nat /\
  filter is_unlock evs = [].
Proof.
  induction 1 as [|e evs He _ IH]; [repeat split|].
  destruct IH as (H1 & H2 & H3). unfold unlocks in *.
  destruct e; try discriminate He; cbn; rewrite ?H1, ?H3; repeat split.
Qed.


(** One call of [iomap_submit_ioend]: the ioend goes to the device, or it is
    ended with the error; its completion then runs at once unless chained
    bios hold it back. *)
Lemma submit_ioend_cases (ioend : iomap_ioend) (error : Z) (s : pstate) :
  exists e evs,
    e = match submit_ioend ops with
        | Some hook => hook ioend error
        | None => error
        end /\
    fst (iomap_submit_ioend ops ioend error s) = e /\
    completed (emit (submit_event ops error ioend) s) evs
              (snd (iomap_submit_ioend ops ioend error s)) /\
    (e <> 0 ->
     snd (iomap_submit_ioend ops ioend error s)
     = if completes_at_once ioend
       then fold_left (finish_segment e) (ioend_segments ioend)
                      (emit (EvBioEndio (io_bio ioend) e) s)
       else emit (EvBioEndio (io_bio ioend) e) s) /\
    (e <> 0 -> completes_at_once ioend = true ->
     In (index (pg s)) (ioend_segments ioend) ->
     PageError (pg (snd (iomap_submit_ioend ops ioend error s))) = true /\
     In (EvMappingSetError (- EIO)) evs).
Proof.
  unfold iomap_submit_ioend, submit_event, bio_endio, iomap_writepage_end_bio.
  set (e := match submit_ioend ops with
            | Some hook => hook ioend error
            | None => error
            end).
  destruct (Z.eqb_spec e 0) as [E|E]; cbn [negb fst snd].
  - exists e, []. split; [reflexivity|]. split; [symmetry; exact E|].
    split; [apply completed_refl|]. split; intros H; contradiction.
  - destruct (completes_at_once ioend).
    + rewrite finish_ioend_segments.
      destruct (finish_segments_any e (ioend_segments ioend)
                  (emit (EvBioEndio (io_bio ioend) e) s)) as (evs & Hc & He).
      exists e, evs. split; [reflexivity|]. split; [reflexivity|].
      split; [exact Hc|]. split; [reflexivity|].
      intros _ _ Hin. apply He; [exact E | exact Hin].
    + exists e, []. split; [reflexivity|]. split; [reflexivity|].
      split; [apply completed_refl|]. split; [reflexivity|].
      intros _ H. discriminate H.
Qed.

(** The submit loop when it starts with an error: the error is kept, every
    ioend is handed the error, and the page only sees completions. *)
Lemma submit_all_failed (l : list iomap_ioend) (error : Z) :
  error <> 0 ->
  forall (s : pstate),
    exists s' evs,
      submit_all ops l error s = (error, s') /\
      trace s' = trace s ++ evs /\
      filter is_bio_event evs = map (submit_event ops error) l /\
      Forall (fun x => is_bio_event x = true \/ is_completion_event x = true)
             evs /\
      unlocks evs = 0%nat /\
      index (pg s') = index (pg s) /\
      PageLocked (pg s') = PageLocked (pg s) /\
      PageDirty (pg s') = PageDirty (pg s) /\
      PageUptodate (pg s') = PageUptodate (pg s) /\
      (PageError (pg s) = true -> PageError (pg s') = true) /\
      (PageWriteback (pg s') = PageWriteback (pg s) \/
       In EvEndPageWriteback evs) /\
      (submit_ioend ops = None ->
       (exists e, In e l /\ completes_at_once e = true /\
                  In (index (pg s)) (ioend_segments e)) ->
       PageError (pg s') = true /\ In (EvMappingSetError (- EIO)) evs).
Proof.
  intros Herr. induction l as [|ioend l IH]; intros s.
  - exists s, []. cbn. rewrite app_nil_r.
    do 3 (split; [reflexivity|]). split; [constructor|].
    do 5 (split; [reflexivity|]). split; [auto|].
    split; [left; reflexivity|]. intros _ (e & [] & _).
  - cbn [submit_all map].
    destruct (submit_ioend_cases ioend error s)
      as (e & ev1 & He & Hfst & Hc & _ & Hflag).
    destruct (iomap_submit_ioend ops ioend error s) as [error2 s1].
    cbn [fst snd] in Hfst, Hc, Hflag.
    replace (if negb (error2 =? 0) && (error =? 0) then error2 else error)
      with error
      by (apply Z.eqb_neq in Herr; rewrite Herr, andb_false_r; reflexivity).
    destruct (IH s1) as (s' & ev2 & Erun & Htr & Hbio & Hall & Hun & Hidx & Hl
                         & Hd & Hu & Hkeep & Hwb & Hflag2).
    destruct Hc as (T1 & F1 & I1 & L1 & D1 & U1 & E1 & W1).
    cbn [emit pg trace] in T1, I1, L1, D1, U1, E1, W1.
    destruct (completion_events_silent ev1 F1) as (Hb1 & Hu1 & _).
    exists s', ([submit_event ops error ioend] ++ ev1 ++ ev2).
    split; [exact Erun|].
    split; [rewrite Htr, T1, <- !app_assoc; reflexivity|].
    split.
    { rewrite !filter_app, Hb1, Hbio. cbn [filter app].
      unfold submit_event at 1.
      destruct (_ =? 0); reflexivity. }
    split.
    { apply Forall_app. split.
      - constructor; [|constructor]. left. unfold submit_event.
        destruct (_ =? 0); reflexivity.
      - apply Forall_app. split; [|exact Hall].
        eapply Forall_impl; [|exact F1]. intros a Ha. right. exact Ha. }
    split.
    { unfold unlocks in *. rewrite !filter_app, !length_app, Hu1, Hun.
      unfold submit_event. destruct (_ =? 0); reflexivity. }
    split; [congruence|]. split; [congruence|]. split; [congruence|].
    split; [congruence|]. split; [auto|].
    split.
    { destruct Hwb as [Hwb|Hwb];
        [|right; apply in_or_app; right; apply in_or_app; right; exact Hwb].
      destruct W1 as [W1|W1]; [left; congruence|].
      right. apply in_or_app. right. apply in_or_app. left. exact W1. }
    intros Hnone (x & [<-|Hin] & Hnow & Hseg).
    + assert (He0 : e <> 0) by (rewrite He, Hnone; exact Herr).
      destruct (Hflag He0 Hnow Hseg) as [Hpe Hmse].
      split; [apply Hkeep; exact Hpe|].
      apply in_or_app. right. apply in_or_app. left. exact Hmse.
    + destruct (Hflag2 Hnone) as [Hpe Hmse].
      { exists x. split; [exact Hin|]. split; [exact Hnow|].
        rewrite I1. exact Hseg. }
      split; [exact Hpe|].
      apply in_or_app. right. apply in_or_app. right. exact Hmse.
Qed.



End WritebackProps.


(** C7 (as amended).  On a page that is not fully uptodate,
    [__iomap_write_begin] for a write window [from, to) inside the page
    returns, and it prepares contiguous runs of blocks that are not uptodate:
    a run is prepared only if an edge of the window falls strictly inside it.
    How a run is prepared is decided by the extent: when
    [iomap_block_needs_zeroing] holds at the first block of the run (the
    extent is not Mapped, or is flagged New, or the block lies at or beyond
    the end of the file) the parts of the run outside the window are
    zero-filled and nothing is read; otherwise the whole run is read from
    the device in one synchronous read at the sector the extent gives for
    it, including the blocks of the run that lie fully inside the window.
    When the function returns 0, every read succeeded and every block that
    overlaps the window, is not fully contained in it and was not uptodate
    lies in a run that was prepared in this way.  A read that fails stops
    the preparation: it is the last thing done and its status is returned.
    Runs that lie entirely inside the window are neither read nor zeroed. *)
Theorem write_begin_prepares_partial_blocks
    (submit_bio_wait : Z -> Z -> Z -> Z) (fuel : nat) (ino : inode)
    (pos len : Z) (im : iomap) (s : pstate) :
  0 <= i_blkbits ino <= PAGE_SHIFT -> PAGE_SHIFT < 31 ->
  0 <= pos -> pos + PAGE_SIZE < 2 ^ 62 ->
  0 < len -> offset_in_page pos + len <= PAGE_SIZE ->
  PageUptodate (pg s) = false ->
  (Z.to_nat (PAGE_SIZE / i_blocksize ino) <= fuel)%nat ->
  exists status s' evs,
    __iomap_write_begin fuel submit_bio_wait ino pos len im s
    = Some (status, s') /\
    trace s' = trace s ++ evs /\
    (forall e, In e evs ->
       exists bl bh,
         prepares ino im (pos - offset_in_page pos) e
                  (offset_in_page pos) (offset_in_page pos + len)
                  (bl * i_blocksize ino) (bh * i_blocksize ino) /\
         bl < bh /\
         (forall b, bl <= b < bh ->
            test_bit b (bitmap_of (to_iomap_page
                                     (iomap_page_create ino (pg s)))) = false) /\
         (bl * i_blocksize ino < offset_in_page pos < bh * i_blocksize ino \/
          bl * i_blocksize ino < offset_in_page pos + len
          < bh * i_blocksize ino)) /\
    (status = 0 ->
     forall b,
       b * i_blocksize ino < offset_in_page pos + len ->
       offset_in_page pos < (b + 1) * i_blocksize ino ->
       b * i_blocksize ino < offset_in_page pos \/
       offset_in_page pos + len < (b + 1) * i_blocksize ino ->
       test_bit b (bitmap_of (to_iomap_page
                                (iomap_page_create ino (pg s)))) = false ->
       exists e bl bh,
         In e evs /\
         prepares ino im (pos - offset_in_page pos) e
                  (offset_in_page pos) (offset_in_page pos + len)
                  (bl * i_blocksize ino) (bh * i_blocksize ino) /\
         bl <= b < bh) /\
    status_of_reads submit_bio_wait evs status.
Proof.
  intros Hbits Hps Hpos Hmax Hlen Hfit Hupt Hfuel.
  rewrite i_blocksize_pow2 in * by lia.
  rewrite offset_in_page_mod in * by lia.
  set (bs := 2 ^ i_blkbits ino) in *.
  set (from := pos mod PAGE_SIZE) in *.
  assert (Hbs : 0 < bs) by (apply pow2_pos; lia).
  assert (Hpg : PAGE_SIZE = 2 ^ PAGE_SHIFT) by (apply PAGE_SIZE_pow2; lia).
  assert (Hpgpos : 0 < PAGE_SIZE) by (rewrite Hpg; apply pow2_pos; lia).
  assert (Hpglt : PAGE_SIZE < 2 ^ 31)
    by (rewrite Hpg; apply Z.pow_lt_mono_r; lia).
  pose proof (page_blocks ino Hbits) as Hnb. fold bs in Hnb.
  set (nb := 2 ^ (PAGE_SHIFT - i_blkbits ino)) in *.
  assert (Hnbpos : 0 < nb) by (apply pow2_pos; lia).
  assert (Hbsle : bs <= PAGE_SIZE).
  { rewrite Hnb. replace bs with (1 * bs) at 1 by ring.
    apply Z.mul_le_mono_nonneg_r; lia. }
  pose proof (Z.mod_pos_bound pos PAGE_SIZE Hpgpos) as Hfrom. fold from in Hfrom.
  set (base := pos - from).
  assert (Hbase : base = PAGE_SIZE * (pos / PAGE_SIZE)).
  { assert (Hne : PAGE_SIZE <> 0) by lia.
    unfold base, from. pose proof (Z.div_mod pos PAGE_SIZE Hne). lia. }
  assert (Hbase0 : 0 <= base).
  { rewrite Hbase. apply Z.mul_nonneg_nonneg; [lia|]. apply Z.div_pos; lia. }
  assert (Hbasepg : base mod PAGE_SIZE = 0).
  { rewrite Hbase, Z.mul_comm. apply Z.mod_mul. lia. }
  assert (Hbasebs : exists qb, base = qb * bs).
  { exists (pos / PAGE_SIZE * nb). rewrite Hbase, Hnb. ring. }
  destruct Hbasebs as [qb Hqb].
  set (fb := from / bs). set (lb := (from + len - 1) / bs).
  pose proof (proj1 (block_index_spec from bs fb Hbs) eq_refl) as Hfb.
  pose proof (proj1 (block_index_spec (from + len - 1) bs lb Hbs) eq_refl) as Hlb.
  assert (Hfblb : 0 <= fb <= lb).
  { split; [apply Z.div_pos; lia|]. apply Z.div_le_mono; lia. }
  assert (Hlbnb : lb < nb).
  { apply (Z.mul_lt_mono_pos_r bs lb nb Hbs). lia. }
  assert (Hlbpg : (lb + 1) * bs <= PAGE_SIZE).
  { rewrite Hnb. apply Z.mul_le_mono_nonneg_r; lia. }
  (* the block-aligned window *)
  assert (Hstart : Z.land pos (Z.lnot (bs - 1)) = base + fb * bs).
  { unfold bs. rewrite land_lnot_block by lia.
    rewrite <- (mod_block_of_page_offset ino pos Hbits). fold bs. fold from.
    assert (Hne : bs <> 0) by lia.
    pose proof (Z.div_mod from bs Hne) as Hdm. unfold base, fb.
    rewrite (Z.mul_comm bs) in Hdm.
    clear - Hdm. clearbody from.
    generalize dependent (from / bs * bs). generalize (from mod bs).
    intros; lia. }
  assert (Hstop : Z.land (s64 (pos + len + bs - 1)) (Z.lnot (bs - 1))
                  = base + (lb + 1) * bs).
  { rewrite s64_small by lia.
    unfold bs. rewrite land_lnot_block by lia. fold bs.
    replace (pos + len + bs - 1) with ((from + len - 1) + (qb + 1) * bs)
      by (unfold base in *; lia).
    rewrite Z_mod_plus_full.
    assert (Hne : bs <> 0) by lia.
    pose proof (Z.div_mod (from + len - 1) bs Hne) as Hdm. fold lb in Hdm.
    rewrite (Z.mul_comm bs) in Hdm. rewrite Hqb.
    replace ((lb + 1) * bs) with (lb * bs + bs) by ring.
    replace ((qb + 1) * bs) with (qb * bs + bs) by ring.
    unfold base in Hqb. clear - Hqb Hdm Hmax Hpgpos. clearbody from lb.
    generalize dependent (lb * bs). generalize dependent (qb * bs).
    generalize ((from + len - 1) mod bs).
    intros; lia. }
  unfold __iomap_write_begin.
  rewrite i_blocksize_pow2 by lia. fold bs.
  rewrite Hstart, Hstop. clear Hstart Hstop.
  rewrite offset_in_page_mod by lia. fold from.
  rewrite (u32_small from) by lia. rewrite (u32_small (from + len)) by lia.
  cbn [pg with_page].
  assert (Hupt' : PageUptodate (iomap_page_create ino (pg s)) = false).
  { unfold iomap_page_create.
    destruct (to_iomap_page (pg s)); [exact Hupt|].
    destruct (i_blocksize ino =? PAGE_SIZE); exact Hupt. }
  rewrite Hupt'.
  destruct (write_begin_loop_spec submit_bio_wait ino im from (from + len) base
              lb (bitmap_of (to_iomap_page (iomap_page_create ino (pg s))))
              Hbits Hps Hbase0 Hbasepg ltac:(unfold base; lia) ltac:(lia)
              ltac:(lia) Hlbpg fuel fb
              (mkPstate (iomap_page_create ino (pg s)) (trace s))
              Hfblb ltac:(lia)
              ltac:(rewrite Hnb, div_mul_block in Hfuel by exact Hbs; lia)
              ltac:(intros; reflexivity))
    as (status & s' & evs & Erun & Htr & HC & HB & HD).
  fold bs in Erun, HC, HB.
  exists status, s', evs.
  split; [exact Erun|]. split; [exact Htr|]. split; [|split; [|exact HD]].
  - intros e He. destruct (HC e He) as (bl & bh & Hp & Hr & _ & Hrest).
    exists bl, bh. split; [exact Hp|]. split; [lia | exact Hrest].
  - intros Hst b Hb1 Hb2 Hpart Hbit.
    apply (HB Hst b); [|exact Hpart | exact Hbit].
    split.
    + apply Z.lt_succ_r. apply (Z.mul_lt_mono_pos_r bs fb (Z.succ b) Hbs).
      unfold Z.succ. lia.
    + apply Z.lt_succ_r. apply (Z.mul_lt_mono_pos_r bs b (Z.succ lb) Hbs).
      unfold Z.succ. lia.
Qed.

(** * Further properties of the code *)

(** ** Querying the page state *)

Lemma covered_blocks (off len bs i : Z) :
  0 < bs -> 0 < len ->
  (off / bs <= i <= (off + len - 1) / bs <->
   off < (i + 1) * bs /\ i * bs < off + len).
Proof.
  intros Hbs Hlen.
  pose proof (proj1 (block_index_spec off bs (off / bs) Hbs) eq_refl) as Ha.
  pose proof (proj1 (block_index_spec (off + len - 1) bs
                       ((off + len - 1) / bs) Hbs) eq_refl) as Hb.
  clear Hlen. split; intros H; nia.
Qed.

Lemma all_blocks_uptodate_spec (bm : Z) (n : nat) :
  forall i, 0 <= i -> i + Z.of_nat n < 2 ^ 32 ->
    (all_blocks_uptodate n bm i = true <->
     forall j, i <= j < i + Z.of_nat n -> test_bit j bm = true).
Proof.
  induction n as [|n IH]; intros i Hi Hmax.
  - cbn. split; [intros _ j Hj; lia | reflexivity].
  - cbn [all_blocks_uptodate]. destruct (test_bit i bm) eqn:Hb; cbn [negb].
    + rewrite (u32_small (i + 1)) by lia. rewrite IH by lia.
      split; intros H j Hj.
      * destruct (Z.eq_dec j i) as [->|]; [exact Hb | apply H; lia].
      * apply H. lia.
    + split; [discriminate|]. intros H. rewrite H in Hb by lia. discriminate.
Qed.

Lemma is_partially_uptodate_spec (ino : inode) (p : page) (from count : Z) :
  0 <= i_blkbits ino <= PAGE_SHIFT -> PAGE_SHIFT < 32 ->
  0 <= from < PAGE_SIZE -> 0 < count < 2 ^ 32 ->
  (iomap_is_partially_uptodate ino p from count = 1 <->
   exists iop,
     to_iomap_page p = Some iop /\
     forall b, from < (b + 1) * i_blocksize ino ->
               b * i_blocksize ino < from + Z.min (PAGE_SIZE - from) count ->
               test_bit b (uptodate iop) = true) /\
  (iomap_is_partially_uptodate ino p from count = 0 \/
   iomap_is_partially_uptodate ino p from count = 1).
Proof.
  intros Hbits Hps Hfrom Hcount.
  rewrite i_blocksize_pow2 by lia.
  set (bs := 2 ^ i_blkbits ino).
  assert (Hbs : 0 < bs) by (apply pow2_pos; lia).
  assert (Hpg : PAGE_SIZE = 2 ^ PAGE_SHIFT) by (apply PAGE_SIZE_pow2; lia).
  assert (Hpglt : PAGE_SIZE < 2 ^ 32)
    by (rewrite Hpg; apply Z.pow_lt_mono_r; lia).
  unfold iomap_is_partially_uptodate.
  rewrite (u32_small (PAGE_SIZE - from)) by lia.
  rewrite (u32_small count) by lia.
  set (len := Z.min (PAGE_SIZE - from) count).
  assert (Hlen : 0 < len <= PAGE_SIZE - from) by (unfold len; lia).
  rewrite (u64_small (from + len - 1)) by lia.
  rewrite !shiftr_block by lia. fold bs.
  assert (Hfirst : 0 <= from / bs <= from).
  { split; [apply Z.div_pos; lia|]. apply Z.div_le_upper_bound; nia. }
  assert (Hlast : 0 <= (from + len - 1) / bs <= from + len - 1).
  { split; [apply Z.div_pos; lia|]. apply Z.div_le_upper_bound; nia. }
  assert (Hfl : from / bs <= (from + len - 1) / bs)
    by (apply Z.div_le_mono; lia).
  rewrite (u32_small (from / bs)) by lia.
  rewrite (u32_small ((from + len - 1) / bs)) by lia.
  destruct (to_iomap_page p) as [iop|].
  2:{ split; [|left; reflexivity].
      split; [discriminate | intros (iop & H & _); discriminate]. }
  pose proof (all_blocks_uptodate_spec (uptodate iop)
                (Z.to_nat ((from + len - 1) / bs + 1 - from / bs)) (from / bs)
                ltac:(lia) ltac:(lia)) as Hall.
  rewrite Z2Nat.id in Hall by lia.
  destruct (all_blocks_uptodate _ _ _).
  - split; [|right; reflexivity]. split; [|reflexivity].
    intros _. exists iop. split; [reflexivity|].
    intros b Hb1 Hb2. apply (proj1 Hall eq_refl).
    pose proof (proj2 (covered_blocks from len bs b Hbs ltac:(lia))
                  (conj Hb1 Hb2)).
    lia.
  - split; [|left; reflexivity]. split; [discriminate|].
    intros (iop' & Hiop & Hbitsall). injection Hiop as <-.
    assert (Hno : false = true); [|discriminate].
    apply Hall. intros j Hj. 
    destruct (proj1 (covered_blocks from len bs j Hbs ltac:(lia))
                ltac:(lia)) as [H1 H2].
    apply Hbitsall; assumption.
Qed.

(** X1. On a page with page state, [iomap_is_partially_uptodate] returns 1
    exactly when every block that intersects the byte range
    [from, from + min(PAGE_SIZE - from, count)) is marked uptodate, and 0
    otherwise; on a page without page state it returns 0.  The range is
    clamped to the page. *)
Theorem is_partially_uptodate_exact
    (ino : inode) (p : page) (from count : Z) :
  0 <= i_blkbits ino <= PAGE_SHIFT -> PAGE_SHIFT < 32 ->
  0 <= from < PAGE_SIZE -> 0 < count < 2 ^ 32 ->
  (iomap_is_partially_uptodate ino p from count = 1 <->
   exists iop,
     to_iomap_page p = Some iop /\
     forall b, from < (b + 1) * i_blocksize ino ->
               b * i_blocksize ino < from + Z.min (PAGE_SIZE - from) count ->
               test_bit b (uptodate iop) = true) /\
  (iomap_is_partially_uptodate ino p from count = 0 \/
   iomap_is_partially_uptodate ino p from count = 1).
Proof. apply is_partially_uptodate_spec. Qed.

(** X2. Marking a range uptodate and querying the same range agree: after
    [iomap_set_range_uptodate(page, off, len)] on a page with page state,
    [iomap_is_partially_uptodate(page, off, len)] returns 1. *)
Theorem set_range_uptodate_then_query
    (ino : inode) (p : page) (iop : iomap_page) (off len : Z) :
  0 <= i_blkbits ino <= PAGE_SHIFT -> PAGE_SHIFT < 32 ->
  to_iomap_page p = Some iop ->
  0 <= off -> 0 < len -> off + len <= PAGE_SIZE ->
  iomap_is_partially_uptodate ino (iomap_set_range_uptodate ino p off len)
                              off len = 1.
Proof.
  intros Hbits Hps Hiop Hoff Hlen Hend.
  assert (Hpg : PAGE_SIZE < 2 ^ 32).
  { rewrite PAGE_SIZE_pow2 by lia. apply Z.pow_lt_mono_r; lia. }
  destruct (set_range_uptodate_spec ino p iop off len Hbits Hps Hiop Hoff Hlen
              Hend) as (iop' & Hiop' & Hset & _).
  apply (is_partially_uptodate_spec ino _ off len Hbits Hps); [lia | lia|].
  exists iop'. split; [exact Hiop'|].
  intros b Hb1 Hb2. 
  assert (Hbs : 0 < i_blocksize ino)
    by (rewrite i_blocksize_pow2 by lia; apply pow2_pos; lia).
  apply Hset; [nia|]. right. split; [exact Hb1 | lia].
Qed.

(** X3. [iomap_set_range_uptodate] only adds: on a page with page state no
    uptodate bit is cleared, the page flag Uptodate is not cleared, the
    counters of the page state are kept, and a range that
    [iomap_is_partially_uptodate] reported uptodate before the call is still
    reported uptodate after it. *)
Theorem set_range_uptodate_monotonic
    (ino : inode) (p : page) (iop : iomap_page) (off len from count : Z) :
  0 <= i_blkbits ino <= PAGE_SHIFT -> PAGE_SHIFT < 32 ->
  to_iomap_page p = Some iop ->
  0 <= off -> 0 < len -> off + len <= PAGE_SIZE ->
  0 <= from < PAGE_SIZE -> 0 < count < 2 ^ 32 ->
  exists iop',
    to_iomap_page (iomap_set_range_uptodate ino p off len) = Some iop' /\
    read_count iop' = read_count iop /\ write_count iop' = write_count iop /\
    (forall b, 0 <= b -> test_bit b (uptodate iop) = true ->
               test_bit b (uptodate iop') = true) /\
    (PageUptodate p = true ->
     PageUptodate (iomap_set_range_uptodate ino p off len) = true) /\
    (iomap_is_partially_uptodate ino p from count = 1 ->
     iomap_is_partially_uptodate ino (iomap_set_range_uptodate ino p off len)
                                 from count = 1).
Proof.
  intros Hbits Hps Hiop Hoff Hlen Hend Hfrom Hcount.
  destruct (set_range_uptodate_spec ino p iop off len Hbits Hps Hiop Hoff Hlen
              Hend) as (iop' & Hiop' & Hset & Hflag).
  destruct (set_range_uptodate_counts ino p off len iop Hiop)
    as (iop2 & Hiop2 & Hrc & Hwc).
  rewrite Hiop' in Hiop2. injection Hiop2 as <-.
  exists iop'. split; [exact Hiop'|]. split; [exact Hrc|]. split; [exact Hwc|].
  assert (Hmono : forall b, 0 <= b -> test_bit b (uptodate iop) = true ->
                            test_bit b (uptodate iop') = true).
  { intros b Hb Hbit. apply Hset; [exact Hb | left; exact Hbit]. }
  split; [exact Hmono|]. split; [intros Hu; apply Hflag; left; exact Hu|].
  intros Hq.
  apply (is_partially_uptodate_spec ino p from count Hbits Hps Hfrom Hcount)
    in Hq.
  destruct Hq as (iop0 & Hiop0 & Hall). rewrite Hiop in Hiop0.
  injection Hiop0 as <-.
  apply (is_partially_uptodate_spec ino _ from count Hbits Hps Hfrom Hcount).
  exists iop'. split; [exact Hiop'|].
  intros b Hb1 Hb2.
  assert (Hbs : 0 < i_blocksize ino)
    by (rewrite i_blocksize_pow2 by lia; apply pow2_pos; lia).
  apply Hmono; [nia|]. apply Hall; assumption.
Qed.

(** ** The read actor *)

Lemma page_create_flags (ino : inode) (p : page) :
  PageUptodate (iomap_page_create ino p) = PageUptodate p /\
  PageError (iomap_page_create ino p) = PageError p /\
  index (iomap_page_create ino p) = index p /\
  PageDirty (iomap_page_create ino p) = PageDirty p /\
  PageLocked (iomap_page_create ino p) = PageLocked p.
Proof.
  unfold iomap_page_create. destruct (to_iomap_page p); [auto|].
  destruct (i_blocksize ino =? PAGE_SIZE); cbn; auto.
Qed.

(** What the trimming gives for a block-aligned request, in bytes. *)
Lemma adjust_read_range_aligned (ino : inode) (iop : option iomap_page)
    (pos length : Z) :
  0 <= i_blkbits ino <= PAGE_SHIFT -> PAGE_SHIFT < 31 ->
  0 <= pos -> 0 < length -> pos + length < 2 ^ 63 ->
  pos mod i_blocksize ino = 0 -> length mod i_blocksize ino = 0 ->
  exists f c k m,
    offset_in_page pos = f * i_blocksize ino /\
    Z.min (PAGE_SIZE - offset_in_page pos) length = c * i_blocksize ino /\
    0 <= f /\ 1 <= c /\ (f + c) * i_blocksize ino <= PAGE_SIZE /\
    iomap_adjust_read_range ino iop pos length
    = (pos + k * i_blocksize ino, (f + k) * i_blocksize ino,
       m * i_blocksize ino) /\
    0 <= k /\ 0 <= m /\ k + m <= c /\ (k < c -> 0 < m) /\
    (forall j, f <= j < f + k -> test_bit j (bitmap_of iop) = true) /\
    (forall j, f + k <= j < f + k + m -> test_bit j (bitmap_of iop) = false).
Proof.
  intros Hbits Hps Hpos Hlen Hend Hap Hal.
  rewrite i_blocksize_pow2 in * by lia.
  rewrite offset_in_page_mod by lia.
  destruct (aligned_request ino pos length Hbits Hpos Hlen Hap Hal)
    as (f & c & Hoff & Hmin & Hf & Hc & Hfit).
  destruct (adjust_read_range_blocks_opt ino iop pos length f c Hbits Hps Hpos
              Hend Hoff Hmin Hf Hc Hfit)
    as (k & m & E & Hk & Hm & Hkm & Hmpos & Hlead & Hclear & _).
  exists f, c, k, m. rewrite Hoff, Hmin.
  replace ((f + k) * 2 ^ i_blkbits ino)
    with (f * 2 ^ i_blkbits ino + k * 2 ^ i_blkbits ino) by ring.
  repeat (split; [first [reflexivity | assumption]|]). assumption.
Qed.

Section ReadActorProps.
Context {blk : BlockLayer}.

(** The actor on a block-aligned request over an extent that is not inline:
    the value it returns and the three ways it leaves. *)
Lemma readpage_actor_cases (inline_data : Z) (ino : inode) (pos length : Z)
    (im : iomap) (st : rstate) :
  0 <= i_blkbits ino <= PAGE_SHIFT -> PAGE_SHIFT < 31 ->
  0 <= pos -> 0 < length -> pos + length < 2 ^ 63 ->
  pos mod i_blocksize ino = 0 -> length mod i_blocksize ino = 0 ->
  iomap_type_of im <> IOMAP_INLINE ->
  exists f c k m st',
    offset_in_page pos = f * i_blocksize ino /\
    Z.min (PAGE_SIZE - offset_in_page pos) length = c * i_blocksize ino /\
    0 <= f /\ 1 <= c /\ (f + c) * i_blocksize ino <= PAGE_SIZE /\
    0 <= k /\ 0 <= m /\ k + m <= c /\ (k < c -> 0 < m) /\
    (forall j, f <= j < f + k ->
       test_bit j (bitmap_of (to_iomap_page
                                (iomap_page_create ino (pg (rps st))))) = true) /\
    (forall j, f + k <= j < f + k + m ->
       test_bit j (bitmap_of (to_iomap_page
                                (iomap_page_create ino (pg (rps st))))) = false) /\
    iomap_readpage_actor inline_data ino pos length im st
    = Some ((k + m) * i_blocksize ino, st') /\
    (m = 0 ->
     st' = mkRstate (rctx st)
             (with_page (rps st) (iomap_page_create ino (pg (rps st))))) /\
    (0 < m ->
     iomap_block_needs_zeroing ino im (pos + k * i_blocksize ino) = true ->
     st' = mkRstate (rctx st)
             (mkPstate
                (iomap_set_range_uptodate ino
                   (iomap_page_create ino (pg (rps st)))
                   ((f + k) * i_blocksize ino) (m * i_blocksize ino))
                (trace (rps st)
                 ++ [EvZeroUserSegments ((f + k) * i_blocksize ino)
                       ((f + k + m) * i_blocksize ino) 0 0]))).
Proof.
  intros Hbits Hps Hpos Hlen Hend Hap Hal Hinl.
  destruct (adjust_read_range_aligned ino
              (to_iomap_page (iomap_page_create ino (pg (rps st))))
              pos length Hbits Hps Hpos Hlen Hend Hap Hal)
    as (f & c & k & m & Hoff & Hmin & Hf & Hc & Hfit & E & Hk & Hm & Hkm
        & Hmpos & Hlead & Hclear).
  assert (Hbs : 0 < i_blocksize ino)
    by (rewrite i_blocksize_pow2 by lia; apply pow2_pos; lia).
  assert (Hpglt : PAGE_SIZE < 2 ^ 31).
  { rewrite PAGE_SIZE_pow2 by lia. apply Z.pow_lt_mono_r; lia. }
  set (bs := i_blocksize ino) in *.
  assert (Hkb : 0 <= k * bs) by (apply Z.mul_nonneg_nonneg; lia).
  assert (Hmb : 0 <= m * bs) by (apply Z.mul_nonneg_nonneg; lia).
  assert (Hkmb : (k + m) * bs <= c * bs)
    by (apply Z.mul_le_mono_nonneg_r; lia).
  assert (Hcb : c * bs <= PAGE_SIZE).
  { apply Z.le_trans with ((f + c) * bs); [|exact Hfit].
    apply Z.mul_le_mono_nonneg_r; lia. }
  assert (Hret : s64 (s64 (pos + k * bs - pos) + m * bs) = (k + m) * bs).
  { replace (pos + k * bs - pos) with (k * bs) by ring.
    rewrite (s64_small (k * bs)) by lia.
    rewrite s64_small by lia. ring. }
  assert (Eact : exists st',
             iomap_readpage_actor inline_data ino pos length im st
             = Some ((k + m) * bs, st') /\
             (m = 0 ->
              st' = mkRstate (rctx st)
                      (with_page (rps st)
                         (iomap_page_create ino (pg (rps st))))) /\
             (0 < m ->
              iomap_block_needs_zeroing ino im (pos + k * bs) = true ->
              st' = mkRstate (rctx st)
                      (mkPstate
                         (iomap_set_range_uptodate ino
                            (iomap_page_create ino (pg (rps st)))
                            ((f + k) * bs) (m * bs))
                         (trace (rps st)
                          ++ [EvZeroUserSegments ((f + k) * bs)
                                ((f + k + m) * bs) 0 0])))).
  { unfold iomap_readpage_actor.
    replace (iomap_type_eqb (iomap_type_of im) IOMAP_INLINE) with false
      by (symmetry; destruct (iomap_type_of im); try reflexivity;
          contradiction).
    cbn [pg with_page]. rewrite E. cbv beta iota. rewrite Hret.
    destruct (Z.eqb_spec (m * bs) 0) as [Hz|Hnz].
    - eexists. split; [reflexivity|].
      split; [intros _; reflexivity|].
      intros Hmp. assert (0 < m * bs) by (apply Z.mul_pos_pos; lia). lia.
    - assert (Hmp : 0 < m).
      { destruct (Z.eq_dec m 0) as [->|]; [cbn in Hnz; lia | lia]. }
      destruct (iomap_block_needs_zeroing ino im (pos + k * bs)).
      + eexists. split; [reflexivity|]. split; [intros ->; lia|].
        intros _ _. unfold emit, with_page. cbn [pg trace].
        replace ((f + k) * bs + m * bs) with ((f + k + m) * bs) by ring.
        rewrite (u32_small ((f + k + m) * bs)); [reflexivity|].
        split; [apply Z.mul_nonneg_nonneg; lia|].
        apply Z.le_lt_trans with ((f + c) * bs); [|lia].
        apply Z.mul_le_mono_nonneg_r; lia.
      + repeat match goal with
               | |- context [match ?X with _ => _ end] =>
                   match X with
                   | context [match _ with _ => _ end] => fail 1
                   | _ => destruct X
                   end
               end;
          eexists; (split; [reflexivity|]);
          (split; [intros ->; lia | intros _ Hf0; discriminate]). }
  destruct Eact as (st' & Eact & Hm0 & Hzero).
  exists f, c, k, m, st'.
  repeat (split; [first [reflexivity | assumption]|]). assumption.
Qed.

(** X4. Over an extent that is not inline, the read actor always makes
    progress on a block-aligned request and never runs past it: it returns a
    positive whole number of blocks that is at most the part of the request
    that lies in the current page. *)
Theorem readpage_actor_progress (inline_data : Z) (ino : inode)
    (pos length : Z) (im : iomap) (st : rstate) :
  0 <= i_blkbits ino <= PAGE_SHIFT -> PAGE_SHIFT < 31 ->
  0 <= pos -> 0 < length -> pos + length < 2 ^ 63 ->
  pos mod i_blocksize ino = 0 -> length mod i_blocksize ino = 0 ->
  iomap_type_of im <> IOMAP_INLINE ->
  exists ret st',
    iomap_readpage_actor inline_data ino pos length im st = Some (ret, st') /\
    0 < ret <= Z.min (PAGE_SIZE - offset_in_page pos) length /\
    ret mod i_blocksize ino = 0.
Proof.
  intros Hbits Hps Hpos Hlen Hend Hap Hal Hinl.
  destruct (readpage_actor_cases inline_data ino pos length im st Hbits Hps
              Hpos Hlen Hend Hap Hal Hinl)
    as (f & c & k & m & st' & Hoff & Hmin & Hf & Hc & Hfit & Hk & Hm & Hkm
        & Hmpos & _ & _ & E & _).
  assert (Hbs : 0 < i_blocksize ino)
    by (rewrite i_blocksize_pow2 by lia; apply pow2_pos; lia).
  exists ((k + m) * i_blocksize ino), st'.
  split; [exact E|]. rewrite Hmin. split; [split|].
  - apply Z.mul_pos_pos; [|exact Hbs].
    destruct (Z.lt_ge_cases k c) as [Hlt|Hge]; [specialize (Hmpos Hlt)|]; lia.
  - apply Z.mul_le_mono_nonneg_r; lia.
  - apply Z.mod_mul. lia.
Qed.

(** X5. Over an extent that reads as zeroes (any type but Mapped and Inline,
    or a newly allocated extent) the read actor issues no I/O: the read
    context is left as it was (no bio is started, extended or submitted), the
    only call it may log is the zeroing of the trimmed range, and afterwards
    every block of the range it reports as processed is uptodate. *)
Theorem readpage_actor_zero_fill (inline_data : Z) (ino : inode)
    (pos length : Z) (im : iomap) (st : rstate) :
  0 <= i_blkbits ino <= PAGE_SHIFT -> PAGE_SHIFT < 31 ->
  0 <= pos -> 0 < length -> pos + length < 2 ^ 63 ->
  pos mod i_blocksize ino = 0 -> length mod i_blocksize ino = 0 ->
  iomap_type_of im <> IOMAP_INLINE ->
  iomap_type_of im <> IOMAP_MAPPED \/
  Z.land (iomap_flags im) IOMAP_F_NEW <> 0 ->
  exists ret s',
    iomap_readpage_actor inline_data ino pos length im st
    = Some (ret, mkRstate (rctx st) s') /\
    (trace s' = trace (rps st) \/
     exists a b, trace s' = trace (rps st) ++ [EvZeroUserSegments a b 0 0]) /\
    (to_iomap_page (pg s') <> None ->
     iomap_is_partially_uptodate ino (pg s') (offset_in_page pos) ret = 1) /\
    (to_iomap_page (pg s') = None -> PageError (pg (rps st)) = false ->
     PageUptodate (pg s') = true).
Proof.
  intros Hbits Hps Hpos Hlen Hend Hap Hal Hinl Hzero.
  destruct (readpage_actor_cases inline_data ino pos length im st Hbits Hps
              Hpos Hlen Hend Hap Hal Hinl)
    as (f & c & k & m & st' & Hoff & Hmin & Hf & Hc & Hfit & Hk & Hm & Hkm
        & Hmpos & Hlead & Hclear & E & Hm0 & Hmz).
  assert (Hbs : 0 < i_blocksize ino)
    by (rewrite i_blocksize_pow2 by lia; apply pow2_pos; lia).
  assert (Hpglt : PAGE_SIZE < 2 ^ 31).
  { rewrite PAGE_SIZE_pow2 by lia. apply Z.pow_lt_mono_r; lia. }
  assert (Hnz : forall p, iomap_block_needs_zeroing ino im p = true).
  { intros p. unfold iomap_block_needs_zeroing.
    destruct Hzero as [Ht|Hfl].
    - replace (iomap_type_eqb (iomap_type_of im) IOMAP_MAPPED) with false
        by (symmetry; destruct (iomap_type_of im); try reflexivity;
            contradiction).
      reflexivity.
    - apply Z.eqb_neq in Hfl. rewrite Hfl.
      destruct (iomap_type_eqb (iomap_type_of im) IOMAP_MAPPED); reflexivity. }
  set (bs := i_blocksize ino) in *.
  set (p0 := iomap_page_create ino (pg (rps st))) in *.
  assert (Hkmpos : 0 < k + m).
  { destruct (Z.lt_ge_cases k c) as [Hlt|Hge]; [specialize (Hmpos Hlt)|]; lia. }
  assert (Hfcb : (f + k + m) * bs <= PAGE_SIZE).
  { apply Z.le_trans with ((f + c) * bs); [|exact Hfit].
    apply Z.mul_le_mono_nonneg_r; lia. }
  assert (Hfb : 0 <= f * bs) by (apply Z.mul_nonneg_nonneg; lia).
  assert (Hkmb : 0 < (k + m) * bs) by (apply Z.mul_pos_pos; lia).
  assert (Hsplit : (f + k + m) * bs = f * bs + (k + m) * bs) by ring.
  (* the query over the processed range, from the bits *)
  assert (Hquery : forall p' iop',
            to_iomap_page p' = Some iop' ->
            (forall j, f <= j < f + k + m -> test_bit j (uptodate iop') = true) ->
            iomap_is_partially_uptodate ino p' (f * bs) ((k + m) * bs) = 1).
  { intros p' iop' Hiop' Hall.
    apply (is_partially_uptodate_spec ino p' (f * bs) ((k + m) * bs) Hbits
             ltac:(lia)); [lia | lia|].
    exists iop'. split; [exact Hiop'|]. fold bs. intros b Hb1 Hb2.
    apply Hall.
    assert (Hb3 : b * bs < (f + k + m) * bs) by lia.
    split.
    - apply Z.lt_succ_r. apply (Z.mul_lt_mono_pos_r bs f (Z.succ b) Hbs).
      unfold Z.succ. lia.
    - apply (Z.mul_lt_mono_pos_r bs b (f + k + m) Hbs). exact Hb3. }
  rewrite Hoff.
  destruct (Z.eq_dec m 0) as [Hmz0|Hmnz].
  - (* everything was uptodate already *)
    specialize (Hm0 Hmz0). subst m st'.
    exists ((k + 0) * bs), (with_page (rps st) p0).
    split; [exact E|]. split; [left; reflexivity|]. cbn [pg with_page].
    split.
    + intros Hsome. destruct (to_iomap_page p0) as [iop0|] eqn:Hiop0;
        [|contradiction].
      apply (Hquery p0 iop0 Hiop0). intros j Hj. apply Hlead. lia.
    + intros Hnone _. rewrite Hnone in Hlead. cbn [bitmap_of] in Hlead.
      assert (Hk0 : k = 0).
      { destruct (Z.eq_dec k 0) as [|Hne]; [assumption|].
        specialize (Hlead f ltac:(lia)). rewrite test_bit_empty in Hlead.
        discriminate. }
      lia.
  - assert (Hmp : 0 < m) by lia.
    specialize (Hmz Hmp (Hnz _)). subst st'.
    eexists _, _. split; [exact E|].
    split; [right; eexists _, _; reflexivity|]. cbn [pg].
    assert (Hmb : 0 < m * bs) by (apply Z.mul_pos_pos; lia).
    assert (Hrng : (f + k) * bs + m * bs <= PAGE_SIZE).
    { replace ((f + k) * bs + m * bs) with ((f + k + m) * bs) by ring.
      exact Hfcb. }
    assert (Hfk : 0 <= (f + k) * bs) by (apply Z.mul_nonneg_nonneg; lia).
    split.
    + intros Hsome.
      destruct (to_iomap_page p0) as [iop0|] eqn:Hiop0.
      * destruct (set_range_uptodate_spec ino p0 iop0 ((f + k) * bs) (m * bs)
                    Hbits ltac:(lia) Hiop0 Hfk Hmb Hrng)
          as (iop' & Hiop' & Hset & _).
        apply (Hquery _ iop' Hiop'). intros j Hj. apply Hset; [lia|].
        destruct (Z.lt_ge_cases j (f + k)) as [Hlt|Hge].
        -- left. apply Hlead. lia.
        -- right. fold bs. split.
           ++ apply Z.mul_lt_mono_pos_r; lia.
           ++ replace ((f + k) * bs + m * bs) with ((f + k + m) * bs) by ring.
              apply Z.mul_lt_mono_pos_r; lia.
      * exfalso. apply Hsome. unfold iomap_set_range_uptodate.
        rewrite Hiop0. destruct (true && negb (PageError p0)); cbn;
          rewrite ?Hiop0; reflexivity.
    + intros Hnone Herr.
      destruct (to_iomap_page p0) as [iop0|] eqn:Hiop0.
      * exfalso.
        destruct (set_range_uptodate_spec ino p0 iop0 ((f + k) * bs) (m * bs)
                    Hbits ltac:(lia) Hiop0 Hfk Hmb Hrng)
          as (iop' & Hiop' & _).
        rewrite Hnone in Hiop'. discriminate.
      * unfold iomap_set_range_uptodate. rewrite Hiop0.
        destruct (page_create_flags ino (pg (rps st))) as (_ & He & _).
        fold p0 in He. rewrite He, Herr. reflexivity.
Qed.


End ReadActorProps.

(** ** Read completion and the page flags *)

Lemma read_finish_keeps_flags (s : pstate) :
  PageError (pg (iomap_read_finish s)) = PageError (pg s) /\
  PageUptodate (pg (iomap_read_finish s)) = PageUptodate (pg s) /\
  bitmap_of (to_iomap_page (pg (iomap_read_finish s)))
  = bitmap_of (to_iomap_page (pg s)) /\
  (to_iomap_page (pg s) <> None ->
   to_iomap_page (pg (iomap_read_finish s)) <> None).
Proof.
  unfold iomap_read_finish. destruct (to_iomap_page (pg s)) as [iop|] eqn:Hiop.
  - unfold atomic_dec_and_test.
    destruct (s32 (read_count iop - 1) =? 0); cbn; repeat split; discriminate.
  - cbn. rewrite Hiop. repeat split. intros H; exact H.
Qed.

Lemma set_range_uptodate_with_error (ino : inode) (p : page) (off len : Z) :
  PageError p = true ->
  PageError (iomap_set_range_uptodate ino p off len) = true /\
  PageUptodate (iomap_set_range_uptodate ino p off len) = PageUptodate p.
Proof.
  intros Herr. unfold iomap_set_range_uptodate.
  destruct (to_iomap_page p) as [iop|].
  - destruct (set_range_loop _ _ _ _ _ _) as [bm upt]. cbn [PageError PG_error
      set_iomap_page]. unfold PageError in Herr. rewrite Herr.
    rewrite andb_false_r. cbn. auto.
  - rewrite Herr. cbn. auto.
Qed.

Lemma read_page_end_io_failed (ino : inode) (bvec : bio_vec) (error : Z)
    (s : pstate) :
  error <> 0 \/ (PageError (pg s) = true /\ PageUptodate (pg s) = false) ->
  PageError (pg (iomap_read_page_end_io ino bvec error s)) = true /\
  PageUptodate (pg (iomap_read_page_end_io ino bvec error s)) = false.
Proof.
  intros H. unfold iomap_read_page_end_io.
  destruct (read_finish_keeps_flags
              (if negb (error =? 0)
               then with_page s (SetPageError (ClearPageUptodate (pg s)))
               else with_page s (iomap_set_range_uptodate ino (pg s)
                                   (bv_offset bvec) (bv_len bvec))))
    as (He & Hu & _).
  rewrite He, Hu.
  destruct (Z.eqb_spec error 0) as [->|Hne]; cbn [negb].
  - destruct H as [H|[H1 H2]]; [contradiction|]. cbn [pg with_page].
    destruct (set_range_uptodate_with_error ino (pg s) (bv_offset bvec)
                (bv_len bvec) H1) as [Ha Hb].
    rewrite Ha, Hb. auto.
  - cbn. auto.
Qed.

(** X7. A failed sub-range read is never papered over: if any completion of
    the page carries an error, then after all completions, in whatever order
    they ran, the page carries the error flag and is not uptodate. *)
Theorem read_failure_is_sticky (ino : inode) (l : list (bio_vec * Z))
    (s : pstate) (bvec : bio_vec) (error : Z) :
  In (bvec, error) l -> error <> 0 ->
  PageError (pg (read_completions ino l s)) = true /\
  PageUptodate (pg (read_completions ino l s)) = false.
Proof.
  intros Hin Herr.
  assert (Hkeep : forall l' s',
            PageError (pg s') = true /\ PageUptodate (pg s') = false ->
            PageError (pg (read_completions ino l' s')) = true /\
            PageUptodate (pg (read_completions ino l' s')) = false).
  { induction l' as [|[bv e] l' IH]; intros s' Hs'; [exact Hs'|].
    cbn [read_completions]. apply IH.
    apply read_page_end_io_failed. right. exact Hs'. }
  revert s. induction l as [|[bv e] l IH]; intros s; [contradiction|].
  cbn [read_completions]. destruct Hin as [Heq|Hin].
  - injection Heq as -> ->. apply Hkeep.
    apply read_page_end_io_failed. left. exact Herr.
  - apply IH. exact Hin.
Qed.

(** Segment [bvec] covers block [b]. *)
Lemma read_page_end_io_success (ino : inode) (bvec : bio_vec) (s : pstate)
    (iop : iomap_page) :
  0 <= i_blkbits ino <= PAGE_SHIFT -> PAGE_SHIFT < 32 ->
  to_iomap_page (pg s) = Some iop ->
  0 <= bv_offset bvec -> 0 < bv_len bvec ->
  bv_offset bvec + bv_len bvec <= PAGE_SIZE ->
  exists iop',
    to_iomap_page (pg (iomap_read_page_end_io ino bvec 0 s)) = Some iop' /\
    (forall i, 0 <= i ->
       (test_bit i (uptodate iop') = true <->
        test_bit i (uptodate iop) = true \/
        (bv_offset bvec < (i + 1) * i_blocksize ino /\
         i * i_blocksize ino < bv_offset bvec + bv_len bvec))) /\
    PageError (pg (iomap_read_page_end_io ino bvec 0 s)) = PageError (pg s) /\
    (PageUptodate (pg (iomap_read_page_end_io ino bvec 0 s)) = true <->
     PageUptodate (pg s) = true \/
     ((forall i, 0 <= i < PAGE_SIZE / i_blocksize ino ->
                 test_bit i (uptodate iop') = true) /\
      PageError (pg s) = false)).
Proof.
  intros Hbits Hps Hiop Hoff Hlen Hend.
  destruct (set_range_uptodate_spec ino (pg s) iop (bv_offset bvec)
              (bv_len bvec) Hbits Hps Hiop Hoff Hlen Hend)
    as (iop' & Hiop' & Hset & Hflag).
  unfold iomap_read_page_end_io. cbn [Z.eqb negb].
  set (s1 := with_page s _).
  destruct (read_finish_keeps_flags s1) as (He & Hu & Hbm & Hsome).
  assert (Hiop1 : to_iomap_page (pg s1) = Some iop') by exact Hiop'.
  destruct (to_iomap_page (pg (iomap_read_finish s1))) as [iop2|] eqn:Hiop2.
  2:{ exfalso. apply Hsome; [rewrite Hiop1; discriminate | reflexivity]. }
  rewrite Hiop1 in Hbm. cbn [bitmap_of] in Hbm.
  exists iop2. split; [reflexivity|]. rewrite Hbm.
  split; [exact Hset|]. rewrite He, Hu.
  split; [|exact Hflag].
  unfold s1. cbn [pg with_page]. unfold iomap_set_range_uptodate.
  rewrite Hiop. destruct (set_range_loop _ _ _ _ _ _) as [bm upt].
  destruct (upt && _); reflexivity.
Qed.

Lemma read_completions_success_bits (ino : inode) (l : list (bio_vec * Z)) :
  0 <= i_blkbits ino <= PAGE_SHIFT -> PAGE_SHIFT < 32 ->
  (forall bvec e, In (bvec, e) l ->
     e = 0 /\ 0 <= bv_offset bvec /\ 0 < bv_len bvec /\
     bv_offset bvec + bv_len bvec <= PAGE_SIZE) ->
  forall (s : pstate) (iop : iomap_page),
    to_iomap_page (pg s) = Some iop ->
    exists iop',
      to_iomap_page (pg (read_completions ino l s)) = Some iop' /\
      (forall i, 0 <= i ->
         (test_bit i (uptodate iop') = true <->
          test_bit i (uptodate iop) = true \/
          exists bvec e,
            In (bvec, e) l /\
            bv_offset bvec < (i + 1) * i_blocksize ino /\
            i * i_blocksize ino < bv_offset bvec + bv_len bvec)) /\
      PageError (pg (read_completions ino l s)) = PageError (pg s) /\
      (PageUptodate (pg s) = true ->
       PageUptodate (pg (read_completions ino l s)) = true).
Proof.
  intros Hbits Hps. induction l as [|[bvec e] l IH]; intros Hok s iop Hiop.
  - exists iop. cbn. split; [exact Hiop|]. split; [|auto].
    intros i Hi. split; [auto|]. intros [H|(bv & e & [] & _)]. exact H.
  - destruct (Hok bvec e (or_introl eq_refl)) as (-> & Hoff & Hlen & Hend).
    cbn [read_completions].
    destruct (read_page_end_io_success ino bvec s iop Hbits Hps Hiop Hoff Hlen
                Hend) as (iop1 & Hiop1 & Hset1 & He1 & Hu1).
    destruct (IH (fun bv e' H => Hok bv e' (or_intror H)) _ iop1 Hiop1)
      as (iop' & Hiop' & Hset & He & Hu).
    exists iop'. split; [exact Hiop'|]. split; [|split].
    + intros i Hi. rewrite (Hset i Hi), (Hset1 i Hi). split.
      * intros [[H|H]|(bv & e' & Hin & H)].
        -- left; exact H.
        -- right. exists bvec, 0. split; [left; reflexivity | exact H].
        -- right. exists bv, e'. split; [right; exact Hin | exact H].
      * intros [H|(bv & e' & [Heq|Hin] & H)].
        -- left; left; exact H.
        -- injection Heq as <- <-. left; right; exact H.
        -- right. exists bv, e'. split; assumption.
    + rewrite He, He1. reflexivity.
    + intros H. apply Hu. apply Hu1. left. exact H.
Qed.

(** Segments that complete one after another without error and cover the
    blocks that were missing leave every bit set and the page uptodate. *)
Lemma read_completions_cover
    (ino : inode) (l : list (bio_vec * Z)) (s : pstate) (iop : iomap_page) :
  0 <= i_blkbits ino <= PAGE_SHIFT -> PAGE_SHIFT < 32 ->
  to_iomap_page (pg s) = Some iop ->
  PageError (pg s) = false ->
  l <> [] ->
  (forall bvec e, In (bvec, e) l ->
     e = 0 /\ 0 <= bv_offset bvec /\ 0 < bv_len bvec /\
     bv_offset bvec + bv_len bvec <= PAGE_SIZE) ->
  (forall i, 0 <= i < PAGE_SIZE / i_blocksize ino ->
     test_bit i (uptodate iop) = true \/
     exists bvec e,
       In (bvec, e) l /\
       bv_offset bvec < (i + 1) * i_blocksize ino /\
       i * i_blocksize ino < bv_offset bvec + bv_len bvec) ->
  forall l', Permutation l l' ->
    PageUptodate (pg (read_completions ino l' s)) = true /\
    exists iop',
      to_iomap_page (pg (read_completions ino l' s)) = Some iop' /\
      forall i, 0 <= i < PAGE_SIZE / i_blocksize ino ->
                test_bit i (uptodate iop') = true.
Proof.
  intros Hbits Hps Hiop Herr Hne Hok Hcover l' Hperm.
  assert (Hok' : forall bvec e, In (bvec, e) l' ->
            e = 0 /\ 0 <= bv_offset bvec /\ 0 < bv_len bvec /\
            bv_offset bvec + bv_len bvec <= PAGE_SIZE).
  { intros bv e Hin. apply Hok.
    apply (Permutation_in _ (Permutation_sym Hperm)). exact Hin. }
  assert (Hne' : l' <> []).
  { intros ->. apply Permutation_sym, Permutation_nil in Hperm.
    contradiction. }
  destruct (read_completions_success_bits ino l' Hbits Hps Hok' s iop Hiop)
    as (iop' & Hiop' & Hset & He & _).
  assert (Hall : forall i, 0 <= i < PAGE_SIZE / i_blocksize ino ->
                           test_bit i (uptodate iop') = true).
  { intros i Hi. apply Hset; [lia|].
    destruct (Hcover i Hi) as [H|(bv & e & Hin & H)]; [left; exact H|].
    right. exists bv, e. split; [|exact H].
    apply (Permutation_in _ Hperm). exact Hin. }
  split; [|exists iop'; split; [exact Hiop' | exact Hall]].
  (* the last completion sets the flag *)
  destruct (exists_last Hne') as (l1 & [bvec e] & Hl').
  rewrite Hl' in *. clear Hl'.
  destruct (Hok' bvec e ltac:(apply in_or_app; right; left; reflexivity))
    as (-> & Hoff & Hlen & Hend).
  rewrite read_completions_app in *. cbn [read_completions] in *.
  destruct (read_completions_success_bits ino l1 Hbits Hps
              (fun bv e' H => Hok' bv e' (in_or_app _ _ _ (or_introl H)))
              s iop Hiop) as (iop1 & Hiop1 & _ & He1 & _).
  destruct (read_page_end_io_success ino bvec (read_completions ino l1 s) iop1
              Hbits Hps Hiop1 Hoff Hlen Hend)
    as (iop2 & Hiop2 & _ & _ & Hu2).
  rewrite Hiop' in Hiop2. injection Hiop2 as <-.
  apply Hu2. right. split; [exact Hall|]. rewrite He1. exact Herr.
Qed.

(** X8. When one read bio holds every read that is in flight on a page (the
    read count of the page is the number of segments the bio has on it, so
    that no other completion works on the page at the same time), the bio
    completes without error, and its segments, together with the blocks that
    were uptodate before, cover the page (which did not carry the error
    flag), then at the end of [iomap_read_end_io], which completes the
    segments one after another, every block of the page is marked uptodate,
    the page is uptodate, its read count is 0 and it has been unlocked
    once. *)
Theorem read_end_io_makes_page_uptodate
    (ino : inode) (segments : list bio_vec) (s : pstate) (iop : iomap_page) :
  0 <= i_blkbits ino <= PAGE_SHIFT -> PAGE_SHIFT < 32 ->
  to_iomap_page (pg s) = Some iop ->
  PageError (pg s) = false ->
  segments <> [] ->
  read_count iop = Z.of_nat (length segments) ->
  read_count iop < 2 ^ 31 ->
  (forall bvec, In bvec segments ->
     0 <= bv_offset bvec /\ 0 < bv_len bvec /\
     bv_offset bvec + bv_len bvec <= PAGE_SIZE) ->
  (forall i, 0 <= i < PAGE_SIZE / i_blocksize ino ->
     test_bit i (uptodate iop) = true \/
     exists bvec,
       In bvec segments /\
       bv_offset bvec < (i + 1) * i_blocksize ino /\
       i * i_blocksize ino < bv_offset bvec + bv_len bvec) ->
  PageUptodate (pg (iomap_read_end_io ino segments 0 s)) = true /\
  unlocks (trace (iomap_read_end_io ino segments 0 s))
  = S (unlocks (trace s)) /\
  exists iop',
    to_iomap_page (pg (iomap_read_end_io ino segments 0 s)) = Some iop' /\
    read_count iop' = 0 /\
    forall i, 0 <= i < PAGE_SIZE / i_blocksize ino ->
              test_bit i (uptodate iop') = true.
Proof.
  intros Hbits Hps Hiop Herr Hne Hcount Hlt Hok Hcover.
  unfold iomap_read_end_io.
  assert (Hne' : map (fun bvec : bio_vec => (bvec, 0)) segments <> [])
    by (destruct segments; [contradiction | discriminate]).
  destruct (read_completions_cover ino
              (map (fun bvec => (bvec, 0)) segments) s iop Hbits Hps Hiop Herr
              Hne') with (l' := map (fun bvec : bio_vec => (bvec, 0)) segments)
    as (Hup & iop1 & Hiop1 & Hall).
  - intros bvec e Hin. apply in_map_iff in Hin.
    destruct Hin as (bv & Heq & Hin). injection Heq as <- <-.
    split; [reflexivity | apply Hok; exact Hin].
  - intros i Hi. destruct (Hcover i Hi) as [H|(bv & Hin & H)]; [left; exact H|].
    right. exists bv, 0. split; [|exact H].
    apply in_map_iff. exists bv. split; [reflexivity | exact Hin].
  - apply Permutation_refl.
  - destruct (read_completions_all ino
                (map (fun bvec => (bvec, 0)) segments) s iop Hiop Hne')
      as (iop2 & Hiop2 & Hrc & Hun).
    { rewrite length_map. exact Hcount. }
    { exact Hlt. }
    split; [exact Hup|]. split; [exact Hun|].
    exists iop1. split; [exact Hiop1|]. split; [|exact Hall].
    rewrite Hiop1 in Hiop2. injection Hiop2 as <-. exact Hrc.
Qed.

(** ** Trimming against the query *)

(** X9. For a block-aligned request, [iomap_adjust_read_range] returns an
    empty range exactly when [iomap_is_partially_uptodate] reports the
    requested part of the page uptodate: nothing is read iff nothing needs
    reading. *)
Theorem adjust_read_range_empty_iff_uptodate
    (ino : inode) (p : page) (iop : iomap_page) (pos length : Z) :
  0 <= i_blkbits ino <= PAGE_SHIFT -> PAGE_SHIFT < 31 ->
  to_iomap_page p = Some iop ->
  0 <= pos < 2 ^ 62 -> 0 < length < 2 ^ 32 ->
  pos mod i_blocksize ino = 0 -> length mod i_blocksize ino = 0 ->
  (snd (iomap_adjust_read_range ino (Some iop) pos length) = 0 <->
   iomap_is_partially_uptodate ino p (offset_in_page pos) length = 1).
Proof.
  intros Hbits Hps Hiop Hpos Hlen Hap Hal.
  destruct (adjust_read_range_aligned ino (Some iop) pos length Hbits Hps
              ltac:(lia) ltac:(lia) ltac:(lia) Hap Hal)
    as (f & c & k & m & Hoff & Hmin & Hf & Hc & Hfit & E & Hk & Hm & Hkm
        & Hmpos & Hlead & Hclear).
  cbn [bitmap_of] in Hlead, Hclear.
  assert (Hbs : 0 < i_blocksize ino)
    by (rewrite i_blocksize_pow2 by lia; apply pow2_pos; lia).
  assert (Hpglt : PAGE_SIZE < 2 ^ 31).
  { rewrite PAGE_SIZE_pow2 by lia. apply Z.pow_lt_mono_r; lia. }
  set (bs := i_blocksize ino) in *.
  assert (Hfb : 0 <= f * bs) by (apply Z.mul_nonneg_nonneg; lia).
  assert (Hcb : 0 < c * bs) by (apply Z.mul_pos_pos; lia).
  assert (Hfc : f * bs + c * bs <= PAGE_SIZE)
    by (replace (f * bs + c * bs) with ((f + c) * bs) by ring; exact Hfit).
  rewrite E. cbn [snd].
  assert (Hfrom : 0 <= offset_in_page pos < PAGE_SIZE) by (rewrite Hoff; lia).
  assert (Hps' : PAGE_SHIFT < 32) by lia.
  pose proof (is_partially_uptodate_spec ino p (offset_in_page pos) length
                Hbits Hps' Hfrom Hlen) as [Hq _].
  rewrite Hq. fold bs. rewrite Hmin, Hoff. clear Hq.
  split.
  - intros Hz. assert (Hm0 : m = 0).
    { destruct (Z.eq_dec m 0) as [|Hne]; [assumption|].
      assert (0 < m * bs) by (apply Z.mul_pos_pos; lia). lia. }
    assert (Hkc : k = c).
    { destruct (Z.lt_ge_cases k c) as [Hlt|Hge];
        [specialize (Hmpos Hlt); lia | lia]. }
    exists iop. split; [exact Hiop|]. intros b Hb1 Hb2. apply Hlead. subst k.
    split.
    + apply Z.lt_succ_r. apply (Z.mul_lt_mono_pos_r bs f (Z.succ b) Hbs).
      unfold Z.succ. lia.
    + apply (Z.mul_lt_mono_pos_r bs b (f + c) Hbs).
      replace ((f + c) * bs) with (f * bs + c * bs) by ring. exact Hb2.
  - intros (iop' & Hiop' & Hall). rewrite Hiop in Hiop'.
    injection Hiop' as <-.
    destruct (Z.eq_dec m 0) as [->|Hne]; [reflexivity|]. exfalso.
    assert (Hmp : 0 < m) by lia.
    assert (Hbit : test_bit (f + k) (uptodate iop) = true).
    { apply Hall.
      - apply Z.mul_lt_mono_pos_r; lia.
      - replace (f * bs + c * bs) with ((f + c) * bs) by ring.
        apply Z.mul_lt_mono_pos_r; lia. }
    rewrite (Hclear (f + k)) in Hbit by lia. discriminate.
Qed.

(** ** Writeback completion *)

Lemma write_completions_app (l1 l2 : list Z) (s : pstate) :
  write_completions (l1 ++ l2) s
  = write_completions l2 (write_completions l1 s).
Proof.
  revert s. induction l1 as [|e l1 IH]; intros s; cbn; [reflexivity|apply IH].
Qed.

Lemma write_completions_pending (l : list Z) :
  forall (s : pstate) (iop : iomap_page),
    to_iomap_page (pg s) = Some iop ->
    Z.of_nat (length l) < write_count iop < 2 ^ 31 ->
    exists iop',
      to_iomap_page (pg (write_completions l s)) = Some iop' /\
      write_count iop' = write_count iop - Z.of_nat (length l) /\
      writeback_ends (trace (write_completions l s))
      = writeback_ends (trace s) /\
      PageWriteback (pg (write_completions l s)) = PageWriteback (pg s) /\
      ((exists e, In e l /\ e <> 0) \/ PageError (pg s) = true ->
       PageError (pg (write_completions l s)) = true) /\
      ((exists e, In e l /\ e <> 0) ->
       In (EvMappingSetError (- EIO)) (trace (write_completions l s))) /\
      (forall e, In e (trace s) -> In e (trace (write_completions l s))).
Proof.
  induction l as [|error l IH]; intros s iop Hiop Hc.
  - exists iop. cbn. split; [exact Hiop|]. split; [lia|].
    split; [reflexivity|]. split; [reflexivity|].
    split; [intros [(e & [] & _)|H]; exact H|].
    split; [intros (e & [] & _) | auto].
  - cbn [write_completions]. cbn [length] in Hc.
    destruct (finish_page_writeback_step error s iop Hiop ltac:(lia))
      as (iop1 & Hiop1 & Hwc1 & _ & Hends1 & Hwb1 & Herr1 & Hset1 & Hin1).
    destruct (IH _ iop1 Hiop1 ltac:(lia))
      as (iop2 & Hiop2 & Hwc2 & Hends2 & Hwb2 & Herr2 & Hset2 & Hin2).
    assert (Hnz : (write_count iop - 1 =? 0) = false)
      by (apply Z.eqb_neq; lia).
    rewrite Hnz in Hends1, Hwb1.
    exists iop2. split; [exact Hiop2|]. split; [cbn [length]; lia|].
    split; [rewrite Hends2, Hends1; lia|].
    split; [rewrite Hwb2, Hwb1; reflexivity|].
    split; [|split].
    + intros H. apply Herr2. rewrite Herr1.
      destruct H as [(e & [<-|Hin] & Hne)|H].
      * right. apply Z.eqb_neq in Hne. rewrite Hne. reflexivity.
      * left. exists e. split; assumption.
      * right. rewrite H. apply orb_true_r.
    + intros (e & [<-|Hin] & Hne).
      * apply Hin2. apply Hset1. exact Hne.
      * apply Hset2. exists e. split; assumption.
    + intros e He. apply Hin2, Hin1, He.
Qed.

(** X10. A page queued for writeback in [N >= 1] segments starts with
    [write_count = N].  Each segment completion decrements the counter once;
    writeback of the page is ended by the completion that brings the counter
    to zero and by no other, so after the [N] completions, in whatever order,
    [end_page_writeback] has been called exactly once and the page is no
    longer under writeback.  If any of the completions carried an error, the
    page carries the error flag and -EIO has been recorded on the mapping. *)
Theorem write_completions_end_writeback_once
    (l : list Z) (s : pstate) (iop : iomap_page) :
  to_iomap_page (pg s) = Some iop ->
  l <> [] ->
  write_count iop = Z.of_nat (length l) ->
  write_count iop < 2 ^ 31 ->
  (forall l1 l2, l = l1 ++ l2 -> l2 <> [] ->
     writeback_ends (trace (write_completions l1 s))
     = writeback_ends (trace s) /\
     PageWriteback (pg (write_completions l1 s)) = PageWriteback (pg s)) /\
  (forall l', Permutation l l' ->
     writeback_ends (trace (write_completions l' s))
     = S (writeback_ends (trace s)) /\
     PageWriteback (pg (write_completions l' s)) = false /\
     ((exists e, In e l /\ e <> 0) ->
      PageError (pg (write_completions l' s)) = true /\
      In (EvMappingSetError (- EIO)) (trace (write_completions l' s)))).
Proof.
  intros Hiop Hne Hc Hlt. split.
  - intros l1 l2 -> Hl2. rewrite length_app in Hc.
    assert (0 < length l2)%nat by (destruct l2; [congruence | cbn; lia]).
    destruct (write_completions_pending l1 s iop Hiop ltac:(lia))
      as (_ & _ & _ & Hends & Hwb & _).
    split; assumption.
  - intros l' Hperm.
    assert (Hne' : l' <> []).
    { intros ->. apply Permutation_sym, Permutation_nil in Hperm.
      contradiction. }
    pose proof (Permutation_length Hperm) as Hlen.
    destruct (exists_last Hne') as (l1 & error & Hl').
    assert (Hmem : forall e, In e l -> In e l1 \/ e = error).
    { intros e He. apply (Permutation_in _ Hperm) in He. rewrite Hl' in He.
      apply in_app_or in He. destruct He as [He|[He|[]]]; auto. }
    rewrite Hl' in *. clear Hl'. rewrite length_app in Hlen.
    cbn [length] in Hlen.
    rewrite write_completions_app. cbn [write_completions].
    destruct (write_completions_pending l1 s iop Hiop ltac:(lia))
      as (iop1 & Hiop1 & Hwc1 & Hends1 & Hwb1 & Herr1 & Hset1 & Hin1).
    destruct (finish_page_writeback_step error _ iop1 Hiop1 ltac:(lia))
      as (iop2 & Hiop2 & Hwc2 & _ & Hends2 & Hwb2 & Herr2 & Hset2 & Hin2).
    assert (Hz : (write_count iop1 - 1 =? 0) = true)
      by (apply Z.eqb_eq; lia).
    rewrite Hz in Hends2, Hwb2.
    split; [rewrite Hends2, Hends1; lia|]. split; [exact Hwb2|].
    intros (e & He & Hnz). destruct (Hmem e He) as [Hin | ->].
    + split.
      * rewrite Herr2. rewrite Herr1; [apply orb_true_r|].
        left. exists e. split; assumption.
      * apply Hin2. apply Hset1. exists e. split; assumption.
    + split.
      * rewrite Herr2. apply Z.eqb_neq in Hnz. rewrite Hnz. reflexivity.
      * apply Hset2. exact Hnz.
Qed.

(** ** Queueing blocks for writeback *)

Section QueueProps.
Context {blk : BlockLayer}.


End QueueProps.

(** ** Writing one page back *)

Section WritePageProps.
Context {blk : BlockLayer}.
Variable ops : iomap_writeback_ops.

Lemma submit_all_submitted (l : list iomap_ioend) (s : pstate) :
  (forall e, In e l -> submit_event ops 0 e = EvSubmitBio (io_bio e)) ->
  submit_all ops l 0 s
  = (0, mkPstate (pg s) (trace s ++ map (fun e => EvSubmitBio (io_bio e)) l)).
Proof.
  revert s. induction l as [|ioend l IH]; intros s Hok.
  - cbn. rewrite app_nil_r. destruct s; reflexivity.
  - cbn [submit_all map]. unfold iomap_submit_ioend.
    pose proof (Hok ioend (or_introl eq_refl)) as Hev.
    unfold submit_event in Hev.
    destruct (match submit_ioend ops with
              | Some hook => hook ioend 0
              | None => 0
              end =? 0) eqn:Hz; [|discriminate].
    cbn [negb andb]. rewrite IH by (intros e He; apply Hok; right; exact He).
    unfold emit. cbn [pg trace]. rewrite <- app_assoc. reflexivity.
Qed.

(** X14. Submission errors propagate down the submit list: when the submit
    hook accepts the ioends of a prefix of the list and fails the next one
    with [err], the prefix is sent to the device, the failing ioend is ended
    with [err], every later ioend is handed [err] as its status instead of
    0, and [err] is what comes back.  The ioends that are ended complete at
    once unless chained bios hold their completion back: apart from the
    calls into the block layer the log only gains completion events, the
    page keeps its Locked, Dirty and Uptodate flags, and if the failing
    ioend completes at once and has a segment on the page, the page gets
    the error flag and -EIO is recorded on the mapping. *)
Theorem submit_all_propagates_first_error
    (l1 l2 : list iomap_ioend) (e : iomap_ioend) (err : Z) (s : pstate) :
  err <> 0 ->
  (forall x, In x l1 -> submit_event ops 0 x = EvSubmitBio (io_bio x)) ->
  submit_event ops 0 e = EvBioEndio (io_bio e) err ->
  exists s' evs,
    submit_all ops (l1 ++ e :: l2) 0 s = (err, s') /\
    trace s' = trace s ++ evs /\
    filter is_bio_event evs
    = map (fun x => EvSubmitBio (io_bio x)) l1
      ++ [EvBioEndio (io_bio e) err]
      ++ map (submit_event ops err) l2 /\
    Forall (fun x => is_bio_event x = true \/ is_completion_event x = true)
           evs /\
    PageLocked (pg s') = PageLocked (pg s) /\
    PageDirty (pg s') = PageDirty (pg s) /\
    PageUptodate (pg s') = PageUptodate (pg s) /\
    (completes_at_once e = true ->
     In (index (pg s)) (ioend_segments e) ->
     PageError (pg s') = true /\ In (EvMappingSetError (- EIO)) evs).
Proof.
  intros Herr Hok He. revert s.
  induction l1 as [|x l1 IH]; intros s.
  - cbn [app map submit_all].
    destruct (submit_ioend_cases ops e 0 s)
      as (e2 & ev1 & He2 & Hfst & Hc & _ & Hflag).
    assert (Herr2 : e2 = err).
    { unfold submit_event in He. rewrite <- He2 in He.
      destruct (e2 =? 0); [discriminate He|]. congruence. }
    clear He2. rewrite Herr2 in Hfst, Hflag. clear Herr2 e2.
    destruct (iomap_submit_ioend ops e 0 s) as [error2 s1].
    cbn [fst snd] in Hfst, Hc, Hflag. subst error2.
    replace (if negb (err =? 0) && (0 =? 0) then err else 0) with err
      by (apply Z.eqb_neq in Herr; rewrite Herr; reflexivity).
    rewrite He in Hc.
    destruct Hc as (T1 & F1 & I1 & L1 & D1 & U1 & E1 & W1).
    cbn [emit pg trace] in T1, I1, L1, D1, U1, E1, W1.
    destruct (completion_events_silent ev1 F1) as (Hb1 & _ & _).
    destruct (submit_all_failed ops l2 err Herr s1)
      as (s' & ev2 & Erun & Htr & Hbio & Hall & _ & _ & Hl & Hd & Hu & Hkeep
          & _).
    exists s', ([EvBioEndio (io_bio e) err] ++ ev1 ++ ev2).
    split; [exact Erun|].
    split; [rewrite Htr, T1, <- !app_assoc; reflexivity|].
    split; [rewrite !filter_app, Hb1, Hbio; reflexivity|].
    split.
    { apply Forall_app. split; [constructor; [left; reflexivity|constructor]|].
      apply Forall_app. split; [|exact Hall].
      eapply Forall_impl; [|exact F1]. intros a Ha. right. exact Ha. }
    split; [congruence|]. split; [congruence|]. split; [congruence|].
    intros Hnow Hseg. destruct (Hflag Herr Hnow Hseg) as [Hpe Hmse].
    split; [apply Hkeep; exact Hpe|].
    apply in_or_app. right. apply in_or_app. left. exact Hmse.
  - cbn [app map submit_all].
    pose proof (Hok x (or_introl eq_refl)) as Hev.
    unfold iomap_submit_ioend. unfold submit_event in Hev.
    destruct (match submit_ioend ops with
              | Some hook => hook x 0
              | None => 0
              end =? 0) eqn:Hz; [|discriminate].
    cbn [negb andb].
    destruct (IH (fun y Hy => Hok y (or_intror Hy))
                 (emit (EvSubmitBio (io_bio x)) s))
      as (s' & evs & Erun & Htr & Hbio & Hall & Hl & Hd & Hu & Hflag).
    cbn [emit pg trace] in Htr, Hl, Hd, Hu, Hflag.
    exists s', ([EvSubmitBio (io_bio x)] ++ evs).
    split; [exact Erun|].
    split; [rewrite Htr, <- app_assoc; reflexivity|].
    split; [cbn [app filter is_bio_event]; rewrite Hbio; reflexivity|].
    split; [constructor; [left; reflexivity | exact Hall]|].
    split; [exact Hl|]. split; [exact Hd|]. split; [exact Hu|].
    intros Hnow Hseg. destruct (Hflag Hnow Hseg) as [Hpe Hmse].
    split; [exact Hpe | right; exact Hmse].
Qed.

Lemma scan_skips_stale_blocks (n : nat) (ino : inode) (end_offset : Z) :
  forall i off st iop,
    to_iomap_page (pg (w_ps st)) = Some iop ->
    0 <= i ->
    (forall j, i <= j < i + Z.of_nat n -> test_bit j (uptodate iop) = false) ->
    writepage_map_scan ops n ino end_offset i off st = st.
Proof.
  induction n as [|n IH]; intros i off st iop Hiop Hi Hclear; [reflexivity|].
  cbn [writepage_map_scan].
  destruct (negb (off <? end_offset)); [reflexivity|].
  rewrite Hiop. rewrite (Hclear i) by lia. cbn [negb].
  apply (IH _ _ _ iop Hiop); [lia|]. intros j Hj. apply Hclear. lia.
Qed.

(** X13. Writeback of a page that has page state but no uptodate block
    maps and queues nothing, whatever the filesystem's operations are: the
    page is cleaned, unlocked, and its writeback is started and ended at
    once; the function returns 0 and the writepage context is untouched. *)
Theorem writepage_map_nothing_uptodate
    (wpc : iomap_writepage_ctx) (ino : inode) (end_offset : Z) (s : pstate)
    (iop : iomap_page) :
  to_iomap_page (pg s) = Some iop ->
  (forall j, 0 <= j < Z.shiftr PAGE_SIZE (i_blkbits ino) ->
             test_bit j (uptodate iop) = false) ->
  iomap_writepage_map ops wpc ino end_offset s
  = (0,
     mkPstate
       (ClearPageWriteback
          (ClearPageLocked (SetPageWriteback (ClearPageDirty (pg s)))))
       (trace s ++ [EvUnlockPage; EvEndPageWriteback]),
     wpc).
Proof.
  intros Hiop Hclear. unfold iomap_writepage_map.
  rewrite (scan_skips_stale_blocks _ ino end_offset 0 _
             (mkWstate s wpc [] 0 0) iop Hiop ltac:(lia)).
  - cbn. unfold end_page_writeback, unlock_page, emit, with_page. cbn.
    rewrite <- app_assoc. reflexivity.
  - intros j Hj. apply Hclear. lia.
Qed.

(** X12. When every block of the scan is mapped without error and the
    filesystem has no submit hook, [iomap_writepage_map] returns 0; the page
    ends up clean and unlocked; each ioend on the submit list is sent to the
    device with [submit_bio], in list order, and none is completed with an
    error; nothing is recorded on the mapping.  The page stays under
    writeback when at least one block was queued, and its writeback is ended
    at once when none was. *)
Theorem writepage_map_success
    (wpc : iomap_writepage_ctx) (ino : inode) (end_offset : Z) (s : pstate) :
  submit_ioend ops = None ->
  w_error (writepage_scan ops wpc ino end_offset s) = 0 ->
  iomap_writepage_map ops wpc ino end_offset s
  = (0,
     mkPstate
       ((if w_count (writepage_scan ops wpc ino end_offset s) =? 0
         then ClearPageWriteback else fun p => p)
          (ClearPageLocked
             (SetPageWriteback
                (ClearPageDirty
                   (pg (w_ps (writepage_scan ops wpc ino end_offset s)))))))
       (trace (w_ps (writepage_scan ops wpc ino end_offset s))
        ++ [EvUnlockPage]
        ++ map (fun e => EvSubmitBio (io_bio e))
               (w_submit_list (writepage_scan ops wpc ino end_offset s))
        ++ (if w_count (writepage_scan ops wpc ino end_offset s) =? 0
            then [EvEndPageWriteback] else [])),
     w_wpc (writepage_scan ops wpc ino end_offset s)).
Proof.
  intros Hhook Herr. unfold iomap_writepage_map.
  fold (writepage_scan ops wpc ino end_offset s).
  set (st := writepage_scan ops wpc ino end_offset s) in *.
  rewrite Herr. cbn [Z.eqb negb andb].
  rewrite submit_all_submitted
    by (intros e _; unfold submit_event; rewrite Hhook; reflexivity).
  unfold unlock_page, emit, with_page. cbn [pg trace].
  destruct (w_count st =? 0).
  - unfold end_page_writeback, mapping_set_error, emit, with_page.
    cbn [Z.eqb pg trace]. rewrite <- !app_assoc. reflexivity.
  - unfold mapping_set_error. cbn [Z.eqb]. rewrite app_nil_r.
    rewrite <- !app_assoc. reflexivity.
Qed.

(** X15. [iomap_do_writepage] sorts a page by where it lies relative to the
    end of the file.  A page that ends at or before EOF is scanned up to its
    own end.  A page that straddles EOF has its tail, from the in-page
    offset of EOF to the end of the page, zeroed first and is scanned up to
    EOF only.  A page that starts at or beyond EOF is not written at all:
    it is made dirty again and unlocked, nothing is mapped or queued, and 0
    is returned; the same happens when the caller is in memory reclaim. *)
Theorem do_writepage_by_position (memalloc nofs : bool)
    (wpc : iomap_writepage_ctx) (ino : inode) (s : pstate) :
  0 <= PAGE_SHIFT < 31 ->
  0 <= index (pg s) -> (index (pg s) + 1) * PAGE_SIZE < 2 ^ 62 ->
  0 <= i_size ino < 2 ^ 62 ->
  (memalloc = false -> nofs = false ->
   (index (pg s) + 1) * PAGE_SIZE <= i_size ino ->
   iomap_do_writepage ops memalloc nofs wpc ino s
   = iomap_writepage_map ops wpc ino ((index (pg s) + 1) * PAGE_SIZE) s) /\
  (memalloc = false -> nofs = false ->
   index (pg s) * PAGE_SIZE < i_size ino < (index (pg s) + 1) * PAGE_SIZE ->
   iomap_do_writepage ops memalloc nofs wpc ino s
   = iomap_writepage_map ops wpc ino (i_size ino)
       (emit (EvZeroUserSegments (i_size ino - index (pg s) * PAGE_SIZE)
                                 PAGE_SIZE 0 0) s)) /\
  (memalloc = true \/ nofs = true \/ i_size ino <= index (pg s) * PAGE_SIZE ->
   iomap_do_writepage ops memalloc nofs wpc ino s
   = (0,
      mkPstate (ClearPageLocked (SetPageDirty (pg s)))
               (trace s ++ [EvUnlockPage]),
      wpc)).
Proof.
  intros Hps Hidx Hmax Hsize.
  assert (Hpg : PAGE_SIZE = 2 ^ PAGE_SHIFT) by (apply PAGE_SIZE_pow2; lia).
  assert (Hpgpos : 0 < PAGE_SIZE) by (rewrite Hpg; apply pow2_pos; lia).
  assert (Hpglt : PAGE_SIZE < 2 ^ 31)
    by (rewrite Hpg; apply Z.pow_lt_mono_r; lia).
  assert (Hne : PAGE_SIZE <> 0) by lia.
  set (P := PAGE_SIZE) in *. set (idx := index (pg s)) in *.
  set (q := i_size ino / P).
  pose proof (Z.div_mod (i_size ino) P Hne) as Hdm.
  pose proof (Z.mod_pos_bound (i_size ino) P Hpgpos) as Hmod.
  fold q in Hdm.
  assert (Hq : 0 <= q <= i_size ino).
  { split; [apply Z.div_pos; lia|]. apply Z.div_le_upper_bound; [lia|].
    clearbody P q idx. nia. }
  assert (Hendidx : u64 (Z.shiftr (i_size ino) PAGE_SHIFT) = q).
  { rewrite Z.shiftr_div_pow2 by lia. rewrite <- Hpg. fold P. fold q.
    apply u64_small. lia. }
  assert (Hinto : u32 (Z.land (i_size ino) (P - 1)) = i_size ino mod P).
  { pose proof (offset_in_page_mod (i_size ino) ltac:(lia)) as H.
    unfold offset_in_page in H. fold P in H. rewrite H. apply u32_small. lia. }
  assert (Hredirty :
            (0, unlock_page (with_page s (SetPageDirty (pg s))), wpc)
            = (0, mkPstate (ClearPageLocked (SetPageDirty (pg s)))
                           (trace s ++ [EvUnlockPage]), wpc))
    by reflexivity.
  (* comparing page numbers is comparing byte offsets *)
  assert (Hlt : idx < q <-> (idx + 1) * P <= i_size ino).
  { clearbody P q idx. split; intros H; nia. }
  assert (Hgt : q < idx <-> i_size ino < idx * P).
  { clearbody P q idx. split; intros H; nia. }
  unfold iomap_do_writepage. fold P idx. rewrite Hendidx, Hinto.
  split; [|split].
  - intros -> -> Hin. apply Hlt in Hin.
    replace (idx <? q) with true by (symmetry; apply Z.ltb_lt; exact Hin).
    rewrite (s64_small (idx + 1)) by (clearbody P q idx; nia).
    rewrite Z.shiftl_mul_pow2 by lia. rewrite <- Hpg. fold P.
    rewrite s64_small by lia. rewrite u64_small by lia. reflexivity.
  - intros -> -> Hstr.
    assert (Hqi : q = idx) by (clearbody P q idx; nia).
    replace (idx <? q) with false by (symmetry; apply Z.ltb_ge; lia).
    replace (q <? idx) with false by (symmetry; apply Z.ltb_ge; lia).
    assert (Hm : i_size ino mod P = i_size ino - idx * P)
      by (clearbody P q idx; nia).
    rewrite Hm.
    replace (i_size ino - idx * P =? 0) with false
      by (symmetry; apply Z.eqb_neq; lia).
    rewrite andb_false_r. cbn [orb].
    rewrite (u64_small (i_size ino)) by lia. reflexivity.
  - intros Hcase. destruct memalloc; [exact Hredirty|].
    destruct nofs; [exact Hredirty|].
    destruct Hcase as [H|[H|Hbeyond]]; try discriminate.
    assert (Hqle : q <= idx) by (clearbody P q idx; nia).
    replace (idx <? q) with false by (symmetry; apply Z.ltb_ge; lia).
    destruct (Z.ltb_spec q idx) as [Hlt'|Hge]; cbn [orb]; [exact Hredirty|].
    assert (Hqi : q = idx) by lia.
    assert (Hm : i_size ino mod P = 0) by (clearbody P q idx; nia).
    rewrite Hm. replace (idx =? q) with true
      by (symmetry; apply Z.eqb_eq; lia).
    cbn. exact Hredirty.
Qed.

End WritePageProps.

(** ** Merging ioends *)

(** ** The write path *)

(** The runs prepared by [__iomap_write_begin] lie between the first and the
    last block of the write window. *)
Lemma write_begin_runs
    (submit_bio_wait : Z -> Z -> Z -> Z) (fuel : nat) (ino : inode)
    (pos len : Z) (im : iomap) (s : pstate) :
  0 <= i_blkbits ino <= PAGE_SHIFT -> PAGE_SHIFT < 31 ->
  0 <= pos -> pos + PAGE_SIZE < 2 ^ 62 ->
  0 < len -> offset_in_page pos + len <= PAGE_SIZE ->
  PageUptodate (pg s) = false ->
  (Z.to_nat (PAGE_SIZE / i_blocksize ino) <= fuel)%nat ->
  exists status s' evs,
    __iomap_write_begin fuel submit_bio_wait ino pos len im s
    = Some (status, s') /\
    trace s' = trace s ++ evs /\
    (forall e, In e evs ->
       exists bl bh,
         prepares ino im (pos - offset_in_page pos) e
                  (offset_in_page pos) (offset_in_page pos + len)
                  (bl * i_blocksize ino) (bh * i_blocksize ino) /\
         (offset_in_page pos / i_blocksize ino <= bl /\ bl < bh /\
          bh <= (offset_in_page pos + len - 1) / i_blocksize ino + 1) /\
         (bl * i_blocksize ino < offset_in_page pos < bh * i_blocksize ino \/
          bl * i_blocksize ino < offset_in_page pos + len
          < bh * i_blocksize ino)).
Proof.
  intros Hbits Hps Hpos Hmax Hlen Hfit Hupt Hfuel.
  rewrite i_blocksize_pow2 in * by lia.
  rewrite offset_in_page_mod in * by lia.
  set (bs := 2 ^ i_blkbits ino) in *.
  set (from := pos mod PAGE_SIZE) in *.
  assert (Hbs : 0 < bs) by (apply pow2_pos; lia).
  assert (Hpg : PAGE_SIZE = 2 ^ PAGE_SHIFT) by (apply PAGE_SIZE_pow2; lia).
  assert (Hpgpos : 0 < PAGE_SIZE) by (rewrite Hpg; apply pow2_pos; lia).
  assert (Hpglt : PAGE_SIZE < 2 ^ 31)
    by (rewrite Hpg; apply Z.pow_lt_mono_r; lia).
  pose proof (page_blocks ino Hbits) as Hnb. fold bs in Hnb.
  set (nb := 2 ^ (PAGE_SHIFT - i_blkbits ino)) in *.
  assert (Hnbpos : 0 < nb) by (apply pow2_pos; lia).
  assert (Hbsle : bs <= PAGE_SIZE).
  { rewrite Hnb. replace bs with (1 * bs) at 1 by ring.
    apply Z.mul_le_mono_nonneg_r; lia. }
  pose proof (Z.mod_pos_bound pos PAGE_SIZE Hpgpos) as Hfrom. fold from in Hfrom.
  set (base := pos - from).
  assert (Hbase : base = PAGE_SIZE * (pos / PAGE_SIZE)).
  { assert (Hne : PAGE_SIZE <> 0) by lia.
    unfold base, from. pose proof (Z.div_mod pos PAGE_SIZE Hne). lia. }
  assert (Hbase0 : 0 <= base).
  { rewrite Hbase. apply Z.mul_nonneg_nonneg; [lia|]. apply Z.div_pos; lia. }
  assert (Hbasepg : base mod PAGE_SIZE = 0).
  { rewrite Hbase, Z.mul_comm. apply Z.mod_mul. lia. }
  assert (Hbasebs : exists qb, base = qb * bs).
  { exists (pos / PAGE_SIZE * nb). rewrite Hbase, Hnb. ring. }
  destruct Hbasebs as [qb Hqb].
  set (fb := from / bs). set (lb := (from + len - 1) / bs).
  pose proof (proj1 (block_index_spec from bs fb Hbs) eq_refl) as Hfb.
  pose proof (proj1 (block_index_spec (from + len - 1) bs lb Hbs) eq_refl) as Hlb.
  assert (Hfblb : 0 <= fb <= lb).
  { split; [apply Z.div_pos; lia|]. apply Z.div_le_mono; lia. }
  assert (Hlbnb : lb < nb).
  { apply (Z.mul_lt_mono_pos_r bs lb nb Hbs). lia. }
  assert (Hlbpg : (lb + 1) * bs <= PAGE_SIZE).
  { rewrite Hnb. apply Z.mul_le_mono_nonneg_r; lia. }
  (* the block-aligned window *)
  assert (Hstart : Z.land pos (Z.lnot (bs - 1)) = base + fb * bs).
  { unfold bs. rewrite land_lnot_block by lia.
    rewrite <- (mod_block_of_page_offset ino pos Hbits). fold bs. fold from.
    assert (Hne : bs <> 0) by lia.
    pose proof (Z.div_mod from bs Hne) as Hdm. unfold base, fb.
    rewrite (Z.mul_comm bs) in Hdm.
    clear - Hdm. clearbody from.
    generalize dependent (from / bs * bs). generalize (from mod bs).
    intros; lia. }
  assert (Hstop : Z.land (s64 (pos + len + bs - 1)) (Z.lnot (bs - 1))
                  = base + (lb + 1) * bs).
  { rewrite s64_small by lia.
    unfold bs. rewrite land_lnot_block by lia. fold bs.
    replace (pos + len + bs - 1) with ((from + len - 1) + (qb + 1) * bs)
      by (unfold base in *; lia).
    rewrite Z_mod_plus_full.
    assert (Hne : bs <> 0) by lia.
    pose proof (Z.div_mod (from + len - 1) bs Hne) as Hdm. fold lb in Hdm.
    rewrite (Z.mul_comm bs) in Hdm. rewrite Hqb.
    replace ((lb + 1) * bs) with (lb * bs + bs) by ring.
    replace ((qb + 1) * bs) with (qb * bs + bs) by ring.
    unfold base in Hqb. clear - Hqb Hdm Hmax Hpgpos. clearbody from lb.
    generalize dependent (lb * bs). generalize dependent (qb * bs).
    generalize ((from + len - 1) mod bs).
    intros; lia. }
  unfold __iomap_write_begin.
  rewrite i_blocksize_pow2 by lia. fold bs.
  rewrite Hstart, Hstop. clear Hstart Hstop.
  rewrite offset_in_page_mod by lia. fold from.
  rewrite (u32_small from) by lia. rewrite (u32_small (from + len)) by lia.
  cbn [pg with_page].
  assert (Hupt' : PageUptodate (iomap_page_create ino (pg s)) = false).
  { unfold iomap_page_create.
    destruct (to_iomap_page (pg s)); [exact Hupt|].
    destruct (i_blocksize ino =? PAGE_SIZE); exact Hupt. }
  rewrite Hupt'.
  destruct (write_begin_loop_spec submit_bio_wait ino im from (from + len) base
              lb (bitmap_of (to_iomap_page (iomap_page_create ino (pg s))))
              Hbits Hps Hbase0 Hbasepg ltac:(unfold base; lia) ltac:(lia)
              ltac:(lia) Hlbpg fuel fb
              (mkPstate (iomap_page_create ino (pg s)) (trace s))
              Hfblb ltac:(lia)
              ltac:(rewrite Hnb, div_mul_block in Hfuel by exact Hbs; lia)
              ltac:(intros; reflexivity))
    as (status & s' & evs & Erun & Htr & HC & HB & HD).
  fold bs in Erun, HC, HB.
  exists status, s', evs.
  split; [exact Erun|]. split; [exact Htr|].
  intros e He. destruct (HC e He) as (bl & bh & Hp & Hr & Hr' & _ & Hrest).
  exists bl, bh. split; [exact Hp|]. split; [|exact Hrest].
  fold from. fold fb. fold lb. lia.
Qed.

(** Every preparation of the loop leaves an entry in the log: a run of the
    loop that adds none has prepared nothing and succeeded. *)
Lemma write_begin_loop_quiet (submit_bio_wait : Z -> Z -> Z -> Z)
    (ino : inode) (im : iomap) (from to block_end : Z) (fuel : nat) :
  forall (block_start : Z) (s : pstate) (status : Z) (s' : pstate),
    write_begin_loop fuel submit_bio_wait ino im from to block_end block_start s
    = Some (status, s') ->
    (length (trace s) <= length (trace s'))%nat /\
    (length (trace s') = length (trace s) -> status = 0 /\ s' = s).
Proof.
  induction fuel as [|fuel IH]; intros block_start s status s' E;
    [discriminate|].
  cbn [write_begin_loop] in E.
  destruct (iomap_adjust_read_range ino (to_iomap_page (pg s)) block_start
              (s64 (block_end - block_start))) as [[bstart poff] plen].
  destruct (plen =? 0).
  { injection E as <- <-. split; [lia | auto]. }
  destruct ((poff <? from) && (from <? u32 (poff + plen))
            || (poff <? to) && (to <? u32 (poff + plen))).
  - destruct (iomap_read_page_sync submit_bio_wait ino bstart poff plen from to
                im s) as [st s1] eqn:Esync.
    assert (Hlen : length (trace s1) = S (length (trace s))).
    { unfold iomap_read_page_sync in Esync.
      destruct (iomap_block_needs_zeroing ino im bstart);
        injection Esync as <- <-; cbn; rewrite length_app; cbn; lia. }
    destruct (negb (st =? 0)).
    + injection E as <- <-. split; [lia | intros; lia].
    + destruct (s64 (bstart + plen) <? block_end).
      * apply IH in E. destruct E as [Hle _]. split; [lia | intros; lia].
      * injection E as <- <-. split; [lia | intros; lia].
  - cbn [negb Z.eqb] in E.
    destruct (s64 (bstart + plen) <? block_end).
    + apply IH in E. exact E.
    + injection E as <- <-. split; [lia | auto].
Qed.

(** A write window whose edges fall on block boundaries. *)
Lemma aligned_window_blocks (from len bs : Z) :
  0 < bs -> 0 <= from -> 0 < len -> from mod bs = 0 -> len mod bs = 0 ->
  from = from / bs * bs /\ from + len = ((from + len - 1) / bs + 1) * bs.
Proof.
  intros Hbs Hfrom Hlen Hf Hl.
  assert (Hne : bs <> 0) by lia.
  pose proof (Z.div_mod from bs Hne) as Hd1.
  assert (He : (from + len) mod bs = 0).
  { rewrite (Z.add_mod from len bs) by lia. rewrite Hf, Hl. rewrite Z.add_0_l. apply Zmod_0_l. }
  pose proof (Z.div_mod (from + len) bs Hne) as Hd2.
  rewrite He in Hd2. rewrite Hf in Hd1.
  split; [lia|].
  set (q := (from + len) / bs) in *.
  assert (Hq : (from + len - 1) / bs = q - 1).
  { symmetry. apply (Z.div_unique _ _ _ (bs - 1)); [lia|]. lia. }
  rewrite Hq. lia.
Qed.

(** X17. A write whose window starts and ends on block boundaries needs no
    preparation: [__iomap_write_begin] returns 0, and it neither reads from
    the device nor zeroes any part of the page, whatever the blocks of the
    page hold. *)
Theorem write_begin_aligned_window_reads_nothing
    (submit_bio_wait : Z -> Z -> Z -> Z) (fuel : nat) (ino : inode)
    (pos len : Z) (im : iomap) (s : pstate) :
  0 <= i_blkbits ino <= PAGE_SHIFT -> PAGE_SHIFT < 31 ->
  0 <= pos -> pos + PAGE_SIZE < 2 ^ 62 ->
  0 < len -> offset_in_page pos + len <= PAGE_SIZE ->
  pos mod i_blocksize ino = 0 -> len mod i_blocksize ino = 0 ->
  (Z.to_nat (PAGE_SIZE / i_blocksize ino) <= fuel)%nat ->
  exists s',
    __iomap_write_begin fuel submit_bio_wait ino pos len im s = Some (0, s') /\
    trace s' = trace s.
Proof.
  intros Hbits Hps Hpos Hmax Hlen Hfit Hap Hal Hfuel.
  destruct (PageUptodate (pg s)) eqn:Hupt.
  - unfold __iomap_write_begin. cbn [pg with_page].
    rewrite (proj1 (page_create_flags ino (pg s))), Hupt.
    eexists. split; [reflexivity | reflexivity].
  - destruct (write_begin_runs submit_bio_wait fuel ino pos len im s Hbits Hps
                Hpos Hmax Hlen Hfit Hupt Hfuel)
      as (status & s' & evs & Erun & Htr & HC).
    assert (Hbs : 0 < i_blocksize ino)
      by (rewrite i_blocksize_pow2 by lia; apply pow2_pos; lia).
    assert (Hoffb : offset_in_page pos mod i_blocksize ino = 0).
    { rewrite offset_in_page_mod by lia.
      rewrite i_blocksize_pow2 in * by lia.
      rewrite (mod_block_of_page_offset ino pos Hbits). exact Hap. }
    assert (Hoff0 : 0 <= offset_in_page pos).
    { rewrite offset_in_page_mod by lia. apply Z.mod_pos_bound.
      rewrite PAGE_SIZE_pow2 by lia. apply pow2_pos. lia. }
    destruct (aligned_window_blocks (offset_in_page pos) len (i_blocksize ino)
                Hbs Hoff0 Hlen Hoffb Hal) as [Hfrom Hto].
    assert (Hevs : evs = []).
    { destruct evs as [|e evs']; [reflexivity|]. exfalso.
      destruct (HC e (or_introl eq_refl))
        as (bl & bh & _ & (Hlo & Hlt & Hhi) & Hedge).
      set (fb := offset_in_page pos / i_blocksize ino) in *.
      set (lb := (offset_in_page pos + len - 1) / i_blocksize ino) in *.
      assert (H1 : fb * i_blocksize ino <= bl * i_blocksize ino)
        by (apply Z.mul_le_mono_nonneg_r; lia).
      assert (H2 : bh * i_blocksize ino <= (lb + 1) * i_blocksize ino)
        by (apply Z.mul_le_mono_nonneg_r; lia).
      lia. }
    subst evs. rewrite app_nil_r in Htr.
    exists s'. split; [|exact Htr].
    rewrite Erun. unfold __iomap_write_begin in Erun. cbn [pg with_page] in Erun.
    rewrite (proj1 (page_create_flags ino (pg s))), Hupt in Erun.
    apply write_begin_loop_quiet in Erun. cbn [trace] in Erun.
    destruct Erun as [_ Hq]. rewrite Htr in Hq.
    destruct (Hq eq_refl) as [-> _]. reflexivity.
Qed.

(** ** Write end *)

Lemma set_range_uptodate_other_flags (ino : inode) (p : page) (off len : Z) :
  PageDirty (iomap_set_range_uptodate ino p off len) = PageDirty p /\
  page_mapping (iomap_set_range_uptodate ino p off len) = page_mapping p /\
  PageLocked (iomap_set_range_uptodate ino p off len) = PageLocked p /\
  PageWriteback (iomap_set_range_uptodate ino p off len) = PageWriteback p.
Proof.
  unfold iomap_set_range_uptodate.
  destruct (to_iomap_page p) as [iop|].
  - destruct (set_range_loop _ _ _ _ _ _) as [bm upt].
    destruct (upt && _); cbn; auto.
  - destruct (true && _); cbn; auto.
Qed.

Lemma set_page_dirty_page (s : pstate) :
  pg (snd (iomap_set_page_dirty s)) = SetPageDirty (pg s) /\
  trace (snd (iomap_set_page_dirty s))
  = trace s ++ (if negb (PageDirty (pg s)) && page_mapping (pg s)
                then [EvMarkInodeDirty] else []).
Proof.
  unfold iomap_set_page_dirty.
  destruct (page_mapping (pg s)), (PageDirty (pg s)); cbn;
    rewrite ?app_nil_r; auto.
Qed.

(** X18. A complete copy makes the written range visible: when all [len]
    bytes were copied into a page with page state, [__iomap_write_end]
    returns [len], [iomap_is_partially_uptodate] then reports the written
    range uptodate, the page is dirty, and the inode is marked dirty exactly
    when the page was clean before and belongs to a mapping. *)
Theorem write_end_full_copy_publishes_range
    (ino : inode) (pos len : Z) (s : pstate) (iop : iomap_page) :
  0 <= i_blkbits ino <= PAGE_SHIFT -> PAGE_SHIFT < 32 ->
  to_iomap_page (pg s) = Some iop ->
  0 <= pos -> 0 < len < 2 ^ 31 -> offset_in_page pos + len <= PAGE_SIZE ->
  exists s',
    __iomap_write_end ino pos len len s = (len, s') /\
    iomap_is_partially_uptodate ino (pg s') (offset_in_page pos) len = 1 /\
    PageDirty (pg s') = true /\
    trace s' = trace s ++ (if negb (PageDirty (pg s)) && page_mapping (pg s)
                           then [EvMarkInodeDirty] else []).
Proof.
  intros Hbits Hps Hiop Hpos Hlen Hfit.
  assert (Hpg : 0 < PAGE_SIZE)
    by (rewrite PAGE_SIZE_pow2 by lia; apply pow2_pos; lia).
  assert (Hpglt : PAGE_SIZE < 2 ^ 32).
  { rewrite PAGE_SIZE_pow2 by lia. apply Z.pow_lt_mono_r; lia. }
  assert (Hoff : 0 <= offset_in_page pos < PAGE_SIZE).
  { rewrite offset_in_page_mod by lia. apply Z.mod_pos_bound. exact Hpg. }
  unfold __iomap_write_end.
  rewrite Z.ltb_irrefl. cbn [andb].
  rewrite (u32_small (offset_in_page pos)) by lia.
  set (s1 := with_page s (iomap_set_range_uptodate ino (pg s)
                            (offset_in_page pos) len)).
  destruct (set_page_dirty_page s1) as [Hp Ht].
  destruct (iomap_set_page_dirty s1) as [nd s2]. cbn [snd] in Hp, Ht.
  exists s2. rewrite s32_small by lia.
  split; [reflexivity|].
  destruct (set_range_uptodate_other_flags ino (pg s) (offset_in_page pos) len)
    as (Hd & Hm & _).
  destruct (set_range_uptodate_spec ino (pg s) iop (offset_in_page pos) len
              Hbits Hps Hiop (proj1 Hoff) (proj1 Hlen) Hfit)
    as (iop' & Hiop' & Hset & _).
  split; [|split].
  - apply (is_partially_uptodate_spec ino _ (offset_in_page pos) len Hbits Hps);
      [lia | lia |].
    exists iop'. rewrite Hp. split; [exact Hiop'|].
    intros b Hb1 Hb2.
    assert (Hbs : 0 < i_blocksize ino)
      by (rewrite i_blocksize_pow2 by lia; apply pow2_pos; lia).
    apply Hset; [nia|]. right. split; [exact Hb1 | lia].
  - rewrite Hp. reflexivity.
  - rewrite Ht. subst s1. cbn [pg with_page trace]. rewrite Hd, Hm. reflexivity.
Qed.

(** What the three ways of finishing the copy log outside the page. *)
Lemma write_end_inner_log (inline_data : Z)
    (block_write_end : Z -> Z -> Z -> pstate -> Z * pstate)
    (ino : inode) (pos len copied : Z) (im : iomap) (s : pstate)
    (ret : Z) (s1 : pstate) (log1 : list wr_event) :
  (if iomap_type_eqb (iomap_type_of im) IOMAP_INLINE then
     match iomap_write_end_inline inline_data pos copied with
     | None => None
     | Some (ret, log) => Some (ret, s, log)
     end
   else if negb (Z.land (iomap_flags im) IOMAP_F_BUFFER_HEAD =? 0) then
     let '(ret, s1) := block_write_end pos len copied s in Some (ret, s1, [])
   else
     let '(ret, s1) := __iomap_write_end ino pos len copied s in
     Some (ret, s1, [])) = Some (ret, s1, log1) ->
  log1 = [] \/ log1 = [WrMarkInodeDirty].
Proof.
  destruct (iomap_type_eqb (iomap_type_of im) IOMAP_INLINE).
  - unfold iomap_write_end_inline. destruct (_ <? _); [discriminate|].
    intros E. injection E as <- <- <-. auto.
  - destruct (negb _).
    + destruct (block_write_end pos len copied s). intros E.
      injection E as <- <- <-. auto.
    + destruct (__iomap_write_end ino pos len copied s). intros E.
      injection E as <- <- <-. auto.
Qed.

(** X19. [iomap_write_end] never shrinks the file and never throws written
    data away.  Whatever way the copy is finished (inline, buffer heads or
    page state), with [ret] the bytes it reports: the new file size is the
    larger of the old size and [pos + ret], the extent is flagged SizeChanged
    exactly when the size grew, the page is unlocked last and released, and
    the page cache is truncated only after a short write, from the larger of
    [pos] and the new file size up to [pos + len], which lies neither below
    the old size nor below the end of the bytes written. *)
Theorem write_end_keeps_size_and_written_bytes
    (inline_data : Z) (page_done : bool)
    (block_write_end : Z -> Z -> Z -> pstate -> Z * pstate)
    (ino : inode) (pos len copied : Z) (im : iomap) (s : pstate)
    (ret : Z) (s' : pstate) (ino' : inode) (im' : iomap)
    (log : list wr_event) :
  0 <= pos < 2 ^ 62 -> 0 <= i_size ino < 2 ^ 62 -> 0 <= len < 2 ^ 32 ->
  - 2 ^ 31 <= ret < 2 ^ 31 ->
  iomap_write_end inline_data page_done block_write_end ino pos len copied im s
  = Some (ret, s', ino', im', log) ->
  i_size ino' = Z.max (i_size ino) (pos + ret) /\
  i_blkbits ino' = i_blkbits ino /\
  iomap_flags im'
  = (if i_size ino <? pos + ret
     then Z.lor (iomap_flags im) IOMAP_F_SIZE_CHANGED else iomap_flags im) /\
  PageLocked (pg s') = false /\
  (exists t, trace s' = t ++ [EvUnlockPage]) /\
  In WrPutPage log /\
  (forall a b, In (WrTruncatePagecacheRange a b) log ->
     0 <= ret -> 
     ret < len /\ b = pos + len /\ a = Z.max pos (i_size ino') /\
     i_size ino <= a /\ pos + ret <= a /\ a < b).
Proof.
  intros Hpos Hsize Hlen Hret E.
  unfold iomap_write_end in E.
  match type of E with
  | match ?w with _ => _ end = _ =>
      destruct w as [[[r s1] log1]|] eqn:Ew; [|discriminate]
  end.
  apply write_end_inner_log in Ew.
  injection E as <- <- <- <- <-.
  rewrite (s64_small (pos + r)) by lia.
  split.
  { destruct (i_size ino <? pos + r) eqn:Hg; cbn [set_i_size i_size]; b2p; lia. }
  split.
  { destruct (i_size ino <? pos + r); reflexivity. }
  split.
  { destruct (i_size ino <? pos + r); reflexivity. }
  split; [reflexivity|].
  split.
  { exists (trace s1). reflexivity. }
  split.
  { do 3 (apply in_or_app; right). left. reflexivity. }
  intros a b Hin Hr0.
  rewrite !in_app_iff in Hin.
  assert (Hin' : In (WrTruncatePagecacheRange a b)
                   (if u32 r <? len
                    then iomap_write_failed
                           (if i_size ino <? pos + r
                            then set_i_size ino (pos + r) else ino) pos len
                    else [])).
  { destruct Hin as [Hin | [Hin | [Hin | [Hin | Hin]]]].
    - destruct Ew as [-> | ->]; cbn in Hin; [tauto|].
      destruct Hin as [Hin|[]]; discriminate.
    - destruct (i_size ino <? pos); cbn in Hin; [|tauto].
      destruct Hin as [Hin|[]]; discriminate.
    - destruct page_done; cbn in Hin; [|tauto].
      destruct Hin as [Hin|[]]; discriminate.
    - discriminate Hin.
    - exact Hin. }
  clear Hin. rewrite (u32_small r) in Hin' by lia.
  destruct (r <? len) eqn:Hshort; [|destruct Hin'].
  unfold iomap_write_failed in Hin'.
  rewrite (s64_small (pos + len)) in Hin' by lia.
  set (ino1 := if i_size ino <? pos + r then set_i_size ino (pos + r) else ino)
    in *.
  assert (Hsz : i_size ino1 = Z.max (i_size ino) (pos + r)).
  { unfold ino1. destruct (i_size ino <? pos + r) eqn:Hg;
      cbn [set_i_size i_size]; b2p; lia. }
  destruct (i_size ino1 <? pos + len) eqn:Hbeyond; [|destruct Hin'].
  destruct Hin' as [Hin'|[]]. injection Hin' as <- <-.
  b2p. lia.
Qed.

(** ** Write begin around the page *)

Lemma read_page_sync_keeps_lock (submit_bio_wait : Z -> Z -> Z -> Z)
    (ino : inode) (block_start poff plen from to : Z) (im : iomap)
    (s : pstate) :
  PageLocked (pg (snd (iomap_read_page_sync submit_bio_wait ino block_start
                         poff plen from to im s))) = PageLocked (pg s) /\
  unlocks (trace (snd (iomap_read_page_sync submit_bio_wait ino block_start
                         poff plen from to im s))) = unlocks (trace s).
Proof.
  unfold iomap_read_page_sync.
  destruct (iomap_block_needs_zeroing ino im block_start);
    cbn [snd pg trace emit with_page]; rewrite unlocks_app;
    unfold unlocks at 2; cbn [filter is_unlock length].
  - split; [|lia].
    apply (set_range_uptodate_other_flags ino (pg s) poff plen).
  - split; [reflexivity | lia].
Qed.

Lemma write_begin_loop_keeps_lock (submit_bio_wait : Z -> Z -> Z -> Z)
    (ino : inode) (im : iomap) (from to block_end : Z) (fuel : nat) :
  forall (block_start : Z) (s : pstate) (status : Z) (s' : pstate),
    write_begin_loop fuel submit_bio_wait ino im from to block_end block_start s
    = Some (status, s') ->
    PageLocked (pg s') = PageLocked (pg s) /\
    unlocks (trace s') = unlocks (trace s).
Proof.
  induction fuel as [|fuel IH]; intros block_start s status s' E;
    [discriminate|].
  cbn [write_begin_loop] in E.
  destruct (iomap_adjust_read_range ino (to_iomap_page (pg s)) block_start
              (s64 (block_end - block_start))) as [[bstart poff] plen].
  destruct (plen =? 0).
  { injection E as <- <-. auto. }
  destruct ((poff <? from) && (from <? u32 (poff + plen))
            || (poff <? to) && (to <? u32 (poff + plen))).
  - pose proof (read_page_sync_keeps_lock submit_bio_wait ino bstart poff plen
                  from to im s) as Hk.
    destruct (iomap_read_page_sync submit_bio_wait ino bstart poff plen from to
                im s) as [st s1]. cbn [snd] in Hk.
    destruct (negb (st =? 0)).
    + injection E as <- <-. exact Hk.
    + destruct (s64 (bstart + plen) <? block_end).
      * apply IH in E. destruct E as [E1 E2], Hk as [K1 K2].
        rewrite E1, E2. auto.
      * injection E as <- <-. exact Hk.
  - cbn [negb Z.eqb] in E.
    destruct (s64 (bstart + plen) <? block_end).
    + apply IH in E. exact E.
    + injection E as <- <-. auto.
Qed.

Lemma write_begin_keeps_lock (submit_bio_wait : Z -> Z -> Z -> Z) (fuel : nat)
    (ino : inode) (pos len : Z) (im : iomap) (s : pstate) (status : Z)
    (s' : pstate) :
  __iomap_write_begin fuel submit_bio_wait ino pos len im s = Some (status, s')
  -> PageLocked (pg s') = PageLocked (pg s) /\
     unlocks (trace s') = unlocks (trace s).
Proof.
  unfold __iomap_write_begin. cbn [pg with_page].
  destruct (page_create_flags ino (pg s)) as (_ & _ & _ & _ & Hl).
  destruct (PageUptodate (iomap_page_create ino (pg s))).
  - intros E. injection E as <- <-. cbn. auto.
  - intros E. apply write_begin_loop_keeps_lock in E. cbn [pg trace with_page] in E.
    rewrite Hl in E. exact E.
Qed.

Lemma write_failed_beyond_eof (ino : inode) (pos len a b : Z) :
  0 <= pos < 2 ^ 62 -> 0 < len < 2 ^ 32 ->
  In (WrTruncatePagecacheRange a b) (iomap_write_failed ino pos len) ->
  i_size ino <= a /\ pos <= a /\ a < b /\ b = pos + len.
Proof.
  intros Hpos Hlen. unfold iomap_write_failed.
  rewrite s64_small by lia.
  destruct (i_size ino <? pos + len) eqn:Hb; [|intros []].
  intros [Hin|[]]. injection Hin as <- <-. b2p. lia.
Qed.

(** [__iomap_write_begin] returns when it has one iteration of fuel for
    every block of the page. *)
Lemma write_begin_returns
    (submit_bio_wait : Z -> Z -> Z -> Z) (fuel : nat) (ino : inode)
    (pos len : Z) (im : iomap) (s : pstate) :
  0 <= i_blkbits ino <= PAGE_SHIFT -> PAGE_SHIFT < 31 ->
  0 <= pos -> pos + PAGE_SIZE < 2 ^ 62 ->
  0 < len -> offset_in_page pos + len <= PAGE_SIZE ->
  (Z.to_nat (PAGE_SIZE / i_blocksize ino) <= fuel)%nat ->
  exists status s',
    __iomap_write_begin fuel submit_bio_wait ino pos len im s
    = Some (status, s').
Proof.
  intros Hbits Hps Hpos Hmax Hlen Hfit Hfuel.
  destruct (PageUptodate (pg s)) eqn:Hupt.
  - unfold __iomap_write_begin. cbn [pg with_page].
    rewrite (proj1 (page_create_flags ino (pg s))), Hupt.
    eexists _, _. reflexivity.
  - destruct (write_begin_runs submit_bio_wait fuel ino pos len im s Hbits Hps
                Hpos Hmax Hlen Hfit Hupt Hfuel)
      as (status & s' & evs & Erun & _).
    exists status, s'. exact Erun.
Qed.

(** X20. [iomap_write_begin] for a write inside one page and inside the
    extent, on an extent handled through page state and with one iteration
    of fuel for every block of the page, returns: no [BUG_ON] fires.  Either
    it returns 0 and hands the caller the grabbed page, still locked and with
    nothing released or truncated; or it returns a non-zero status and hands
    over no page.  In that case a page that was grabbed has been unlocked
    exactly once and released, and the page cache is truncated only from the
    end of file or [pos], whichever is larger, to the end of the write. *)
Theorem write_begin_hands_over_or_cleans_up
    (fuel : nat) (submit_bio_wait : Z -> Z -> Z -> Z) (inline_data : Z)
    (fatal_signal_pending : bool) (page_prepare : option Z) (page_done : bool)
    (grab_cache_page_write_begin : option pstate)
    (__block_write_begin_int : Z -> Z -> pstate -> Z * pstate)
    (ino : inode) (pos len : Z) (im : iomap) :
  0 <= i_blkbits ino <= PAGE_SHIFT -> PAGE_SHIFT < 31 ->
  0 <= pos -> pos + PAGE_SIZE < 2 ^ 62 ->
  0 < len -> offset_in_page pos + len <= PAGE_SIZE ->
  pos + len <= iomap_offset im + iomap_length im < 2 ^ 64 ->
  (Z.to_nat (PAGE_SIZE / i_blocksize ino) <= fuel)%nat ->
  iomap_type_of im <> IOMAP_INLINE ->
  Z.land (iomap_flags im) IOMAP_F_BUFFER_HEAD = 0 ->
  exists r,
    iomap_write_begin fuel submit_bio_wait inline_data fatal_signal_pending
                      page_prepare page_done grab_cache_page_write_begin
                      __block_write_begin_int ino pos len im = WbDone r /\
    ((wb_status r = 0 /\ wb_released r = None /\ wb_log r = [] /\
      exists s s1,
        grab_cache_page_write_begin = Some s /\ wb_pagep r = Some s1 /\
        PageLocked (pg s1) = PageLocked (pg s) /\
        unlocks (trace s1) = unlocks (trace s)) \/
     (wb_status r <> 0 /\ wb_pagep r = None /\
      (forall a b, In (WrTruncatePagecacheRange a b) (wb_log r) ->
         i_size ino <= a /\ pos <= a /\ a < b /\ b = pos + len) /\
      ((wb_released r = None /\ ~ In WrPutPage (wb_log r) /\
        (fatal_signal_pending = true \/ page_prepare = Some (wb_status r) \/
         grab_cache_page_write_begin = None)) \/
       (exists s s1,
          grab_cache_page_write_begin = Some s /\ wb_released r = Some s1 /\
          PageLocked (pg s1) = false /\
          unlocks (trace s1) = S (unlocks (trace s)) /\
          In WrPutPage (wb_log r))))).
Proof.
  intros Hbits Hps Hpos0 Hmax Hlen0 Hfit Hext Hfuel Htype Hflag.
  assert (Hpg : PAGE_SIZE < 2 ^ 31).
  { rewrite PAGE_SIZE_pow2 by lia. apply Z.pow_lt_mono_r; lia. }
  assert (Hoff0 : 0 <= offset_in_page pos).
  { rewrite offset_in_page_mod by lia. apply Z.mod_pos_bound.
    rewrite PAGE_SIZE_pow2 by lia. apply pow2_pos. lia. }
  assert (Hpos : 0 <= pos < 2 ^ 62).
  { split; [lia|].
    assert (0 < PAGE_SIZE)
      by (rewrite PAGE_SIZE_pow2 by lia; apply pow2_pos; lia).
    lia. }
  assert (Hlen : 0 < len < 2 ^ 32) by lia.
  unfold iomap_write_begin.
  rewrite (u64_small (iomap_offset im + iomap_length im)) by lia.
  rewrite (u64_small (pos + len)) by lia.
  replace (iomap_offset im + iomap_length im <? pos + len) with false
    by (symmetry; apply Z.ltb_ge; lia).
  destruct fatal_signal_pending.
  { eexists. split; [reflexivity|]. right. cbn. unfold EINTR.
    split; [lia|]. split; [reflexivity|]. split; [intros a b []|].
    left. auto. }
  destruct (negb (match page_prepare with Some st => st | None => 0 end =? 0))
    eqn:Hprep.
  { eexists. split; [reflexivity|]. right.
    cbn [wb_status wb_pagep wb_log wb_released].
    destruct page_prepare as [st|]; [|discriminate].
    b2p. split; [exact Hprep|]. split; [reflexivity|].
    split; [intros a b []|]. left. cbn. auto. }
  clear Hprep.
  destruct grab_cache_page_write_begin as [s|].
  2:{ eexists. split; [reflexivity|]. right.
      cbn [wb_status wb_pagep wb_log wb_released].
      unfold ENOMEM. split; [lia|]. split; [reflexivity|].
      split.
      { intros a b Hin.
        destruct page_done; [destruct Hin as [H|[]]; discriminate
                            | destruct Hin]. }
      left. split; [reflexivity|]. split; [|auto].
      destruct page_done; [intros [H|[]]; discriminate | intros []]. }
  assert (Hty : iomap_type_eqb (iomap_type_of im) IOMAP_INLINE = false)
    by (destruct (iomap_type_of im); try reflexivity; congruence).
  rewrite Hty, Hflag. cbn [Z.eqb negb].
  destruct (write_begin_returns submit_bio_wait fuel ino pos len im s Hbits
              Hps Hpos0 Hmax Hlen0 Hfit Hfuel) as (status & s1 & Ewb).
  rewrite Ewb.
  apply write_begin_keeps_lock in Ewb. destruct Ewb as [Hl Hu].
  destruct (negb (status =? 0)) eqn:Hst; b2p;
    (eexists; split; [reflexivity|]);
    cbn [wb_status wb_pagep wb_log wb_released].
  - right. split; [exact Hst|]. split; [reflexivity|]. split.
    + intros a b Hin. cbn [app] in Hin. destruct Hin as [Hin|Hin];
        [discriminate|].
      apply in_app_or in Hin. destruct Hin as [Hin|Hin].
      * apply (write_failed_beyond_eof ino pos len a b Hpos Hlen Hin).
      * destruct page_done; [destruct Hin as [Hin|[]]; discriminate
                            | destruct Hin].
    + right. exists s, (unlock_page s1).
      split; [reflexivity|]. split; [reflexivity|].
      split; [reflexivity|]. split; [|left; reflexivity].
      unfold unlock_page, emit. cbn [trace with_page].
      rewrite unlocks_app, Hu. unfold unlocks at 2. cbn. lia.
  - left. split; [reflexivity|]. split; [reflexivity|]. split; [reflexivity|].
    exists s, s1. auto.
Qed.

(** ** Zeroing *)

(** X21. [iomap_truncate_page] zeroes from [pos] to the end of the block that
    holds [pos]: at a block boundary it does nothing and returns 0, and
    otherwise it hands [iomap_zero_range] the position and a length that is
    shorter than a block and ends exactly on the next block boundary. *)
Theorem truncate_page_zeroes_to_block_end
    {R : Type} (zero_range : Z -> Z -> R) (nothing : R) (ino : inode)
    (pos : Z) :
  0 <= i_blkbits ino < 32 -> 0 <= pos ->
  (pos mod i_blocksize ino = 0 ->
   iomap_truncate_page zero_range nothing ino pos = nothing) /\
  (pos mod i_blocksize ino <> 0 ->
   exists n,
     iomap_truncate_page zero_range nothing ino pos = zero_range pos n /\
     0 < n < i_blocksize ino /\ (pos + n) mod i_blocksize ino = 0).
Proof.
  intros Hbits Hpos. unfold iomap_truncate_page.
  rewrite i_blocksize_pow2 by exact Hbits.
  set (bs := 2 ^ i_blkbits ino).
  assert (Hbs : 0 < bs) by (apply pow2_pos; lia).
  assert (Hbslt : bs < 2 ^ 32) by (apply Z.pow_lt_mono_r; lia).
  replace (bs - 1) with (Z.ones (i_blkbits ino))
    by (rewrite Z.ones_equiv; unfold bs; lia).
  rewrite Z.land_ones by lia. fold bs.
  pose proof (Z.mod_pos_bound pos bs Hbs) as Hm.
  rewrite (u32_small (pos mod bs)) by lia.
  split.
  - intros H0. rewrite H0. reflexivity.
  - intros Hne. apply Z.eqb_neq in Hne. rewrite Hne.
    apply Z.eqb_neq in Hne.
    exists (bs - pos mod bs). rewrite u32_small by lia.
    split; [reflexivity|]. split; [lia|].
    replace (pos + (bs - pos mod bs)) with (pos - pos mod bs + 1 * bs) by ring.
    rewrite Z_mod_plus_full.
    assert (Hb : bs <> 0) by lia.
    pose proof (Z.div_mod pos bs Hb) as Hd.
    replace (pos - pos mod bs) with (pos / bs * bs) by lia.
    apply Z_mod_mult.
Qed.

Section ZeroChunkProps.
Variable Store : Type.
Variable iomap_zero : inode -> Z -> Z -> Z -> iomap -> Store -> Z * Store.
Variable iomap_dax_zero : Z -> Z -> Z -> iomap -> Store -> Z * Store.

Lemma zero_range_loop_chunks (ino : inode) (im : iomap) :
  IS_DAX ino = false -> 0 <= PAGE_SHIFT < 31 ->
  forall (fuel : nat) (pos count written : Z) (zs : zstate Store),
    0 <= pos -> 0 < count -> pos + count < 2 ^ 62 ->
    0 <= written -> written + count < 2 ^ 62 ->
    (offset_in_page pos + count - 1) / PAGE_SIZE + 1 <= Z.of_nat fuel ->
    exists chunks zs',
      page_chunks pos chunks (pos + count) /\
      zero_range_loop Store iomap_zero iomap_dax_zero fuel ino pos count
                      written im zs
      = Some (match fst (zero_each Store iomap_zero ino im chunks (store _ zs))
              with
              | Some err => err
              | None => written + count
              end, zs') /\
      store _ zs' = snd (zero_each Store iomap_zero ino im chunks (store _ zs))
      /\
      (fst (zero_each Store iomap_zero ino im chunks (store _ zs)) = None ->
       did_zero _ zs' = match did_zero _ zs with
                        | Some _ => Some true
                        | None => None
                        end).
Proof.
  intros Hdax Hps.
  assert (Hpg : 0 < PAGE_SIZE)
    by (rewrite PAGE_SIZE_pow2 by lia; apply pow2_pos; lia).
  assert (Hpglt : PAGE_SIZE < 2 ^ 31).
  { rewrite PAGE_SIZE_pow2 by lia. apply Z.pow_lt_mono_r; lia. }
  induction fuel as [|fuel IH];
    intros pos count written zs Hpos Hcount Hmax Hw Hwmax Hfuel.
  { exfalso.
    assert (0 <= (offset_in_page pos + count - 1) / PAGE_SIZE).
    { apply Z.div_pos; [|lia]. rewrite offset_in_page_mod by lia.
      pose proof (Z.mod_pos_bound pos PAGE_SIZE Hpg). lia. }
    cbn in Hfuel. lia. }
  cbn [zero_range_loop]. rewrite Hdax.
  rewrite offset_in_page_mod in * by lia.
  pose proof (Z.mod_pos_bound pos PAGE_SIZE Hpg) as Hoff.
  set (off := pos mod PAGE_SIZE) in *.
  rewrite (u32_small off) by lia.
  set (bytes := Z.min (PAGE_SIZE - off) count).
  assert (Hbytes : 0 < bytes <= PAGE_SIZE - off /\ bytes <= count)
    by (unfold bytes; lia).
  rewrite (u32_small bytes) by lia.
  rewrite (s64_small (pos + bytes)), (s64_small (count - bytes)),
    (s64_small (written + bytes)) by lia.
  destruct (0 <? count - bytes) eqn:Hmore; b2p.
  - (* more pages follow *)
    assert (Hb : bytes = PAGE_SIZE - off) by (unfold bytes; lia).
    assert (Hal : (pos + bytes) mod PAGE_SIZE = 0).
    { rewrite Hb. unfold off.
      replace (pos + (PAGE_SIZE - pos mod PAGE_SIZE))
        with (pos - pos mod PAGE_SIZE + 1 * PAGE_SIZE) by ring.
      rewrite Z_mod_plus_full.
      assert (Hne : PAGE_SIZE <> 0) by lia.
      pose proof (Z.div_mod pos PAGE_SIZE Hne) as Hd.
      replace (pos - pos mod PAGE_SIZE) with (pos / PAGE_SIZE * PAGE_SIZE)
        by lia.
      apply Z_mod_mult. }
    assert (Hfuel' : (offset_in_page (pos + bytes) + (count - bytes) - 1)
                     / PAGE_SIZE + 1 <= Z.of_nat fuel).
    { rewrite offset_in_page_mod by lia. rewrite Hal.
      replace (off + count - 1)
        with (0 + (count - bytes) - 1 + 1 * PAGE_SIZE) in Hfuel by lia.
      rewrite Z.div_add in Hfuel by lia. lia. }
    destruct (iomap_zero ino pos off bytes im (store _ zs)) as [status st1]
      eqn:Ez.
    destruct (IH (pos + bytes) (count - bytes) (written + bytes)
                (mkZstate _ st1 (match did_zero _ zs with
                                 | Some _ => Some true
                                 | None => None
                                 end))
                ltac:(lia) ltac:(lia) ltac:(lia) ltac:(lia) ltac:(lia) Hfuel')
      as (chunks & zs' & Htile & Hrun & Hstore & Hdz).
    cbn [store did_zero] in Hrun, Hstore, Hdz.
    exists ((pos, bytes) :: chunks).
    cbn [page_chunks zero_each].
    rewrite !offset_in_page_mod by lia. fold off. rewrite Ez.
    destruct (status <? 0) eqn:Hst.
    + eexists. cbn [fst snd].
      split.
      { split; [reflexivity|]. split; [lia|]. split; [lia|].
        replace (pos + count) with (pos + bytes + (count - bytes)) by ring.
        exact Htile. }
      split; [reflexivity|]. split; [reflexivity | discriminate].
    + exists zs'.
      split.
      { split; [reflexivity|]. split; [lia|]. split; [lia|].
        replace (pos + count) with (pos + bytes + (count - bytes)) by ring.
        exact Htile. }
      split.
      { rewrite Hrun.
        replace (written + bytes + (count - bytes)) with (written + count)
          by ring. reflexivity. }
      split; [exact Hstore|].
      intros Hn. rewrite (Hdz Hn). destruct (did_zero _ zs); reflexivity.
  - assert (Hb : bytes = count) by lia.
    exists [(pos, bytes)].
    destruct (iomap_zero ino pos off bytes im (store _ zs)) as [status st1]
      eqn:Ez.
    cbn [page_chunks zero_each].
    rewrite !offset_in_page_mod by lia. fold off. rewrite Ez.
    destruct (status <? 0) eqn:Hst; eexists; cbn [fst snd].
    + split; [repeat split; lia|].
      split; [reflexivity|]. split; [reflexivity | discriminate].
    + split; [repeat split; lia|].
      split; [rewrite Hb; reflexivity|]. split; [reflexivity|].
      intros _. reflexivity.
Qed.

(** X22. On an extent that holds data, [iomap_zero_range_actor] zeroes the
    range page by page: it calls [iomap_zero] on consecutive chunks that
    start at [pos], end at [pos + count] and never cross a page boundary.
    When every call succeeds it returns [count] and sets the caller's
    did-zero flag; at the first call that fails it stops and returns that
    error, not the bytes zeroed so far. *)
Theorem zero_range_actor_page_chunks
    (fuel : nat) (ino : inode) (pos count : Z) (im : iomap)
    (zs : zstate Store) :
  IS_DAX ino = false -> 0 <= PAGE_SHIFT < 31 ->
  iomap_type_of im <> IOMAP_HOLE -> iomap_type_of im <> IOMAP_UNWRITTEN ->
  0 <= pos -> 0 < count -> pos + count < 2 ^ 62 ->
  count / PAGE_SIZE + 2 <= Z.of_nat fuel ->
  exists chunks zs',
    page_chunks pos chunks (pos + count) /\
    iomap_zero_range_actor Store iomap_zero iomap_dax_zero fuel ino pos count
                           im zs
    = Some (match fst (zero_each Store iomap_zero ino im chunks (store _ zs))
            with
            | Some err => err
            | None => count
            end, zs') /\
    store _ zs' = snd (zero_each Store iomap_zero ino im chunks (store _ zs)) /\
    (fst (zero_each Store iomap_zero ino im chunks (store _ zs)) = None ->
     did_zero _ zs' = match did_zero _ zs with
                      | Some _ => Some true
                      | None => None
                      end).
Proof.
  intros Hdax Hps Hh Hu Hpos Hcount Hmax Hfuel.
  unfold iomap_zero_range_actor.
  assert (Hty : iomap_type_eqb (iomap_type_of im) IOMAP_HOLE
                || iomap_type_eqb (iomap_type_of im) IOMAP_UNWRITTEN = false)
    by (destruct (iomap_type_of im); try reflexivity; congruence).
  rewrite Hty.
  assert (Hpg : 0 < PAGE_SIZE)
    by (rewrite PAGE_SIZE_pow2 by lia; apply pow2_pos; lia).
  apply (zero_range_loop_chunks ino im Hdax Hps fuel pos count 0 zs);
    try lia.
  rewrite offset_in_page_mod by lia.
  pose proof (Z.mod_pos_bound pos PAGE_SIZE Hpg) as Hoff.
  assert (Hle : (pos mod PAGE_SIZE + count - 1) / PAGE_SIZE
                <= (count + 1 * PAGE_SIZE) / PAGE_SIZE)
    by (apply Z.div_le_mono; lia).
  rewrite Z.div_add in Hle by lia. lia.
Qed.
End ZeroChunkProps.

(** ** Releasing page state *)

Lemma page_release_no_state (p : page) :
  to_iomap_page (iomap_page_release p) = None /\
  PageDirty (iomap_page_release p) = PageDirty p /\
  PageWriteback (iomap_page_release p) = PageWriteback p /\
  PageUptodate (iomap_page_release p) = PageUptodate p /\
  PageLocked (iomap_page_release p) = PageLocked p.
Proof.
  unfold iomap_page_release.
  destruct (to_iomap_page p) eqn:E; cbn; auto.
Qed.

(** X23. [iomap_releasepage] never touches a page that is dirty or under
    writeback: it returns 0 and leaves the page as it is.  Every other page
    loses its page state and keeps its flags, the function returns 1, and
    from then on [iomap_is_partially_uptodate] reports no range of the page
    uptodate. *)
Theorem releasepage_skips_busy_pages (p : page) :
  (PageDirty p = true \/ PageWriteback p = true ->
   iomap_releasepage p = (0, p)) /\
  (PageDirty p = false -> PageWriteback p = false ->
   fst (iomap_releasepage p) = 1 /\
   to_iomap_page (snd (iomap_releasepage p)) = None /\
   PageUptodate (snd (iomap_releasepage p)) = PageUptodate p /\
   PageLocked (snd (iomap_releasepage p)) = PageLocked p /\
   forall ino from count,
     iomap_is_partially_uptodate ino (snd (iomap_releasepage p)) from count
     = 0).
Proof.
  unfold iomap_releasepage. split.
  - intros [H | H]; rewrite H; [reflexivity|].
    rewrite orb_true_r. reflexivity.
  - intros Hd Hw. rewrite Hd, Hw. cbn [orb fst snd].
    destruct (page_release_no_state p) as (Hn & _ & _ & Hu & Hl).
    split; [reflexivity|]. split; [exact Hn|]. split; [exact Hu|].
    split; [exact Hl|].
    intros ino from count. unfold iomap_is_partially_uptodate.
    rewrite Hn. reflexivity.
Qed.

(** X24. [iomap_invalidatepage] acts on whole pages only: for a range that
    is not the entire page the page is left as it is, with its dirty bit and
    its page state.  For the entire page the dirty bit is cleared and the
    page state is dropped, so that [iomap_is_partially_uptodate] reports no
    range uptodate any more; the Uptodate flag of the page is not changed. *)
Theorem invalidatepage_whole_pages_only (p : page) :
  (forall offset len, offset <> 0 \/ len <> PAGE_SIZE ->
     iomap_invalidatepage p offset len = p) /\
  PageDirty (iomap_invalidatepage p 0 PAGE_SIZE) = false /\
  to_iomap_page (iomap_invalidatepage p 0 PAGE_SIZE) = None /\
  PageUptodate (iomap_invalidatepage p 0 PAGE_SIZE) = PageUptodate p /\
  forall ino from count,
    iomap_is_partially_uptodate ino (iomap_invalidatepage p 0 PAGE_SIZE)
                                from count = 0.
Proof.
  unfold iomap_invalidatepage. split.
  - intros offset len [H | H]; apply Z.eqb_neq in H; rewrite H;
      [reflexivity | rewrite andb_false_r; reflexivity].
  - rewrite !Z.eqb_refl. cbn [andb].
    destruct (page_release_no_state (ClearPageDirty p))
      as (Hn & Hd & _ & Hu & _).
    split; [rewrite Hd; reflexivity|]. split; [exact Hn|].
    split; [rewrite Hu; reflexivity|].
    intros ino from count. unfold iomap_is_partially_uptodate.
    rewrite Hn. reflexivity.
Qed.

End Properties.

(** * Witnesses and counterexamples *)

(** C8 at a page whose block 1 is uptodate: marking bytes 2048..4095 sets
    blocks 2 and 3 and nothing else. *)
Lemma set_range_uptodate_exact_bits_witness :
  exists iop',
    to_iomap_page (iomap_set_range_uptodate (arch := arch4k) ino1k
                     (locked_page (Some iop_block1)) 2048 2048) = Some iop' /\
    (test_bit 0 (uptodate iop') = true <->
     test_bit 0 (uptodate iop_block1) = true \/
     (2048 < (0 + 1) * i_blocksize ino1k /\ 0 * i_blocksize ino1k < 2048 + 2048)).
Proof.
  destruct (set_range_uptodate_exact_bits (arch := arch4k) ino1k
              (locked_page (Some iop_block1)) iop_block1 2048 2048)
    as (iop' & H1 & H2 & _).
  - cbn; lia.
  - cbn; lia.
  - reflexivity.
  - lia.
  - lia.
  - vm_compute. discriminate.
  - exists iop'. split; [exact H1 | apply H2; lia].
Defined.

(** C9 at a page without page state: marking 10 bytes marks the page. *)
Lemma set_range_uptodate_without_page_state_witness :
  PageUptodate (iomap_set_range_uptodate (arch := arch4k) ino4k
                  (locked_page None) 0 10) = true.
Proof.
  apply (set_range_uptodate_without_page_state (arch := arch4k) ino4k
           (locked_page None) 0 10); reflexivity.
Defined.

(** C3 at a write of 100 bytes of which 40 were copied. *)
Lemma write_end_short_copy_returns_zero_witness :
  __iomap_write_end (arch := arch4k) ino1k 0 100 40
    (mkPstate (locked_page (Some iop_block1)) [])
  = (0, mkPstate (locked_page (Some iop_block1)) []).
Proof.
  apply (write_end_short_copy_returns_zero (arch := arch4k) ino1k 0 100 40
           (mkPstate (locked_page (Some iop_block1)) [])).
  - lia.
  - reflexivity.
Defined.

(** C6 at a page whose read was split in two, the second half failing. *)
Lemma read_completions_unlock_exactly_once_witness :
  unlocks (trace (read_completions (arch := arch4k) ino1k
                    [(mkBvec 2048 1024, - EIO); (mkBvec 0 1024, 0)]
                    (mkPstate (locked_page (Some (mkIop 2 0 0))) [])))
  = 1%nat.
Proof.
  destruct (read_completions_unlock_exactly_once (arch := arch4k) ino1k
              [(mkBvec 0 1024, 0); (mkBvec 2048 1024, - EIO)]
              (mkPstate (locked_page (Some (mkIop 2 0 0))) [])
              (mkIop 2 0 0)) as (_ & _ & H).
  - reflexivity.
  - discriminate.
  - reflexivity.
  - vm_compute. reflexivity.
  - destruct (H [(mkBvec 2048 1024, - EIO); (mkBvec 0 1024, 0)]) as [Hun _].
    + apply perm_swap.
    + exact Hun.
Defined.

(** C1: the claim as stated fails on two adjacent ioends that differ in the
    New flag only: they merge although their flag words are not equal. *)
Lemma can_merge_ignores_other_flags :
  ~ (iomap_ioend_can_merge ioend_new ioend_plain = true <->
     bi_status (io_bio ioend_new) = bi_status (io_bio ioend_plain) /\
     io_flags ioend_new = io_flags ioend_plain /\
     (io_type ioend_new = IOMAP_UNWRITTEN <->
      io_type ioend_plain = IOMAP_UNWRITTEN) /\
     io_offset ioend_new + io_size ioend_new = io_offset ioend_plain).
Proof.
  intros [H _]. specialize (H eq_refl).
  destruct H as (_ & Hflags & _). discriminate Hflags.
Qed.

(** C1 (as amended) at the same two ioends. *)
Lemma ioend_merge_criteria_and_growth_witness :
  io_size (fst (fst (iomap_ioend_try_merge ioend_new [ioend_plain] None)))
  = io_size ioend_new + total_size [ioend_plain].
Proof.
  destruct (ioend_merge_criteria_and_growth ioend_new [ioend_plain] None
              (fst (fst (iomap_ioend_try_merge ioend_new [ioend_plain] None)))
              (snd (fst (iomap_ioend_try_merge ioend_new [ioend_plain] None)))
              (snd (iomap_ioend_try_merge ioend_new [ioend_plain] None)))
    as (_ & _ & _ & H & _).
  - unfold ioend_wf. cbn. lia.
  - constructor; [unfold ioend_wf; cbn; lia | constructor].
  - reflexivity.
  - exact H.
Defined.

(** C4 at a 16-byte range inside a hole. *)
Lemma zero_range_over_zero_extents_is_free_witness :
  iomap_zero_range (arch := arch4k) unit
    (fun _ _ _ _ _ st => (0, st)) (fun _ _ _ _ st => (0, st)) 17
    (fun _ _ => inr im_hole) ino1k 0 16 (mkZstate unit tt (Some false))
  = Some (0, mkZstate unit tt (Some false)).
Proof.
  destruct (zero_range_over_zero_extents_is_free (arch := arch4k) unit
              (fun _ _ _ _ _ st => (0, st)) (fun _ _ _ _ st => (0, st))
              (fun _ _ => inr im_hole) ino1k 0 16
              (mkZstate unit tt (Some false))) as [_ H].
  - lia.
  - lia.
  - lia.
  - intros p Hp. exists im_hole. split; [reflexivity|].
    split; [left; reflexivity | cbn; lia].
  - apply H. vm_compute. lia.
Defined.

(** C10 at an applicator that fails on every call. *)
Lemma readpage_always_returns_zero_witness :
  exists s',
    iomap_readpage (arch := arch4k) (fun _ len st => (Z.min len (- EIO), st))
      (S (Z.to_nat (PAGE_SIZE (arch := arch4k))))
      (mkPstate (locked_page None) [])
    = Some (0, s').
Proof.
  destruct (readpage_always_returns_zero (arch := arch4k)
              (fun _ len st => (Z.min len (- EIO), st))
              (mkPstate (locked_page None) []))
    as (_ & s' & Hrun & _).
  - cbn; lia.
  - intros pos len st. cbn [fst]. lia.
  - exists s'. exact Hrun.
Defined.





(** C7: the claim as stated fails on a page with no uptodate block when the
    window is bytes 100..2999: block 1 (bytes 1024..2047) lies fully inside
    the window and is read all the same, in the one read of bytes 0..3071. *)
Lemma write_begin_reads_block_inside_window :
  exists s',
    __iomap_write_begin (arch := arch4k) 4 (fun _ _ _ => 0) ino1k 100 2900
                        im_mapped (mkPstate (locked_page None) [])
    = Some (0, s') /\
    trace s' = [EvSubmitBioWait 0 0 3072] /\
    100 <= 1 * i_blocksize ino1k /\ (1 + 1) * i_blocksize ino1k <= 100 + 2900 /\
    0 <= 1 * i_blocksize ino1k /\ (1 + 1) * i_blocksize ino1k <= 0 + 3072.
Proof.
  eexists. vm_compute. repeat split; try reflexivity; discriminate.
Qed.

(** C7 (as amended) at the same write. *)
Lemma write_begin_prepares_partial_blocks_witness :
  exists status s' evs,
    __iomap_write_begin (arch := arch4k) 4 (fun _ _ _ => 0) ino1k 100 2900
                        im_mapped (mkPstate (locked_page None) [])
    = Some (status, s') /\
    trace s' = trace (mkPstate (locked_page None) []) ++ evs.
Proof.
  destruct (write_begin_prepares_partial_blocks (arch := arch4k)
              (fun _ _ _ => 0) 4 ino1k 100 2900 im_mapped
              (mkPstate (locked_page None) []))
    as (status & s' & evs & Hrun & Htr & _).
  - cbn; lia.
  - cbn; lia.
  - lia.
  - vm_compute. reflexivity.
  - lia.
  - vm_compute. discriminate.
  - reflexivity.
  - vm_compute. lia.
  - exists status, s', evs. split; [exact Hrun | exact Htr].
Defined.

(** * Witnesses of the further properties *)

(** X1 at the page whose block 1 is uptodate: bytes 1024..2047 are reported
    uptodate. *)
Lemma is_partially_uptodate_exact_witness :
  iomap_is_partially_uptodate (arch := arch4k) ino1k
    (locked_page (Some iop_block1)) 1024 1024 = 1.
Proof.
  destruct (is_partially_uptodate_exact (arch := arch4k) ino1k
              (locked_page (Some iop_block1)) 1024 1024) as [[_ H] _].
  - cbn; lia.
  - cbn; lia.
  - cbn; lia.
  - lia.
  - apply H. exists iop_block1. split; [reflexivity|].
    change (i_blocksize ino1k) with 1024.
    change (Z.min (PAGE_SIZE (arch := arch4k) - 1024) 1024) with 1024.
    intros b Hb1 Hb2. assert (Hb : b = 1) by lia. rewrite Hb. reflexivity.
Defined.

(** X2 at the same page: bytes 2048..4095 marked and queried. *)
Lemma set_range_uptodate_then_query_witness :
  iomap_is_partially_uptodate (arch := arch4k) ino1k
    (iomap_set_range_uptodate (arch := arch4k) ino1k
       (locked_page (Some iop_block1)) 2048 2048) 2048 2048 = 1.
Proof.
  apply (set_range_uptodate_then_query (arch := arch4k) ino1k
           (locked_page (Some iop_block1)) iop_block1 2048 2048).
  - cbn; lia.
  - cbn; lia.
  - reflexivity.
  - lia.
  - lia.
  - cbn; lia.
Defined.

(** X3 at the same page: block 1 stays uptodate when blocks 2 and 3 are
    marked. *)
Lemma set_range_uptodate_monotonic_witness :
  iomap_is_partially_uptodate (arch := arch4k) ino1k
    (iomap_set_range_uptodate (arch := arch4k) ino1k
       (locked_page (Some iop_block1)) 2048 2048) 1024 1024 = 1.
Proof.
  destruct (set_range_uptodate_monotonic (arch := arch4k) ino1k
              (locked_page (Some iop_block1)) iop_block1 2048 2048 1024 1024)
    as (iop' & _ & _ & _ & _ & _ & H).
  - cbn; lia.
  - cbn; lia.
  - reflexivity.
  - lia.
  - lia.
  - cbn; lia.
  - cbn; lia.
  - lia.
  - apply H. reflexivity.
Defined.

(** X4 at a read of the whole page 0 from a mapped extent. *)
Lemma readpage_actor_progress_witness :
  exists ret st',
    iomap_readpage_actor (arch := arch4k) (blk := blk_plain) 0 ino1k 0 4096
                         im_mapped rstate_block1 = Some (ret, st') /\
    0 < ret <= 4096.
Proof.
  destruct (readpage_actor_progress (arch := arch4k) (blk := blk_plain) 0
              ino1k 0 4096 im_mapped rstate_block1)
    as (ret & st' & E & H & _).
  - cbn; lia.
  - cbn; lia.
  - lia.
  - lia.
  - lia.
  - reflexivity.
  - reflexivity.
  - discriminate.
  - exists ret, st'. split; [exact E|].
    change (Z.min (PAGE_SIZE (arch := arch4k)
                   - offset_in_page (arch := arch4k) 0) 4096)
      with 4096 in H.
    exact H.
Defined.

(** X5 at a read of the whole page 0 from a hole. *)
Lemma readpage_actor_zero_fill_witness :
  exists ret s',
    iomap_readpage_actor (arch := arch4k) (blk := blk_plain) 0 ino1k 0 4096
                         im_hole rstate_block1
    = Some (ret, mkRstate (rctx rstate_block1) s') /\
    (to_iomap_page (pg s') <> None ->
     iomap_is_partially_uptodate (arch := arch4k) ino1k (pg s')
       (offset_in_page (arch := arch4k) 0) ret = 1).
Proof.
  destruct (readpage_actor_zero_fill (arch := arch4k) (blk := blk_plain) 0
              ino1k 0 4096 im_hole rstate_block1)
    as (ret & s' & E & _ & H & _).
  - cbn; lia.
  - cbn; lia.
  - lia.
  - lia.
  - lia.
  - reflexivity.
  - reflexivity.
  - discriminate.
  - left. discriminate.
  - exists ret, s'. split; [exact E | exact H].
Defined.


(** X7 at a page one of whose two read segments fails. *)
Lemma read_failure_is_sticky_witness :
  PageError (pg (read_completions (arch := arch4k) ino1k
                   [(mkBvec 2048 1024, - EIO); (mkBvec 0 1024, 0)]
                   (mkPstate (locked_page (Some (mkIop 2 0 0))) []))) = true.
Proof.
  apply (read_failure_is_sticky (arch := arch4k) ino1k
           [(mkBvec 2048 1024, - EIO); (mkBvec 0 1024, 0)]
           (mkPstate (locked_page (Some (mkIop 2 0 0))) [])
           (mkBvec 2048 1024) (- EIO)).
  - left. reflexivity.
  - unfold EIO. lia.
Defined.

(** X8 at the page with block 1 uptodate and a bio whose two segments cover
    blocks 0, 2 and 3. *)
Lemma read_end_io_makes_page_uptodate_witness :
  PageUptodate (pg (iomap_read_end_io (arch := arch4k) ino1k
                      [mkBvec 0 1024; mkBvec 2048 2048] 0
                      (mkPstate (locked_page (Some (mkIop 2 0 2))) [])))
  = true.
Proof.
  destruct (read_end_io_makes_page_uptodate (arch := arch4k) ino1k
              [mkBvec 0 1024; mkBvec 2048 2048]
              (mkPstate (locked_page (Some (mkIop 2 0 2))) [])
              (mkIop 2 0 2)) as [H _].
  - cbn; lia.
  - cbn; lia.
  - reflexivity.
  - reflexivity.
  - discriminate.
  - reflexivity.
  - cbn; lia.
  - intros bvec [<- | [<- | []]]; cbn; lia.
  - change (PAGE_SIZE (arch := arch4k) / i_blocksize ino1k) with 4.
    change (i_blocksize ino1k) with 1024.
    intros i Hi.
    assert (Hc : i = 0 \/ i = 1 \/ i = 2 \/ i = 3) by lia.
    destruct Hc as [-> | [-> | [-> | ->]]].
    + right. exists (mkBvec 0 1024). split; [left; reflexivity | cbn; lia].
    + left. reflexivity.
    + right. exists (mkBvec 2048 2048).
      split; [right; left; reflexivity | cbn; lia].
    + right. exists (mkBvec 2048 2048).
      split; [right; left; reflexivity | cbn; lia].
  - exact H.
Defined.

(** X9 at block 1 of the page whose block 1 is uptodate. *)
Lemma adjust_read_range_empty_iff_uptodate_witness :
  snd (iomap_adjust_read_range (arch := arch4k) ino1k (Some iop_block1)
         1024 1024) = 0 <->
  iomap_is_partially_uptodate (arch := arch4k) ino1k
    (locked_page (Some iop_block1)) (offset_in_page (arch := arch4k) 1024)
    1024 = 1.
Proof.
  apply (adjust_read_range_empty_iff_uptodate (arch := arch4k) ino1k
           (locked_page (Some iop_block1)) iop_block1 1024 1024).
  - cbn; lia.
  - cbn; lia.
  - reflexivity.
  - lia.
  - lia.
  - reflexivity.
  - reflexivity.
Defined.

(** X10 at a page with two write segments, the first of which fails. *)
Lemma write_completions_end_writeback_once_witness :
  writeback_ends (trace (write_completions [- EIO; 0] writeback_page))
  = 1%nat.
Proof.
  destruct (write_completions_end_writeback_once [- EIO; 0] writeback_page
              (mkIop 0 2 15)) as [_ H].
  - reflexivity.
  - discriminate.
  - reflexivity.
  - cbn; lia.
  - destruct (H [- EIO; 0] (Permutation_refl _)) as [H1 _]. exact H1.
Defined.


(** X12 at the dirty page with all blocks mapped. *)
Lemma writepage_map_success_witness :
  fst (fst (iomap_writepage_map (arch := arch4k) (blk := blk_plain)
              ops_all_mapped wpc_empty ino1k 4096 dirty_page)) = 0.
Proof.
  rewrite (writepage_map_success (arch := arch4k) (blk := blk_plain)
             ops_all_mapped wpc_empty ino1k 4096 dirty_page).
  - reflexivity.
  - reflexivity.
  - reflexivity.
Defined.

(** X13 at a page none of whose blocks is uptodate. *)
Lemma writepage_map_nothing_uptodate_witness :
  fst (fst (iomap_writepage_map (arch := arch4k) (blk := blk_plain)
              ops_fail_at_0 wpc_empty ino1k 4096
              (mkPstate (locked_page (Some (mkIop 0 0 0))) []))) = 0.
Proof.
  rewrite (writepage_map_nothing_uptodate (arch := arch4k) (blk := blk_plain)
             ops_fail_at_0 wpc_empty ino1k 4096
             (mkPstate (locked_page (Some (mkIop 0 0 0))) []) (mkIop 0 0 0)).
  - reflexivity.
  - reflexivity.
  - intros j _. apply Z.bits_0.
Defined.

(** X14 at two ioends, the second of which the submit hook refuses; the
    refused ioend has its segment on page 1, the page of the state. *)
Lemma submit_all_propagates_first_error_witness :
  exists s',
    submit_all (blk := blk_plain) ops_refuse_4096
               ([ioend_new] ++ ioend_plain :: []) 0
               (mkPstate (mkPage 1 true true true false false
                                 (Some (mkIop 0 2 15)) true) [])
    = (- EIO, s') /\
    PageError (pg s') = true.
Proof.
  destruct (submit_all_propagates_first_error (blk := blk_plain)
              ops_refuse_4096 [ioend_new] [] ioend_plain (- EIO)
              (mkPstate (mkPage 1 true true true false false
                                (Some (mkIop 0 2 15)) true) []))
    as (s' & evs & E & _ & _ & _ & _ & _ & _ & Hflag).
  - unfold EIO. lia.
  - intros x [<- | []]. reflexivity.
  - reflexivity.
  - exists s'. split; [exact E|].
    apply Hflag; [reflexivity | left; reflexivity].
Defined.

(** X15 at a page written from memory reclaim. *)
Lemma do_writepage_by_position_witness :
  fst (fst (iomap_do_writepage (arch := arch4k) (blk := blk_plain)
              ops_all_mapped true false wpc_empty ino1k dirty_page)) = 0.
Proof.
  destruct (do_writepage_by_position (arch := arch4k) (blk := blk_plain)
              ops_all_mapped true false wpc_empty ino1k dirty_page)
    as (_ & _ & H).
  - cbn; lia.
  - cbn; lia.
  - cbn; lia.
  - cbn; lia.
  - rewrite H by (left; reflexivity). reflexivity.
Defined.


(** X17 at a write of blocks 1 and 2 of page 0. *)
Lemma write_begin_aligned_window_reads_nothing_witness :
  exists s',
    __iomap_write_begin (arch := arch4k) 4 read_ok ino1k 1024 2048 im_mapped
                        (mkPstate (locked_page (Some iop_block1)) [])
    = Some (0, s') /\
    trace s' = [].
Proof.
  apply (write_begin_aligned_window_reads_nothing (arch := arch4k) read_ok 4
           ino1k 1024 2048 im_mapped
           (mkPstate (locked_page (Some iop_block1)) [])).
  - cbn; lia.
  - cbn; lia.
  - lia.
  - cbn; lia.
  - lia.
  - cbn; lia.
  - reflexivity.
  - reflexivity.
  - cbn; lia.
Defined.

(** X18 at a complete write of block 2 of page 0. *)
Lemma write_end_full_copy_publishes_range_witness :
  exists s',
    __iomap_write_end (arch := arch4k) ino1k 2048 1024 1024
                      (mkPstate (locked_page (Some iop_block1)) [])
    = (1024, s') /\
    iomap_is_partially_uptodate (arch := arch4k) ino1k (pg s')
      (offset_in_page (arch := arch4k) 2048) 1024 = 1 /\
    PageDirty (pg s') = true.
Proof.
  destruct (write_end_full_copy_publishes_range (arch := arch4k) ino1k 2048
              1024 (mkPstate (locked_page (Some iop_block1)) []) iop_block1)
    as (s' & E & Hq & Hd & _).
  - cbn; lia.
  - cbn; lia.
  - reflexivity.
  - lia.
  - lia.
  - cbn; lia.
  - exists s'. split; [exact E|]. split; [exact Hq | exact Hd].
Defined.

(** X19 at a short write that starts at the end of a 1 MiB file: 1024 of
    2048 bytes arrive in an uptodate page. *)
Lemma write_end_keeps_size_and_written_bytes_witness :
  match iomap_write_end (arch := arch4k) 0 false (fun _ _ _ s => (0, s))
          ino1k (2 ^ 20) 2048 1024 im_mapped dirty_page with
  | Some (ret, s', ino', im', log) =>
      i_size ino' = Z.max (i_size ino1k) (2 ^ 20 + ret) /\
      In WrPutPage log
  | None => False
  end.
Proof.
  destruct (iomap_write_end (arch := arch4k) 0 false (fun _ _ _ s => (0, s))
              ino1k (2 ^ 20) 2048 1024 im_mapped dirty_page)
    as [[[[[ret s'] ino'] im'] log]|] eqn:E; [|discriminate E].
  destruct (write_end_keeps_size_and_written_bytes (arch := arch4k) 0 false
              (fun _ _ _ s => (0, s)) ino1k (2 ^ 20) 2048 1024 im_mapped
              dirty_page ret s' ino' im' log)
    as (H1 & _ & _ & _ & _ & H2 & _).
  - lia.
  - cbn; lia.
  - lia.
  - vm_compute in E. injection E as <- _ _ _ _. lia.
  - exact E.
  - split; [exact H1 | exact H2].
Defined.

(** X20 at a write into the middle of block 0 whose read fails: the call
    returns, no page is handed over, and the page that was grabbed is
    unlocked. *)
Lemma write_begin_hands_over_or_cleans_up_witness :
  exists r,
    iomap_write_begin (arch := arch4k) 4 read_fails 0 false None false
      (Some (mkPstate (locked_page (Some iop_block1)) []))
      (fun _ _ s => (0, s)) ino1k 100 200 im_mapped = WbDone r /\
    wb_pagep r = None.
Proof.
  destruct (write_begin_hands_over_or_cleans_up (arch := arch4k) 4 read_fails
              0 false None false
              (Some (mkPstate (locked_page (Some iop_block1)) []))
              (fun _ _ s => (0, s)) ino1k 100 200 im_mapped)
    as (r & E & [(H0 & _) | (_ & Hp & _)]).
  - cbn; lia.
  - cbn; lia.
  - lia.
  - cbn; lia.
  - lia.
  - cbn; lia.
  - cbn; lia.
  - cbn; lia.
  - discriminate.
  - reflexivity.
  - exfalso. vm_compute in E. injection E as <-. discriminate H0.
  - exists r. split; [exact E | exact Hp].
Defined.

(** X21 at byte 1500 of a file with 1 KiB blocks. *)
Lemma truncate_page_zeroes_to_block_end_witness :
  exists n,
    iomap_truncate_page (fun pos len => (pos, len)) (0, 0) ino1k 1500
    = (1500, n) /\
    0 < n < i_blocksize ino1k /\ (1500 + n) mod i_blocksize ino1k = 0.
Proof.
  destruct (truncate_page_zeroes_to_block_end (fun pos len => (pos, len))
              (0, 0) ino1k 1500) as [_ H].
  - cbn; lia.
  - lia.
  - apply H. discriminate.
Defined.

(** X22 at 5000 bytes from byte 1000 of a mapped extent. *)
Lemma zero_range_actor_page_chunks_witness :
  exists chunks zs',
    page_chunks (arch := arch4k) 1000 chunks (1000 + 5000) /\
    iomap_zero_range_actor (arch := arch4k) nat counting_zero
      counting_dax_zero 5 ino1k 1000 5000 im_mapped (mkZstate nat O None)
    = Some (match fst (zero_each (arch := arch4k) nat counting_zero ino1k
                         im_mapped chunks O) with
            | Some err => err
            | None => 5000
            end, zs').
Proof.
  destruct (zero_range_actor_page_chunks (arch := arch4k) nat counting_zero
              counting_dax_zero 5 ino1k 1000 5000 im_mapped
              (mkZstate nat O None))
    as (chunks & zs' & H1 & H2 & _).
  - reflexivity.
  - cbn; lia.
  - discriminate.
  - discriminate.
  - lia.
  - lia.
  - lia.
  - cbn; lia.
  - exists chunks, zs'. split; [exact H1 | exact H2].
Defined.

(** X23 at a clean page with page state, and at the dirty page. *)
Lemma releasepage_skips_busy_pages_witness :
  fst (iomap_releasepage (locked_page (Some iop_block1))) = 1 /\
  iomap_releasepage (pg dirty_page) = (0, pg dirty_page).
Proof.
  split.
  - destruct (proj2 (releasepage_skips_busy_pages (arch := arch4k)
                       (locked_page (Some iop_block1))) eq_refl eq_refl)
      as [H _].
    exact H.
  - apply (proj1 (releasepage_skips_busy_pages (arch := arch4k)
                    (pg dirty_page))).
    left. reflexivity.
Defined.

(** X24 at the invalidation of the first block of the dirty page. *)
Lemma invalidatepage_whole_pages_only_witness :
  iomap_invalidatepage (arch := arch4k) (pg dirty_page) 0 1024
  = pg dirty_page.
Proof.
  apply (proj1 (invalidatepage_whole_pages_only (arch := arch4k)
                  (pg dirty_page))).
  right. cbn. lia.
Defined.
